(** * abr-test: the transcode job registry of [main.go]

    A shallow embedding of the job lifecycle of the HLS transcoding server:
    the registry [TranscodeState] (a map from video name to a pointer to a
    [VideoMapping], a reader/writer lock, a JSON file on disk), the request
    handlers [handleTranscode] and [handleStatus], the background job
    [transcode], and [load] / [save].

    Every Go function is written once, as a program over atomic actions
    ([Prog]).  The same program is given two readings: [run] executes it
    alone, from start to end; [pool_step] executes one action of one
    goroutine of a pool, so that a schedule fixes an interleaving.  Each
    action is one access to the shared state, so every run of a schedule
    is a sequentially consistent execution of the Go program.

    The Go standard library is not part of the repository.  What the code
    needs from it and what is intricate there (JSON text syntax, Unicode case
    folding of field names, lexical path cleaning) is a parameter, [GoLib];
    the way [encoding/json] moves between a JSON value and
    [map[string]*VideoMapping] depends on the struct tags of the source and
    is modelled directly.

    The file has three parts: the model, the vocabulary of the statements
    with the concrete scenarios, and the lemmas and theorems. *)

From Stdlib Require Import String Ascii.
From stdpp Require Import gmap strings list fin_maps sorting.

Open Scope string_scope.

(** * Part I: the model *)

(** ** Go strings *)

Module GoStrings.

(** [filepath.Ext]: walk back from the last byte, stop at a path separator,
    return the suffix that starts at the first dot met.  [before] is the
    part of the path not yet visited, reversed; [suffix] is [path[i+1:]]. *)
Fixpoint ext_scan (before suffix : list ascii) : list ascii :=
  match before with
  | [] => []
  | c :: more =>
      if Ascii.eqb c "/" then []
      else if Ascii.eqb c "." then c :: suffix
      else ext_scan more (c :: suffix)
  end.

Definition filepath_Ext (path : string) : string :=
  string_of_list_ascii (ext_scan (rev (list_ascii_of_string path)) []).

Definition strings_HasSuffix (s suffix : string) : bool :=
  (String.length suffix <=? String.length s)%nat &&
  String.eqb
    (substring (String.length s - String.length suffix) (String.length suffix) s)
    suffix.

Definition strings_TrimSuffix (s suffix : string) : string :=
  if strings_HasSuffix s suffix
  then substring 0 (String.length s - String.length suffix) s
  else s.

Definition strings_HasPrefix (s pre : string) : bool := String.prefix pre s.

Definition strings_TrimPrefix (s pre : string) : string :=
  if strings_HasPrefix s pre
  then substring (String.length pre) (String.length s - String.length pre) s
  else s.

(** [fmt.Sprintf("/hls/%s/master.m3u8", dir)] *)
Definition stream_url (dir : string) : string :=
  "/hls/" ++ dir ++ "/master.m3u8".

End GoStrings.
Export GoStrings.

(** ** Data model *)

Record VideoMapping := mkVideoMapping {
  OriginalName : string;   (* json:"original_name" *)
  TranscodeDir : string;   (* json:"transcode_dir" *)
  Status : string          (* json:"status": "processing", "completed", "failed" *)
}.

#[export] Instance VideoMapping_eq_dec : EqDecision VideoMapping.
Proof. solve_decision. Defined.

Definition zero_VideoMapping : VideoMapping := mkVideoMapping "" "" "".

Inductive Field := FOriginalName | FTranscodeDir | FStatus.

Definition get_field (f : Field) (v : VideoMapping) : string :=
  match f with
  | FOriginalName => OriginalName v
  | FTranscodeDir => TranscodeDir v
  | FStatus => Status v
  end.

Definition set_field (f : Field) (x : string) (v : VideoMapping) : VideoMapping :=
  match f with
  | FOriginalName => mkVideoMapping x (TranscodeDir v) (Status v)
  | FTranscodeDir => mkVideoMapping (OriginalName v) x (Status v)
  | FStatus => mkVideoMapping (OriginalName v) (TranscodeDir v) x
  end.

(** A [*VideoMapping]: nil, or the address of a record in the heap. *)
Inductive ptr := Nil | Ref (l : nat).

#[export] Instance ptr_eq_dec : EqDecision ptr.
Proof. solve_decision. Defined.

Inductive error :=
| ErrNotExist                 (* the errors [os.IsNotExist] accepts *)
| ErrOS (msg : string)        (* any other error of the operating system *)
| SyntaxError                 (* *json.SyntaxError *)
| UnmarshalTypeError          (* *json.UnmarshalTypeError *)
| ExitError (code : nat)      (* *exec.ExitError: the encoder exited non-zero *)
| ExecError (msg : string).   (* the encoder could not be started *)

#[export] Instance error_eq_dec : EqDecision error.
Proof. solve_decision. Defined.

Definition os_IsNotExist (err : option error) : bool :=
  match err with
  | Some ErrNotExist => true
  | _ => false
  end.

(** The file [transcode_mappings.json]. *)
Inductive DiskFile :=
| NoFile
| Unreadable (err : error)
| File (data : string).

Inductive LogLine :=
| LogWarnLoad (err : error)                          (* "Warning: Could not load mappings: %v" *)
| LogStart (videoName : string)                      (* "Starting transcode for: %s" *)
| LogFailed (videoName : string) (err : error) (output : string)
                                                     (* "Transcode failed for %s: %v\n%s" *)
| LogCompleted (videoName : string).                 (* "Transcode completed for: %s" *)

(** What a handler writes to its [http.ResponseWriter]: [http.Error], or a
    JSON object of strings with status 200. *)
Inductive Response :=
| HttpError (code : nat) (msg : string)
| JsonBody (fields : gmap string string).

Record Request := mkRequest {
  Method : string;       (* r.Method *)
  Path : string;         (* r.URL.Path *)
  QueryVideo : string    (* r.URL.Query().Get("video") *)
}.

(** The process state shared by all goroutines: the global [state], a
    [*TranscodeState] (its [mappings], its lock [mu] as [writer] and
    [readers], and the file at its [filePath] as [disk]), the heap of
    [VideoMapping] records the map points to, and what the code does to
    the outside world. *)
Record Shared := mkShared {
  mappings : option (gmap string ptr);   (* [None] is the nil map *)
  heap : list VideoMapping;
  writer : bool;                         (* mu is write-locked *)
  readers : nat;                         (* number of read locks held on mu *)
  disk : DiskFile;
  logs : list LogLine;
  dirs : list string;                    (* arguments of os.MkdirAll so far *)
  goroutines : list (string * string * string)
                                         (* arguments of every [go transcode(...)] so far *)
}.

(** What the environment answers when asked: the result of [os.Stat], of
    [os.WriteFile] (on failure, also what is left of the file) and of
    [cmd.CombinedOutput]. *)
Record Env := mkEnv {
  stat_err : option error;
  write_err : option (error * DiskFile);
  encoder : string * option error
}.

(** ** JSON values and the library parameter *)

#[local] Unset Elimination Schemes.
Inductive json :=
| JNull
| JBool (b : bool)
| JNumber (literal : string)
| JString (s : string)
| JArray (items : list json)
| JObject (members : list (string * json)).
#[local] Set Elimination Schemes.

Class GoLib := {
  (* the text [json.Marshal] emits for a value *)
  json_print : json → string;
  (* the value a text denotes; [None] when the scanner rejects the text *)
  json_parse : string → option json;
  (* the case folding under which a key matches a field name when no
     field has exactly that name *)
  json_foldName : string → string;
  filepath_Join : string → string → string
}.

(** ** [encoding/json] on [map[string]*VideoMapping] *)

(** [json.Marshal]: a struct is an object of its tagged fields in
    declaration order, a nil pointer is [null], a map is an object whose
    keys are sorted, a nil map is [null]. *)
Definition marshal_VideoMapping (v : VideoMapping) : json :=
  JObject [("original_name", JString (OriginalName v));
           ("transcode_dir", JString (TranscodeDir v));
           ("status", JString (Status v))].

Definition marshal_ptr (h : list VideoMapping) (p : ptr) : json :=
  match p with
  | Nil => JNull
  | Ref l =>
      match h !! l with
      | Some v => marshal_VideoMapping v
      | None => JNull      (* not a Go state: no pointer dangles *)
      end
  end.

Definition key_le (a b : string * ptr) : Prop := String.leb a.1 b.1 = true.

#[export] Instance key_le_dec a b : Decision (key_le a b).
Proof. unfold key_le. apply _. Defined.

Definition marshal_mappings (h : list VideoMapping)
    (m : option (gmap string ptr)) : json :=
  match m with
  | None => JNull
  | Some m =>
      JObject (map (λ kp : string * ptr, (kp.1, marshal_ptr h kp.2))
                   (merge_sort key_le (map_to_list m)))
  end.

(** ** Atomic actions *)

Inductive action : Type → Type :=
| ARLock : action unit                       (* state.mu.RLock() *)
| ARUnlock : action unit                     (* state.mu.RUnlock() *)
| ALock : action unit                        (* state.mu.Lock() *)
| AUnlock : action unit                      (* state.mu.Unlock() *)
| AMapIndex (key : string) : action (ptr * bool)
                                             (* mapping, exists := state.mappings[key] *)
| ARead (f : Field) (p : ptr) : action string
                                             (* p.f *)
| AMapStore (key : string) (v : VideoMapping) : action unit
                                             (* state.mappings[key] = &VideoMapping{...} *)
| ASetStatusAt (key : string) (x : string) : action unit
                                             (* state.mappings[key].Status = x *)
| AMarshal : action (string * option error)  (* json.Marshal(s.mappings) *)
| AWriteFile (data : string) : action (option error)
                                             (* os.WriteFile(s.filePath, data, 0644) *)
| AReadFile : action (string * option error) (* os.ReadFile(s.filePath) *)
| AUnmarshal (data : string) : action (option error)
                                             (* json.Unmarshal(data, &s.mappings) *)
| AStat (path : string) : action (option error)
                                             (* _, err := os.Stat(path) *)
| AMkdirAll (path : string) : action unit    (* os.MkdirAll(path, 0755) *)
| ACombinedOutput (name : string) (args : list string)
    : action (string * option error)         (* exec.Command(name, args...).CombinedOutput() *)
| ALog (line : LogLine) : action unit        (* log.Printf *)
| AGo (videoPath outputDir videoName : string) : action unit.
                                             (* go transcode(videoPath, outputDir, videoName) *)

Inductive Panic :=
| NilDereference        (* invalid memory address or nil pointer dereference *)
| NilMapAssignment      (* assignment to entry in nil map *)
| UnlockOfUnlocked.     (* sync: Unlock / RUnlock of unlocked RWMutex *)

Inductive Outcome (X : Type) :=
| Stepped (x : X) (s : Shared)
| Blocked                          (* the goroutine waits for the lock *)
| Panics (why : Panic) (s : Shared).
Arguments Stepped {X} x s.
Arguments Blocked {X}.
Arguments Panics {X} why s.

Definition set_lock (w : bool) (r : nat) (s : Shared) : Shared :=
  mkShared (mappings s) (heap s) w r (disk s) (logs s) (dirs s) (goroutines s).

Definition set_store (m : option (gmap string ptr)) (h : list VideoMapping)
    (s : Shared) : Shared :=
  mkShared m h (writer s) (readers s) (disk s) (logs s) (dirs s) (goroutines s).

Definition set_disk (d : DiskFile) (s : Shared) : Shared :=
  mkShared (mappings s) (heap s) (writer s) (readers s) d (logs s) (dirs s)
           (goroutines s).

Definition add_log (line : LogLine) (s : Shared) : Shared :=
  mkShared (mappings s) (heap s) (writer s) (readers s) (disk s)
           (logs s ++ [line])%list (dirs s) (goroutines s).

Definition add_dir (path : string) (s : Shared) : Shared :=
  mkShared (mappings s) (heap s) (writer s) (readers s) (disk s) (logs s)
           (dirs s ++ [path])%list (goroutines s).

Definition add_goroutine (g : string * string * string) (s : Shared) : Shared :=
  mkShared (mappings s) (heap s) (writer s) (readers s) (disk s) (logs s)
           (dirs s) (goroutines s ++ [g])%list.

(** Indexing a map, nil or not, with a key it lacks gives the zero value,
    here the nil pointer. *)
Definition map_index (m : option (gmap string ptr)) (key : string) : ptr * bool :=
  match m with
  | None => (Nil, false)
  | Some m =>
      match m !! key with
      | Some p => (p, true)
      | None => (Nil, false)
      end
  end.

#[global] Arguments map_index : simpl never.

(** ** Programs *)

Inductive Prog (R : Type) : Type :=
| Ret (r : R)
| Act {X : Type} (a : action X) (k : X → Prog R).
Arguments Ret {R} r.
Arguments Act {R X} a k.

Fixpoint bind {A B : Type} (p : Prog A) (f : A → Prog B) : Prog B :=
  match p with
  | Ret a => f a
  | Act a k => Act a (λ x, bind (k x) f)
  end.

#[export] Instance Prog_ret : MRet Prog := @Ret.
#[export] Instance Prog_bind : MBind Prog := λ A B f p, bind p f.

Definition call {X : Type} (a : action X) : Prog X := Act a Ret.

(** The end of a program run alone. *)
Inductive Result (R : Type) :=
| Returned (r : R) (s : Shared)
| Deadlock
| Panicked (why : Panic) (s : Shared).
Arguments Returned {R} r s.
Arguments Deadlock {R}.
Arguments Panicked {R} why s.

Section WithGoLib.
Context `{GoLib}.

(** The struct field a key of a JSON object is stored in: the field of
    exactly that name, else a field whose name equals it after folding. *)
Definition field_of_key (key : string) : option Field :=
  if key =? "original_name" then Some FOriginalName
  else if key =? "transcode_dir" then Some FTranscodeDir
  else if key =? "status" then Some FStatus
  else if json_foldName key =? json_foldName "original_name" then Some FOriginalName
  else if json_foldName key =? json_foldName "transcode_dir" then Some FTranscodeDir
  else if json_foldName key =? json_foldName "status" then Some FStatus
  else None.

(** One member of a JSON object decoded into a struct.  A string is
    stored, [null] leaves a string field as it is, any other value is a
    type error that is remembered while decoding goes on, and a key that
    names no field is skipped.  The boolean is "a type error occurred". *)
Definition decode_field (acc : VideoMapping * bool) (km : string * json)
    : VideoMapping * bool :=
  match field_of_key km.1 with
  | None => acc
  | Some f =>
      match km.2 with
      | JString x => (set_field f x acc.1, acc.2)
      | JNull => acc
      | _ => (acc.1, true)
      end
  end.

(** A JSON value decoded into a fresh map element of type [*VideoMapping]:
    [null] is the nil pointer; for anything else a zero struct is
    allocated, which an object then fills. *)
Definition decode_elem (j : json) : option VideoMapping * bool :=
  match j with
  | JNull => (None, false)
  | JObject members =>
      let r := fold_left decode_field members (zero_VideoMapping, false) in
      (Some r.1, r.2)
  | _ => (Some zero_VideoMapping, true)
  end.

Definition decode_member (acc : gmap string ptr * list VideoMapping * bool)
    (km : string * json) : gmap string ptr * list VideoMapping * bool :=
  let '(m, h, e) := acc in
  match decode_elem km.2 with
  | (None, e') => (<[km.1 := Nil]> m, h, e || e')
  | (Some v, e') => (<[km.1 := Ref (length h)]> m, (h ++ [v])%list, e || e')
  end.

(** [json.Unmarshal(data, &s.mappings)] once the text is accepted: [null]
    sets the map to nil; an object is decoded member by member into the
    existing map (a nil map is made first), entries of other keys stay;
    any other value is a type error and the map is left alone. *)
Definition unmarshal_value (j : json) (m : option (gmap string ptr))
    (h : list VideoMapping) : option (gmap string ptr) * list VideoMapping * bool :=
  match j with
  | JNull => (None, h, false)
  | JObject members =>
      let '(m', h', e) := fold_left decode_member members (default ∅ m, h, false) in
      (Some m', h', e)
  | _ => (m, h, true)
  end.

Definition exec (e : Env) {X : Type} (a : action X) (s : Shared) : Outcome X :=
  match a in action X return Outcome X with
  | ARLock =>
      if writer s then Blocked else Stepped () (set_lock false (S (readers s)) s)
  | ARUnlock =>
      match readers s with
      | O => Panics UnlockOfUnlocked s
      | S n => Stepped () (set_lock (writer s) n s)
      end
  | ALock =>
      if writer s then Blocked
      else match readers s with
           | O => Stepped () (set_lock true 0 s)
           | S _ => Blocked
           end
  | AUnlock =>
      if writer s then Stepped () (set_lock false (readers s) s)
      else Panics UnlockOfUnlocked s
  | AMapIndex key => Stepped (map_index (mappings s) key) s
  | ARead f p =>
      match p with
      | Nil => Panics NilDereference s
      | Ref l =>
          match heap s !! l with
          | Some v => Stepped (get_field f v) s
          | None => Panics NilDereference s
          end
      end
  | AMapStore key v =>
      match mappings s with
      | None => Panics NilMapAssignment s
      | Some m =>
          Stepped () (set_store (Some (<[key := Ref (length (heap s))]> m))
                                (heap s ++ [v])%list s)
      end
  | ASetStatusAt key x =>
      match (map_index (mappings s) key).1 with
      | Nil => Panics NilDereference s
      | Ref l =>
          match heap s !! l with
          | Some v =>
              Stepped () (set_store (mappings s)
                                    (<[l := set_field FStatus x v]> (heap s)) s)
          | None => Panics NilDereference s
          end
      end
  | AMarshal =>
      Stepped (json_print (marshal_mappings (heap s) (mappings s)), None) s
  | AWriteFile data =>
      match write_err e with
      | None => Stepped None (set_disk (File data) s)
      | Some (err, remains) => Stepped (Some err) (set_disk remains s)
      end
  | AReadFile =>
      match disk s with
      | NoFile => Stepped ("", Some ErrNotExist) s
      | Unreadable err => Stepped ("", Some err) s
      | File data => Stepped (data, None) s
      end
  | AUnmarshal data =>
      match json_parse data with
      | None => Stepped (Some SyntaxError) s
      | Some j =>
          let '(m, h, e) := unmarshal_value j (mappings s) (heap s) in
          Stepped (if e then Some UnmarshalTypeError else None) (set_store m h s)
      end
  | AStat path => Stepped (stat_err e) s
  | AMkdirAll path => Stepped () (add_dir path s)
  | ACombinedOutput name args => Stepped (encoder e) s
  | ALog line => Stepped () (add_log line s)
  | AGo videoPath outputDir videoName =>
      Stepped () (add_goroutine (videoPath, outputDir, videoName) s)
  end.

(** A program run alone: no other goroutine takes a step in between. *)
Fixpoint run {R : Type} (e : Env) (p : Prog R) (s : Shared) : Result R :=
  match p with
  | Ret r => Returned r s
  | Act a k =>
      match exec e a s with
      | Stepped x s' => run e (k x) s'
      | Blocked => Deadlock
      | Panics why s' => Panicked why s'
      end
  end.

(** ** The functions of [main.go] *)

(** [func (s *TranscodeState) save() error] *)
Definition save : Prog (option error) :=
  '(data, err) ← call AMarshal;
  match err with
  | Some _ => Ret err
  | None => call (AWriteFile data)
  end.

(** [func (s *TranscodeState) load() error]; the unlock is deferred. *)
Definition load : Prog (option error) :=
  call ALock;;
  '(data, err) ← call AReadFile;
  res ← match err with
        | Some _ =>
            if os_IsNotExist err
            then Ret None                     (* No file yet, that's okay *)
            else Ret err
        | None => call (AUnmarshal data)
        end;
  call AUnlock;;
  Ret res.

Definition ffmpeg_args (videoPath outputDir : string) : list string :=
  ["-i"; videoPath;
   "-filter:v:0"; "scale=w=854:h=480"; "-c:v:0"; "libx264"; "-b:v:0"; "300k"; "-g"; "60";
   "-filter:v:1"; "scale=w=1280:h=720"; "-c:v:1"; "libx264"; "-b:v:1"; "1500k"; "-g"; "60";
   "-filter:v:2"; "scale=w=1920:h=1080"; "-c:v:2"; "libx264"; "-b:v:2"; "3000k"; "-g"; "60";
   "-map"; "0:v"; "-map"; "0:a"; "-map"; "0:v"; "-map"; "0:a"; "-map"; "0:v"; "-map"; "0:a";
   "-c:a:0"; "aac"; "-b:a:0"; "64k";
   "-c:a:1"; "aac"; "-b:a:1"; "96k";
   "-c:a:2"; "aac"; "-b:a:2"; "128k";
   "-f"; "hls";
   "-hls_time"; "5";
   "-hls_list_size"; "0";
   "-hls_flags"; "independent_segments";
   "-var_stream_map"; "v:0,a:0 v:1,a:1 v:2,a:2";
   "-master_pl_name"; "master.m3u8";
   "-hls_segment_filename"; filepath_Join outputDir "stream_%v/chunk%05d.ts";
   filepath_Join outputDir "stream_%v/stream.m3u8"].

(** [func transcode(videoPath, outputDir, videoName string)]; the result of
    [save] is dropped.  The deferred [Unlock] is written where it runs when
    the function returns, as its last action.  It would run as well if the
    status write panicked, before the process ends; here a program stops
    at a panic with the lock as it was.  No job of a server comes to that
    panic. *)
Definition transcode (videoPath outputDir videoName : string) : Prog unit :=
  call (ALog (LogStart videoName));;
  '(output, err) ← call (ACombinedOutput "ffmpeg" (ffmpeg_args videoPath outputDir));
  call ALock;;
  match err with
  | Some e =>
      call (ALog (LogFailed videoName e output));;
      call (ASetStatusAt videoName "failed")
  | None =>
      call (ALog (LogCompleted videoName));;
      call (ASetStatusAt videoName "completed")
  end;;
  save;;
  call AUnlock.

(** [func handleTranscode(w http.ResponseWriter, r *http.Request)] *)
Definition handleTranscode (r : Request) : Prog Response :=
  if negb (Method r =? "POST") then Ret (HttpError 405 "Method not allowed") else
  let videoName := QueryVideo r in
  if videoName =? "" then Ret (HttpError 400 "Missing 'video' parameter") else
  (* Check if video exists *)
  let videoPath := filepath_Join "videos" videoName in
  err ← call (AStat videoPath);
  if os_IsNotExist err then Ret (HttpError 404 "Video not found") else
  (* Check if already transcoded *)
  call ARLock;;
  '(mapping, exists_) ← call (AMapIndex videoName);
  call ARUnlock;;
  completed ← (if exists_ : bool
               then st ← call (ARead FStatus mapping); Ret (st =? "completed")
               else Ret false);
  if completed : bool then
    d1 ← call (ARead FTranscodeDir mapping);
    d2 ← call (ARead FTranscodeDir mapping);
    Ret (JsonBody (<["message" := "Video already transcoded"]>
                  (<["transcode_dir" := d1]>
                  (<["stream_url" := stream_url d2]> ∅))))
  else
  processing ← (if exists_ : bool
                then st ← call (ARead FStatus mapping); Ret (st =? "processing")
                else Ret false);
  if processing : bool then
    Ret (JsonBody (<["message" := "Video is currently being transcoded"]>
                  (<["status" := "processing"]> ∅)))
  else
  (* Create transcode directory *)
  let transcodeDir := strings_TrimSuffix videoName (filepath_Ext videoName) in
  let transcodeFullPath := filepath_Join "transcoded" transcodeDir in
  call (AMkdirAll transcodeFullPath);;
  (* Create mapping *)
  call ALock;;
  call (AMapStore videoName (mkVideoMapping videoName transcodeDir "processing"));;
  save;;
  call AUnlock;;
  (* Start transcoding in background *)
  call (AGo videoPath transcodeFullPath videoName);;
  Ret (JsonBody (<["message" := "Transcoding started"]>
                (<["transcode_dir" := transcodeDir]>
                (<["status" := "processing"]> ∅)))).

(** [func handleStatus(w http.ResponseWriter, r *http.Request)] *)
Definition handleStatus (r : Request) : Prog Response :=
  let videoName := strings_TrimPrefix (Path r) "/api/status/" in
  if videoName =? "" then Ret (HttpError 400 "Missing video name") else
  call ARLock;;
  '(mapping, exists_) ← call (AMapIndex videoName);
  call ARUnlock;;
  if negb exists_ then Ret (HttpError 404 "Video not found") else
  video ← call (ARead FOriginalName mapping);
  dir ← call (ARead FTranscodeDir mapping);
  status ← call (ARead FStatus mapping);
  let response : gmap string string :=
    <["video" := video]> (<["transcode_dir" := dir]> (<["status" := status]> ∅)) in
  status' ← call (ARead FStatus mapping);
  if status' =? "completed" then
    dir' ← call (ARead FTranscodeDir mapping);
    Ret (JsonBody (<["stream_url" := stream_url dir']> response))
  else Ret (JsonBody response).

(** The state [main] builds before it loads: an empty, non-nil map. *)
Definition initial_state (d : DiskFile) : Shared :=
  mkShared (Some ∅) [] false 0 d [] [] [].

(** [func main()] up to the point where the server starts to listen. *)
Definition main_startup : Prog unit :=
  (* Load existing mappings *)
  err ← load;
  match err with
  | Some e => call (ALog (LogWarnLoad e))
  | None => Ret ()
  end;;
  (* Ensure directories exist *)
  call (AMkdirAll "videos");;
  call (AMkdirAll "transcoded").

(** ** Goroutines *)

(** A goroutine serves one request, or runs one [transcode].  A handler
    that panics is recovered by [net/http] and ends; a panic in a
    [transcode] goroutine ends the process. *)
Inductive Thread :=
| Handler (p : Prog Response)
| Runner (videoName : string) (p : Prog unit)
| Recovered.

Record World := mkWorld {
  shared : Shared;
  threads : list Thread;
  crashed : bool
}.

Definition spawned {X : Type} (a : action X) : list Thread :=
  match a with
  | AGo videoPath outputDir videoName =>
      [Runner videoName (transcode videoPath outputDir videoName)]
  | _ => []
  end.

Inductive Event :=
| Submit (r : Request)           (* a request for /api/transcode arrives *)
| Query (r : Request)            (* a request for /api/status/ arrives *)
| Step (tid : nat) (e : Env).    (* goroutine [tid] executes its next action *)

(** One event.  [None]: the event cannot happen (the goroutine is
    blocked, has ended or does not exist, or the process is down). *)
Definition pool_step (ev : Event) (w : World) : option World :=
  if crashed w then None else
  match ev with
  | Submit r =>
      Some (mkWorld (shared w) (threads w ++ [Handler (handleTranscode r)])%list false)
  | Query r =>
      Some (mkWorld (shared w) (threads w ++ [Handler (handleStatus r)])%list false)
  | Step tid e =>
      match threads w !! tid with
      | Some (Handler (Act a k)) =>
          match exec e a (shared w) with
          | Stepped x s' =>
              Some (mkWorld s' (<[tid := Handler (k x)]> (threads w) ++ spawned a)%list false)
          | Blocked => None
          | Panics _ s' => Some (mkWorld s' (<[tid := Recovered]> (threads w)) false)
          end
      | Some (Runner v (Act a k)) =>
          match exec e a (shared w) with
          | Stepped x s' =>
              Some (mkWorld s' (<[tid := Runner v (k x)]> (threads w) ++ spawned a)%list false)
          | Blocked => None
          | Panics _ s' => Some (mkWorld s' (threads w) true)
          end
      | _ => None
      end
  end.

Fixpoint schedule (evs : list Event) (w : World) : option World :=
  match evs with
  | [] => Some w
  | ev :: more =>
      match pool_step ev w with
      | Some w' => schedule more w'
      | None => None
      end
  end.

End WithGoLib.

(** ** A reference library instance

    Compact JSON text with sorted members left to the caller, the escapes
    of the quote and the backslash, and a reader for JSON text without
    [\u] escapes; [filepath.Join] of clean relative paths.  It fixes the
    library parameter wherever a concrete file or run is shown. *)

Module RefLib.

Definition dquote : ascii := ascii_of_nat 34.
Definition backslash : ascii := ascii_of_nat 92.

Fixpoint escape (cs : list ascii) : list ascii :=
  match cs with
  | [] => []
  | c :: more =>
      if Ascii.eqb c dquote then backslash :: dquote :: escape more
      else if Ascii.eqb c backslash then backslash :: backslash :: escape more
      else c :: escape more
  end.

Definition quote (x : string) : string :=
  string_of_list_ascii (dquote :: escape (list_ascii_of_string x) ++ [dquote])%list.

Fixpoint print (j : json) : string :=
  match j with
  | JNull => "null"
  | JBool true => "true"
  | JBool false => "false"
  | JNumber literal => literal
  | JString x => quote x
  | JArray items =>
      "[" ++ (fix all (l : list json) : string :=
                match l with
                | [] => ""
                | [x] => print x
                | x :: more => print x ++ "," ++ all more
                end) items ++ "]"
  | JObject members =>
      "{" ++ (fix all (l : list (string * json)) : string :=
                match l with
                | [] => ""
                | [(k, x)] => quote k ++ ":" ++ print x
                | (k, x) :: more => quote k ++ ":" ++ print x ++ "," ++ all more
                end) members ++ "}"
  end.

Definition is_ws (c : ascii) : bool :=
  Ascii.eqb c " " || Ascii.eqb c (ascii_of_nat 9) ||
  Ascii.eqb c (ascii_of_nat 10) || Ascii.eqb c (ascii_of_nat 13).

Fixpoint skip_ws (cs : list ascii) : list ascii :=
  match cs with
  | c :: more => if is_ws c then skip_ws more else cs
  | [] => []
  end.

Definition unescape (c : ascii) : option ascii :=
  if Ascii.eqb c dquote then Some dquote
  else if Ascii.eqb c backslash then Some backslash
  else if Ascii.eqb c "/" then Some "/"%char
  else if Ascii.eqb c "n" then Some (ascii_of_nat 10)
  else if Ascii.eqb c "r" then Some (ascii_of_nat 13)
  else if Ascii.eqb c "t" then Some (ascii_of_nat 9)
  else if Ascii.eqb c "b" then Some (ascii_of_nat 8)
  else if Ascii.eqb c "f" then Some (ascii_of_nat 12)
  else None.

(** The rest of a string literal after its opening quote. *)
Fixpoint read_chars (cs acc : list ascii) : option (string * list ascii) :=
  match cs with
  | [] => None
  | c :: more =>
      if Ascii.eqb c dquote then Some (string_of_list_ascii (rev acc), more)
      else if Ascii.eqb c backslash then
        match more with
        | x :: more' =>
            match unescape x with
            | Some y => read_chars more' (y :: acc)
            | None => None
            end
        | [] => None
        end
      else if Nat.ltb (nat_of_ascii c) 32 then None
      else read_chars more (c :: acc)
  end.

Fixpoint strip (word cs : list ascii) : option (list ascii) :=
  match word, cs with
  | [], _ => Some cs
  | w :: word', c :: more => if Ascii.eqb w c then strip word' more else None
  | _ :: _, [] => None
  end.

Definition is_num (c : ascii) : bool :=
  let n := nat_of_ascii c in
  (Nat.leb 48 n && Nat.leb n 57) || Ascii.eqb c "-" || Ascii.eqb c "+" ||
  Ascii.eqb c "." || Ascii.eqb c "e" || Ascii.eqb c "E".

Fixpoint read_num (cs acc : list ascii) : list ascii * list ascii :=
  match cs with
  | c :: more => if is_num c then read_num more (c :: acc) else (rev acc, cs)
  | [] => (rev acc, [])
  end.

Fixpoint read_value (fuel : nat) (cs : list ascii) : option (json * list ascii) :=
  match fuel with
  | O => None
  | S fuel =>
      match skip_ws cs with
      | [] => None
      | c :: more =>
          if Ascii.eqb c "n" then
            r ← strip (list_ascii_of_string "ull") more; Some (JNull, r)
          else if Ascii.eqb c "t" then
            r ← strip (list_ascii_of_string "rue") more; Some (JBool true, r)
          else if Ascii.eqb c "f" then
            r ← strip (list_ascii_of_string "alse") more; Some (JBool false, r)
          else if Ascii.eqb c dquote then
            '(x, r) ← read_chars more []; Some (JString x, r)
          else if Ascii.eqb c "[" then
            match skip_ws more with
            | c' :: more' =>
                if Ascii.eqb c' "]" then Some (JArray [], more')
                else '(l, r) ← read_items fuel more; Some (JArray l, r)
            | [] => None
            end
          else if Ascii.eqb c "{" then
            match skip_ws more with
            | c' :: more' =>
                if Ascii.eqb c' "}" then Some (JObject [], more')
                else '(l, r) ← read_members fuel more; Some (JObject l, r)
            | [] => None
            end
          else
            match read_num (c :: more) [] with
            | ([], _) => None
            | (digits, r) => Some (JNumber (string_of_list_ascii digits), r)
            end
      end
  end
with read_items (fuel : nat) (cs : list ascii) : option (list json * list ascii) :=
  match fuel with
  | O => None
  | S fuel =>
      '(j, r) ← read_value fuel cs;
      match skip_ws r with
      | c :: more =>
          if Ascii.eqb c "," then
            '(l, r') ← read_items fuel more; Some (j :: l, r')
          else if Ascii.eqb c "]" then Some ([j], more)
          else None
      | [] => None
      end
  end
with read_members (fuel : nat) (cs : list ascii)
    : option (list (string * json) * list ascii) :=
  match fuel with
  | O => None
  | S fuel =>
      match skip_ws cs with
      | q :: more =>
          if Ascii.eqb q dquote then
            '(k, r) ← read_chars more [];
            match skip_ws r with
            | c :: more' =>
                if Ascii.eqb c ":" then
                  '(j, r') ← read_value fuel more';
                  match skip_ws r' with
                  | c' :: more'' =>
                      if Ascii.eqb c' "," then
                        '(l, r'') ← read_members fuel more''; Some ((k, j) :: l, r'')
                      else if Ascii.eqb c' "}" then Some ([(k, j)], more'')
                      else None
                  | [] => None
                  end
                else None
            | [] => None
            end
          else None
      | [] => None
      end
  end.

Definition parse (text : string) : option json :=
  let cs := list_ascii_of_string text in
  match read_value (S (length cs)) cs with
  | Some (j, r) =>
      match skip_ws r with
      | [] => Some j
      | _ :: _ => None
      end
  | None => None
  end.

Definition upper (c : ascii) : ascii :=
  let n := nat_of_ascii c in
  if Nat.leb 97 n && Nat.leb n 122 then ascii_of_nat (n - 32) else c.

Definition foldName (x : string) : string :=
  string_of_list_ascii (map upper (list_ascii_of_string x)).

Definition lib : GoLib :=
  {| json_print := print;
     json_parse := parse;
     json_foldName := foldName;
     filepath_Join := λ a b, a ++ "/" ++ b |}.

End RefLib.

(** ** The CORS wrapper *)

(** An [http.ResponseWriter] as a handler leaves it: the header map and the
    status code, if one was written. *)
Record ResponseWriter := mkWriter {
  header : gmap string (list string);
  code : option nat
}.

(** [w.Header().Set(key, value)] *)
Definition Header_Set (key value : string) (w : ResponseWriter) : ResponseWriter :=
  mkWriter (<[key := [value]]> (header w)) (code w).

(** [w.WriteHeader(c)]: a second call changes nothing. *)
Definition WriteHeader (c : nat) (w : ResponseWriter) : ResponseWriter :=
  match code w with
  | None => mkWriter (header w) (Some c)
  | Some _ => w
  end.

(** [func corsHandler(next http.Handler) http.Handler] of [main.go]; the
    wrapped handler is any function of the writer and the request. *)
Definition corsHandler (next : ResponseWriter → Request → ResponseWriter)
    (w : ResponseWriter) (r : Request) : ResponseWriter :=
  let w := Header_Set "Access-Control-Allow-Origin" "*" w in
  let w := Header_Set "Access-Control-Allow-Methods" "GET,HEAD,OPTIONS,POST" w in
  let w := Header_Set "Access-Control-Allow-Headers"
             "Range, Accept, Origin, X-Requested-With, Content-Type" w in
  let w := Header_Set "Access-Control-Expose-Headers"
             "Content-Length, Content-Range" w in
  let ext := filepath_Ext (Path r) in
  let w := if ext =? ".m3u8" then Header_Set "Content-Type" "application/vnd.apple.mpegurl" w
           else if ext =? ".ts" then Header_Set "Content-Type" "video/mp2t" w
           else w in
  if Method r =? "OPTIONS" then WriteHeader 204 w
  else next w r.

(** The [corsHandler] of the static file server (the second [package main]
    of the repository): no POST among the allowed methods. *)
Definition corsHandler_static (next : ResponseWriter → Request → ResponseWriter)
    (w : ResponseWriter) (r : Request) : ResponseWriter :=
  (* Required for HLS playback *)
  let w := Header_Set "Access-Control-Allow-Origin" "*" w in
  let w := Header_Set "Access-Control-Allow-Methods" "GET,HEAD,OPTIONS" w in
  let w := Header_Set "Access-Control-Allow-Headers"
             "Range, Accept, Origin, X-Requested-With, Content-Type" w in
  let w := Header_Set "Access-Control-Expose-Headers"
             "Content-Length, Content-Range" w in
  (* Proper HLS MIME types *)
  let ext := filepath_Ext (Path r) in
  let w := if ext =? ".m3u8" then Header_Set "Content-Type" "application/vnd.apple.mpegurl" w
           else if ext =? ".ts" then Header_Set "Content-Type" "video/mp2t" w
           else w in
  (* Preflight OPTIONS request *)
  if Method r =? "OPTIONS" then WriteHeader 204 w
  else next w r.

(** ** The listing handler *)

(** An [os.DirEntry], as far as the handler looks at it. *)
Record DirEntry := mkDirEntry {
  entry_Name : string;
  entry_IsDir : bool
}.

(** The local [type VideoInfo struct] of [handleGetVideos]. *)
Record VideoInfo := mkVideoInfo {
  info_Name : string;           (* json:"name" *)
  info_Transcoded : bool;       (* json:"transcoded" *)
  info_Status : string;         (* json:"status,omitempty" *)
  info_StreamURL : string;      (* json:"stream_url,omitempty" *)
  info_TranscodeDir : string    (* json:"transcode_dir,omitempty" *)
}.

(** [log.Println(info)] and [log.Println(videos)] *)
Inductive ListingLine :=
| PrintInfo (info : VideoInfo)
| PrintVideos (videos : list VideoInfo).

Inductive ListingResponse :=
| ListingError (code : nat) (msg : string)
| ListingJson (body : json).

(** [strings.ToLower] follows Unicode; it is a parameter as well. *)
Class GoUnicode := {
  strings_ToLower : string → string
}.

(** [json.Marshal] of a [VideoInfo]: the fields in declaration order, the
    three tagged omitempty left out when they are the empty string. *)
Definition omitempty (key value : string) : list (string * json) :=
  if value =? "" then [] else [(key, JString value)].

Definition marshal_VideoInfo (info : VideoInfo) : json :=
  JObject ([("name", JString (info_Name info));
            ("transcoded", JBool (info_Transcoded info))] ++
           omitempty "status" (info_Status info) ++
           omitempty "stream_url" (info_StreamURL info) ++
           omitempty "transcode_dir" (info_TranscodeDir info))%list.

(** [json.Marshal] of the slice [videos]: a slice that was never appended
    to is nil, and a nil slice is [null]. *)
Definition marshal_videos (videos : list VideoInfo) : json :=
  match videos with
  | [] => JNull
  | _ :: _ => JArray (map marshal_VideoInfo videos)
  end.

(** The actions of the listing handler: those on the shared state, the
    reading of the directory, and its own log lines. *)
Inductive listing_action : Type → Type :=
| LShared {X : Type} (a : action X) : listing_action X
| LReadDir (path : string) : listing_action (list DirEntry * option error)
                                             (* os.ReadDir(path) *)
| LPrintln (line : ListingLine) : listing_action unit.
                                             (* log.Println *)

Record ListingState := mkListingState {
  shared_of : Shared;
  printed : list ListingLine
}.

Record ListingEnv := mkListingEnv {
  env : Env;
  readdir : list DirEntry * option error
}.

Inductive ListingOutcome (X : Type) :=
| LStepped (x : X) (st : ListingState)
| LBlocked
| LPanics (why : Panic) (st : ListingState).
Arguments LStepped {X} x st.
Arguments LBlocked {X}.
Arguments LPanics {X} why st.

(** A program with deferred calls: [LDefer c k] is [defer c] followed by
    [k]; the deferred calls run, last first, when the function returns or
    panics. *)
Inductive LProg (R : Type) : Type :=
| LRet (r : R)
| LAct {X : Type} (a : listing_action X) (k : X → LProg R)
| LDefer (cleanup : listing_action unit) (k : LProg R).
Arguments LRet {R} r.
Arguments LAct {R X} a k.
Arguments LDefer {R} cleanup k.

Fixpoint lbind {A B : Type} (p : LProg A) (f : A → LProg B) : LProg B :=
  match p with
  | LRet a => f a
  | LAct a k => LAct a (λ x, lbind (k x) f)
  | LDefer c k => LDefer c (lbind k f)
  end.

#[export] Instance LProg_ret : MRet LProg := @LRet.
#[export] Instance LProg_bind : MBind LProg := λ A B f p, lbind p f.

Definition lcall {X : Type} (a : listing_action X) : LProg X := LAct a LRet.

Inductive ListingResult (R : Type) :=
| LReturned (r : R) (st : ListingState)
| LDeadlock
| LPanicked (why : Panic) (st : ListingState).
Arguments LReturned {R} r st.
Arguments LDeadlock {R}.
Arguments LPanicked {R} why st.

Section Listing.
Context `{GoLib} `{GoUnicode}.

Definition lexec (e : ListingEnv) {X : Type} (a : listing_action X)
    (st : ListingState) : ListingOutcome X :=
  match a in listing_action X return ListingOutcome X with
  | LShared a =>
      match exec (env e) a (shared_of st) with
      | Stepped x s' => LStepped x (mkListingState s' (printed st))
      | Blocked => LBlocked
      | Panics why s' => LPanics why (mkListingState s' (printed st))
      end
  | LReadDir path => LStepped (readdir e) st
  | LPrintln line => LStepped () (mkListingState (shared_of st) (printed st ++ [line])%list)
  end.

(** The deferred calls of a function that returns or panics, last first.
    [None]: one of them blocks. *)
Fixpoint unwind (e : ListingEnv) (deferred : list (listing_action unit))
    (st : ListingState) : option (option Panic * ListingState) :=
  match deferred with
  | [] => Some (None, st)
  | c :: more =>
      match lexec e c st with
      | LStepped _ st' => unwind e more st'
      | LBlocked => None
      | LPanics why st' =>
          match unwind e more st' with
          | Some (_, st'') => Some (Some why, st'')
          | None => None
          end
      end
  end.

(** A listing run alone. *)
Fixpoint lrun {R : Type} (e : ListingEnv) (p : LProg R) (st : ListingState)
    (deferred : list (listing_action unit)) : ListingResult R :=
  match p with
  | LRet r =>
      match unwind e deferred st with
      | Some (None, st') => LReturned r st'
      | Some (Some why, st') => LPanicked why st'
      | None => LDeadlock
      end
  | LAct a k =>
      match lexec e a st with
      | LStepped x st' => lrun e (k x) st' deferred
      | LBlocked => LDeadlock
      | LPanics why st' =>
          match unwind e deferred st' with
          | Some (_, st'') => LPanicked why st''
          | None => LDeadlock
          end
      end
  | LDefer c k => lrun e k st (c :: deferred)
  end.

(** The body of the [for _, entry := range entries] loop of
    [handleGetVideos], with the slice [videos] built so far. *)
Fixpoint list_entries (entries : list DirEntry) (videos : list VideoInfo)
    : LProg (list VideoInfo) :=
  match entries with
  | [] => LRet videos
  | entry :: rest =>
      if entry_IsDir entry then list_entries rest videos else
      let name := entry_Name entry in
      (* Skip non-video files *)
      let ext := strings_ToLower (filepath_Ext name) in
      if negb (ext =? ".mp4") && negb (ext =? ".mkv") && negb (ext =? ".avi") &&
         negb (ext =? ".mov") && negb (ext =? ".webm")
      then list_entries rest videos else
      '(mapping, exists_) ← lcall (LShared (AMapIndex name));
      info ← (if exists_ : bool then
                st1 ← lcall (LShared (ARead FStatus mapping));
                st2 ← lcall (LShared (ARead FStatus mapping));
                dir ← lcall (LShared (ARead FTranscodeDir mapping));
                st3 ← lcall (LShared (ARead FStatus mapping));
                if st3 =? "completed" then
                  dir' ← lcall (LShared (ARead FTranscodeDir mapping));
                  LRet (mkVideoInfo name (st1 =? "completed") st2 (stream_url dir') dir)
                else LRet (mkVideoInfo name (st1 =? "completed") st2 "" dir)
              else LRet (mkVideoInfo name false "" "" ""));
      lcall (LPrintln (PrintInfo info));;
      list_entries rest (videos ++ [info])%list
  end.

(** [func handleGetVideos(w http.ResponseWriter, r *http.Request)] *)
Definition handleGetVideos (r : Request) : LProg ListingResponse :=
  if negb (Method r =? "GET") then LRet (ListingError 405 "Method not allowed") else
  (* Get all videos from the videos folder *)
  '(entries, err) ← lcall (LReadDir "./videos");
  match err with
  | Some _ => LRet (ListingError 500 "Could not read videos directory")
  | None =>
      lcall (LShared ARLock);;
      LDefer (LShared ARUnlock)
        (videos ← list_entries entries [];
         lcall (LPrintln (PrintVideos videos));;
         LRet (ListingJson (marshal_videos videos)))
  end.

End Listing.

(** A reference instance of [strings.ToLower], for names in ASCII. *)
Module RefUnicode.

Definition lower (c : ascii) : ascii :=
  let n := nat_of_ascii c in
  if Nat.leb 65 n && Nat.leb n 90 then ascii_of_nat (n + 32) else c.

Definition ToLower (x : string) : string :=
  string_of_list_ascii (map lower (list_ascii_of_string x)).

Definition unicode : GoUnicode := {| strings_ToLower := ToLower |}.

End RefUnicode.

(** * Part II: the vocabulary of the statements *)

Section Vocabulary.
Context `{GoLib}.

(** ** Views of the registry *)

(** The record the registry holds for a key, when the key is present and
    its pointer is the address of a record. *)
Definition record_at (s : Shared) (key : string) : option VideoMapping :=
  m ← mappings s;
  p ← m !! key;
  match p with
  | Ref l => heap s !! l
  | Nil => None
  end.

(** The key is in the map (whatever it points to). *)
Definition has_key (s : Shared) (key : string) : Prop :=
  ∃ m p, mappings s = Some m ∧ m !! key = Some p.

(** Nobody holds the lock. *)
Definition unlocked (s : Shared) : Prop := writer s = false ∧ readers s = 0.

(** [strings.TrimSuffix(videoName, filepath.Ext(videoName))] *)
Definition stem (videoName : string) : string :=
  strings_TrimSuffix videoName (filepath_Ext videoName).

(** The record a pointer leads to. *)
Definition deref (h : list VideoMapping) (p : ptr) : option VideoMapping :=
  match p with
  | Nil => None
  | Ref l => h !! l
  end.

(** What the registry holds under a key: nothing, a nil pointer, or a
    record. *)
Definition entry_at (s : Shared) (key : string) : option (option VideoMapping) :=
  m ← mappings s;
  p ← m !! key;
  Some (deref (heap s) p).

(** Same keys, and under each key the same three field values. *)
Definition registry_equiv (s t : Shared) : Prop :=
  ∀ key, entry_at s key = entry_at t key.

(** The key is bound to the address of a record. *)
Definition live_key (s : Shared) (key : string) : Prop :=
  is_Some (record_at s key).

(** The data model: a record carries the name it is stored under, and
    its directory is the stem of that name. *)
Definition derived (s : Shared) : Prop :=
  ∀ m key l, mappings s = Some m → m !! key = Some (Ref l) →
    ∃ rec, heap s !! l = Some rec ∧
           OriginalName rec = key ∧ TranscodeDir rec = stem key.

(** ** Programs *)

(** Every action a program can come to perform satisfies [P]. *)
Fixpoint all_actions (P : ∀ X, action X → Prop) {R : Type} (p : Prog R) : Prop :=
  match p with
  | Ret _ => True
  | Act a k => P _ a ∧ ∀ x, all_actions P (k x)
  end.

(** ** The submission handler *)

(** The state [handleTranscode] leaves when it accepts a submission of
    [v]: a fresh record in the heap, the key bound to it, the directory
    made, the file written (or whatever a failed write leaves), the lock
    released, one goroutine started. *)
Definition accepted (e : Env) (v : string) (m : gmap string ptr) (s : Shared)
    : Shared :=
  let m' := <[v := Ref (length (heap s))]> m in
  let h' := (heap s ++ [mkVideoMapping v (stem v) "processing"])%list in
  mkShared (Some m') h' false 0
    match write_err e with
    | None => File (json_print (marshal_mappings h' (Some m')))
    | Some (_, remains) => remains
    end
    (logs s)
    (dirs s ++ [filepath_Join "transcoded" (stem v)])%list
    (goroutines s ++
       [(filepath_Join "videos" v, filepath_Join "transcoded" (stem v), v)])%list.

Definition started_body (v : string) : gmap string string :=
  <["message" := "Transcoding started"]>
  (<["transcode_dir" := stem v]>
  (<["status" := "processing"]> ∅)).

Definition already_body (rec : VideoMapping) : gmap string string :=
  <["message" := "Video already transcoded"]>
  (<["transcode_dir" := TranscodeDir rec]>
  (<["stream_url" := stream_url (TranscodeDir rec)]> ∅)).

Definition running_body : gmap string string :=
  <["message" := "Video is currently being transcoded"]>
  (<["status" := "processing"]> ∅).

(** The environment that differs only in that [os.Stat] succeeds. *)
Definition with_stat_ok (e : Env) : Env := mkEnv None (write_err e) (encoder e).

(** ** The status handler *)

(** The object [handleStatus] encodes for a record. *)
Definition status_body (rec : VideoMapping) : gmap string string :=
  let response : gmap string string :=
    <["video" := OriginalName rec]>
    (<["transcode_dir" := TranscodeDir rec]>
    (<["status" := Status rec]> ∅)) in
  if Status rec =? "completed"
  then <["stream_url" := stream_url (TranscodeDir rec)]> response
  else response.

(** ** The job *)

(** The status [transcode] writes: the error of [CombinedOutput] decides. *)
Definition terminal_status (e : Env) : string :=
  match (encoder e).2 with
  | Some _ => "failed"
  | None => "completed"
  end.

Definition terminal_log (e : Env) (v : string) : LogLine :=
  match (encoder e).2 with
  | Some err => LogFailed v err (encoder e).1
  | None => LogCompleted v
  end.

(** The state [transcode] leaves for the job of [v] whose record is at [l]. *)
Definition finished (e : Env) (v : string) (l : nat) (rec : VideoMapping)
    (s : Shared) : Shared :=
  let h' := <[l := set_field FStatus (terminal_status e) rec]> (heap s) in
  mkShared (mappings s) h' false 0
    match write_err e with
    | None => File (json_print (marshal_mappings h' (mappings s)))
    | Some (_, remains) => remains
    end
    (logs s ++ [LogStart v; terminal_log e v])%list
    (dirs s) (goroutines s).

(** ** A failed save *)

(** The environment that differs only in that [os.WriteFile] succeeds. *)
Definition with_write_ok (e : Env) : Env := mkEnv (stat_err e) None (encoder e).

(** Two states that differ at most in the file on disk. *)
Definition same_memory (s1 s2 : Shared) : Prop :=
  set_disk NoFile s1 = set_disk NoFile s2.

(** The lines a program run alone adds to the log. *)
Definition logged_by {R : Type} (e : Env) (p : Prog R) (s : Shared) : list LogLine :=
  match run e p s with
  | Returned _ s' | Panicked _ s' => drop (length (logs s)) (logs s')
  | Deadlock => []
  end.

(** "The caller logs the failed write", for one run: something is logged
    about it, so the log is not the log of the same run with a write that
    succeeds. *)
Definition failed_save_logged {R : Type} (e : Env) (p : Prog R) (s : Shared)
    : Prop :=
  logged_by e p s ≠ logged_by (with_write_ok e) p s.

(** ** Startup *)

(** The state in which the server starts to listen. *)
Definition listening (m : option (gmap string ptr)) (h : list VideoMapping)
    (d : DiskFile) (warnings : list LogLine) : Shared :=
  mkShared m h false 0 d warnings ["videos"; "transcoded"] [].

(** "On a load error startup proceeds with an empty registry", for one
    file: if [main] logs a warning about [load], it goes on with the empty
    registry. *)
Definition empty_after_load_error (e : Env) (d : DiskFile) : Prop :=
  ∀ s', run e main_startup (initial_state d) = Returned () s' →
        logs s' ≠ [] → mappings s' = Some ∅.

(** ** Goroutines *)

(** The status an action writes into a record, if it writes one. *)
Definition status_written {X : Type} (a : action X) : option string :=
  match a with
  | ASetStatusAt _ x => Some x
  | _ => None
  end.

(** The shape of a handler: it starts a job for a name only after it has
    stored a record under that name ([stored] lists the names stored so
    far), a record it stores carries the name and the stem of the name,
    and it neither decodes a file nor writes a status. *)
Fixpoint go_after_store {R : Type} (stored : list string) (p : Prog R) : Prop :=
  match p with
  | Ret _ => True
  | Act a k =>
      match a with
      | AGo _ _ v => v ∈ stored
      | AMapStore key v => OriginalName v = key ∧ TranscodeDir v = stem key
      | AUnmarshal _ | ASetStatusAt _ _ => False
      | _ => True
      end ∧
      ∀ x, go_after_store
             match a with
             | AMapStore key _ => key :: stored
             | _ => stored
             end (k x)
  end.

(** The shape of a job for [v]: the only record it touches is the one
    under [v], whose status it sets to completed or failed; it stores no
    key, reads through no pointer, decodes no file, starts no job. *)
Definition job_action (v : string) (X : Type) (a : action X) : Prop :=
  match a with
  | ASetStatusAt key x => key = v ∧ (x = "completed" ∨ x = "failed")
  | AGo _ _ _ | AUnmarshal _ | AMapStore _ _ | ARead _ _ => False
  | _ => True
  end.

Definition thread_ok (s : Shared) (th : Thread) : Prop :=
  match th with
  | Handler p => ∃ stored, go_after_store stored p ∧ Forall (live_key s) stored
  | Runner v p => all_actions (job_action v) p ∧ live_key s v
  | Recovered => True
  end.

(** Every goroutine has the shape of the function it runs, and every job
    has its record. *)
Definition sound (w : World) : Prop := Forall (thread_ok (shared w)) (threads w).

(** The number of jobs for [v] that have not ended. *)
Definition is_active_job (v : string) (th : Thread) : bool :=
  match th with
  | Runner v' (Act _ _) => v' =? v
  | _ => false
  end.

Definition active_jobs (v : string) (w : World) : nat :=
  length (List.filter (is_active_job v) (threads w)).

(** The answers of the handlers that have returned, by goroutine. *)
Definition answers (w : World) : list (option Response) :=
  map (λ th, match th with
             | Handler (Ret r) => Some r
             | _ => None
             end) (threads w).

(** What a record may become: same place, same name, same directory, and
    a status that is the old one or a terminal one. *)
Definition record_kept (s s' : Shared) : Prop :=
  ∀ l rec, heap s !! l = Some rec →
    ∃ rec', heap s' !! l = Some rec' ∧
            OriginalName rec' = OriginalName rec ∧
            TranscodeDir rec' = TranscodeDir rec ∧
            (Status rec' = Status rec ∨
             Status rec' = "completed" ∨ Status rec' = "failed").

(** ** The write lock *)

(** Some value of the result type of an action. *)
Definition some_result {X : Type} (a : action X) : X :=
  match a in action X return X with
  | ARLock | ARUnlock | ALock | AUnlock => ()
  | AMapIndex _ => (Nil, false)
  | ARead _ _ => ""
  | AMapStore _ _ | ASetStatusAt _ _ => ()
  | AMarshal => ("", None)
  | AWriteFile _ => None
  | AReadFile => ("", None)
  | AUnmarshal _ => None
  | AStat _ => None
  | AMkdirAll _ => ()
  | ACombinedOutput _ _ => ("", None)
  | ALog _ => ()
  | AGo _ _ _ => ()
  end.

(** Whether the goroutine that is left with [p] to run is between its
    [Lock] and its [Unlock]: the next operation on the write lock it comes
    to is [Unlock]. *)
Fixpoint holds {R : Type} (p : Prog R) : bool :=
  match p with
  | Ret _ => false
  | Act a k =>
      match a with
      | ALock => false
      | AUnlock => true
      | _ => holds (k (some_result a))
      end
  end.

(** The write lock is taken and released in turn, and the registry is
    written and saved only in between. *)
Fixpoint section_ok {R : Type} (inside : bool) (p : Prog R) : Prop :=
  match p with
  | Ret _ => inside = false
  | Act a k =>
      match a with
      | ALock => inside = false ∧ ∀ x, section_ok true (k x)
      | AUnlock => inside = true ∧ ∀ x, section_ok false (k x)
      | AMapStore _ _ | ASetStatusAt _ _ | AMarshal | AWriteFile _ =>
          inside = true ∧ ∀ x, section_ok inside (k x)
      | _ => ∀ x, section_ok inside (k x)
      end
  end.

(** Every field of a record is read under the read lock. *)
Fixpoint reads_locked {R : Type} (rlocked : bool) (p : Prog R) : Prop :=
  match p with
  | Ret _ => True
  | Act a k =>
      match a with
      | ARLock => ∀ x, reads_locked true (k x)
      | ARUnlock => ∀ x, reads_locked false (k x)
      | ARead _ _ => rlocked = true ∧ ∀ x, reads_locked rlocked (k x)
      | _ => ∀ x, reads_locked rlocked (k x)
      end
  end.

(** The side of the write lock a goroutine is on after an action. *)
Definition after {X : Type} (a : action X) (inside : bool) : bool :=
  match a with
  | ALock => true
  | AUnlock => false
  | _ => inside
  end.

Definition holding (th : Thread) : Prop :=
  match th with
  | Handler p => holds p = true
  | Runner _ p => holds p = true
  | Recovered => False
  end.

Definition disciplined (th : Thread) : Prop :=
  match th with
  | Handler p => section_ok (holds p) p
  | Runner _ p => section_ok (holds p) p
  | Recovered => True
  end.

Definition lock_ok (s : Shared) : Prop := writer s = true → readers s = 0.

(** Mutual exclusion: a goroutine between its [Lock] and [Unlock] finds
    the lock write-held, is the only such goroutine, and no read lock is
    held meanwhile. *)
Definition exclusive (w : World) : Prop :=
  Forall disciplined (threads w) ∧ lock_ok (shared w) ∧
  ∀ i th, threads w !! i = Some th → holding th →
    writer (shared w) = true ∧
    ∀ j th', threads w !! j = Some th' → holding th' → j = i.

End Vocabulary.

(** ** Concrete scenarios *)

Module Scenario.

#[local] Existing Instance RefLib.lib.

(** The video is on disk, writes succeed, the encoder exits 0. *)
Definition fine : Env := mkEnv None None ("", None).
(** The encoder exits 1. *)
Definition exit1 : Env := mkEnv None None ("Invalid data found", Some (ExitError 1)).
(** [os.WriteFile] fails and leaves no file. *)
Definition disk_full : Env :=
  mkEnv None (Some (ErrOS "no space left on device", NoFile)) ("", None).
(** [os.Stat] fails, the file not being there / for another reason. *)
Definition absent : Env := mkEnv (Some ErrNotExist) None ("", None).
Definition denied : Env := mkEnv (Some (ErrOS "permission denied")) None ("", None).

(** POST /api/transcode?video=a.mp4 and GET /api/status/a.mp4 *)
Definition submit_a : Request := mkRequest "POST" "/api/transcode" "a.mp4".
Definition query_a : Request := mkRequest "GET" "/api/status/a.mp4" "".

Definition a_with (status : string) : VideoMapping :=
  mkVideoMapping "a.mp4" "a" status.

(** A registry that holds one record, for a.mp4. *)
Definition registry_with (status : string) : Shared :=
  mkShared (Some {[ "a.mp4" := Ref 0 ]}) [a_with status] false 0 NoFile [] [] [].

(** The document [save] writes for that registry. *)
Definition document (status : string) : json :=
  JObject [("a.mp4", marshal_VideoMapping (a_with status))].

(** A server that has just started without a file, no request yet. *)
Definition idle : World := mkWorld (initial_state NoFile) [] false.

Definition steps (tid n : nat) (e : Env) : list Event := repeat (Step tid e) n.

(** Two submissions of a.mp4 arrive.  Each handler checks the file and
    looks the name up, finding no record (4 actions each); then each
    creates a record, saves, and starts a job (7 actions each). *)
Definition race : list Event :=
  ([Submit submit_a; Submit submit_a] ++
   steps 0 4 fine ++ steps 1 4 fine ++ steps 0 7 fine ++ steps 1 7 fine)%list.

(** After the race, the first job (goroutine 2) fails and ends, then the
    second job (goroutine 3) succeeds and ends (8 actions each). *)
Definition race_then_first_job : list Event := (race ++ steps 2 8 exit1)%list.
Definition race_then_both_jobs : list Event :=
  (race_then_first_job ++ steps 3 8 fine)%list.

(** One submission runs to its end (11 actions) and starts the job,
    goroutine 1.  A status query arrives, goroutine 2, and looks the name
    up under the read lock (3 actions).  The job runs the encoder, takes
    the lock and sets the status (5 actions).  The query reads the fields
    of the record it holds and answers (5 actions).  The job has yet to
    save and unlock. *)
Definition stale_read : list Event :=
  ([Submit submit_a] ++ steps 0 11 fine ++ [Query query_a] ++
   steps 2 3 fine ++ steps 1 5 fine ++ steps 2 5 fine)%list.

(** A file that is JSON, with a complete entry followed by a number where
    an object is expected:
    {"a.mp4":{"original_name":"a.mp4","transcode_dir":"a","status":"completed"},"b.mp4":5} *)
Definition mismatched : json :=
  JObject [("a.mp4", marshal_VideoMapping (a_with "completed"));
           ("b.mp4", JNumber "5")].

(** The job of a.mp4 after its submission, about to write the status. *)
Definition until_write : list Event :=
  ([Submit submit_a] ++ steps 0 11 fine ++ steps 1 4 fine)%list.

(** What is in memory and on disk, and what goroutine 2 has answered. *)
Definition seen_by_query (w : World)
    : option (option Response) * bool * list VideoMapping * DiskFile :=
  (answers w !! 2, writer (shared w), heap (shared w), disk (shared w)).

Definition memory (w : World) : list VideoMapping * option (gmap string ptr) :=
  (heap (shared w), mappings (shared w)).

Definition jobs_started (w : World)
    : nat * list (string * string * string) * list (option Response) :=
  (active_jobs "a.mp4" w, goroutines (shared w), answers w).

(** One submission runs to its end (11 actions) and starts the job,
    goroutine 1.  A second submission of a.mp4 arrives, goroutine 2: it
    checks the file, looks the name up under the read lock, and compares
    the status of the record it found with "completed" (5 actions). *)
Definition resubmit_first_check : list Event :=
  ([Submit submit_a] ++ steps 0 11 fine ++ [Submit submit_a] ++ steps 2 5 fine)%list.

(** The encoder exits 0 and the job runs to its end (8 actions). *)
Definition resubmit_job_ends : list Event :=
  (resubmit_first_check ++ steps 1 8 fine)%list.

(** The second submission compares the status of the record with
    "processing", and goes on to its end (8 actions). *)
Definition resubmit_second_check : list Event :=
  (resubmit_job_ends ++ steps 2 8 fine)%list.

(** One submission runs to its end and starts the job, goroutine 1.  A
    status query arrives, goroutine 2: it looks the name up under the read
    lock and reads the name, the directory and the status of the record
    into its answer (6 actions). *)
Definition query_first_reads : list Event :=
  ([Submit submit_a] ++ steps 0 11 fine ++ [Query query_a] ++ steps 2 6 fine)%list.

(** The encoder exits 0 and the job runs to its end (8 actions).  The
    query reads the status again, and the directory, and answers (2
    actions). *)
Definition torn_status : list Event :=
  (query_first_reads ++ steps 1 8 fine ++ steps 2 2 fine)%list.

(** The answer to a status query for a.mp4 that says processing and gives
    a stream locator. *)
Definition torn_body : gmap string string :=
  <["stream_url" := stream_url "a"]> (status_body (a_with "processing")).

(** What goroutine [tid] has answered, and the records in memory. *)
Definition answered (tid : nat) (w : World)
    : option Response * list VideoMapping :=
  (default None (answers w !! tid), heap (shared w)).

End Scenario.

(** ** More vocabulary *)

Section MoreVocabulary.
Context `{GoLib} `{GoUnicode}.

(** A byte that is neither the dot nor the path separator. *)
Definition plain (c : ascii) : Prop := c ≠ "."%char ∧ c ≠ "/"%char.

Definition plain_string (x : string) : Prop :=
  Forall plain (list_ascii_of_string x).

(** The object [handleStatus] encodes for the record [handleTranscode]
    makes for [v], once its status is [status]. *)
Definition answer_for (v status : string) : gmap string string :=
  status_body (mkVideoMapping v (stem v) status).

(** A server that has just started: the registry as loaded, no request
    has arrived yet. *)
Definition started (s : Shared) : World := mkWorld s [] false.

(** The next action of a goroutine. *)
Definition next_action {X : Type} (th : Thread) (a : action X) : Prop :=
  (∃ k, th = Handler (Act a k)) ∨ (∃ v k, th = Runner v (Act a k)).

(** An action that writes the registry or the file, or ends the critical
    section. *)
Definition writes_registry {X : Type} (a : action X) : Prop :=
  match a with
  | AMapStore _ _ | ASetStatusAt _ _ | AMarshal | AWriteFile _ | AUnlock => True
  | _ => False
  end.

(** A job releases no read lock. *)
Definition no_runlock (X : Type) (a : action X) : Prop :=
  match a with
  | ARUnlock => False
  | _ => True
  end.

Definition calm (w : World) : Prop :=
  Forall (λ th, match th with
                | Runner _ p => all_actions no_runlock p
                | _ => True
                end) (threads w).

(** ** A record left in processing *)

(** The name [v] is bound to the record at [l], no other name is, and the
    status of the record is processing. *)
Definition stuck (v : string) (l : nat) (s : Shared) : Prop :=
  ∃ m rec, mappings s = Some m ∧ m !! v = Some (Ref l) ∧
           heap s !! l = Some rec ∧ Status rec = "processing" ∧
           ∀ key, m !! key = Some (Ref l) → key = v.

(** What an action returns while [v] is stuck at [l]. *)
Definition consistent (v : string) (l : nat) {X : Type} (a : action X)
    : X → Prop :=
  match a in action X return X → Prop with
  | AMapIndex key => λ x, key = v → x = (Ref l, true)
  | ARead f p => λ x, f = FStatus → p = Ref l → x = "processing"
  | _ => λ _, True
  end.

(** A handler that, as long as [v] is stuck at [l], stores no record
    under [v], starts no job for [v], sets no status and decodes no
    file. *)
Fixpoint leaves_alone (v : string) (l : nat) {R : Type} (p : Prog R) : Prop :=
  match p with
  | Ret _ => True
  | Act a k =>
      match a with
      | AMapStore key _ => key ≠ v
      | AGo _ _ name => name ≠ v
      | ASetStatusAt _ _ | AUnmarshal _ => False
      | _ => True
      end ∧
      ∀ x, consistent v l a x → leaves_alone v l (k x)
  end.

Definition aside (v : string) (l : nat) (th : Thread) : Prop :=
  match th with
  | Handler p => leaves_alone v l p
  | Runner v' p => v' ≠ v ∧ all_actions (job_action v') p
  | Recovered => True
  end.

(** An action that does not touch what is under [v]. *)
Definition spares (v : string) {X : Type} (a : action X) : Prop :=
  match a with
  | AMapStore key _ | ASetStatusAt key _ => key ≠ v
  | AUnmarshal _ => False
  | _ => True
  end.

(** ** The listing *)

(** The extensions [handleGetVideos] lists, compared after lowering. *)
Definition is_video (name : string) : bool :=
  existsb (String.eqb (strings_ToLower (filepath_Ext name)))
          [".mp4"; ".mkv"; ".avi"; ".mov"; ".webm"].

Definition listed (entry : DirEntry) : bool :=
  negb (entry_IsDir entry) && is_video (entry_Name entry).

(** What the listing says about a file, from the registry. *)
Definition info_of (s : Shared) (name : string) : VideoInfo :=
  match record_at s name with
  | Some rec =>
      mkVideoInfo name (Status rec =? "completed") (Status rec)
        (if Status rec =? "completed" then stream_url (TranscodeDir rec) else "")
        (TranscodeDir rec)
  | None => mkVideoInfo name false "" "" ""
  end.

Definition infos_of (s : Shared) (entries : list DirEntry) : list VideoInfo :=
  map (λ entry, info_of s (entry_Name entry)) (List.filter listed entries).

(** How a listing ends when it does not block: with the shared state [s]. *)
Definition ends_with {R : Type} (s : Shared) (res : ListingResult R) : Prop :=
  match res with
  | LReturned _ st' => shared_of st' = s
  | LPanicked why st' => why = NilDereference ∧ shared_of st' = s
  | LDeadlock => False
  end.

End MoreVocabulary.

Section SafetyVocabulary.
Context `{GoLib}.

(** ** A registry without nil entries *)

(** The map is not nil and every key is bound to the address of a
    record. *)
Definition wellformed (s : Shared) : Prop :=
  is_Some (mappings s) ∧ ∀ key, has_key s key → live_key s key.

(** The pointer is the address of one of the first [n] records. *)
Definition in_heap (n : nat) (p : ptr) : Prop := ∃ l, p = Ref l ∧ (l < n)%nat.

(** What a lookup returns in such a registry with [n] records: when the
    key exists, the address of a record. *)
Definition found (n : nat) {X : Type} (a : action X) : X → Prop :=
  match a in action X return X → Prop with
  | AMapIndex _ => λ x, x.2 = true → in_heap n x.1
  | _ => λ _, True
  end.

(** The side of the read lock a goroutine is on after an action. *)
Definition after_read {X : Type} (a : action X) (rlocked : bool) : bool :=
  match a with
  | ARLock => true
  | ARUnlock => false
  | _ => rlocked
  end.

(** Whether the goroutine that is left with [p] to run is between its
    [RLock] and its [RUnlock]. *)
Fixpoint rholds {R : Type} (p : Prog R) : bool :=
  match p with
  | Ret _ => false
  | Act a k =>
      match a with
      | ARLock => false
      | ARUnlock => true
      | _ => rholds (k (some_result a))
      end
  end.

(** A handler that reads only through pointers a lookup has found,
    releases the read lock only after it has taken it, and neither sets a
    status nor decodes a file.  [n] is the number of records when the
    handler goes on; there may be more by the time of a later action. *)
Fixpoint careful {R : Type} (rlocked : bool) (p : Prog R) (n : nat) : Prop :=
  match p with
  | Ret _ => rlocked = false
  | Act a k =>
      match a with
      | ARead _ p => in_heap n p
      | ARLock => rlocked = false
      | ARUnlock => rlocked = true
      | AUnmarshal _ | ASetStatusAt _ _ => False
      | _ => True
      end ∧
      ∀ (n' : nat) x, (n ≤ n')%nat → found n' a x →
        careful (after_read a rlocked) (k x) n'
  end.

Definition rholding (th : Thread) : bool :=
  match th with
  | Handler p => rholds p
  | _ => false
  end.

(** No handler has panicked, every handler is careful, and the read lock
    is held at least as often as there are handlers between [RLock] and
    [RUnlock]. *)
Definition guarded (w : World) : Prop :=
  wellformed (shared w) ∧
  Forall (λ th, match th with
                | Handler p => careful (rholds p) p (length (heap (shared w)))
                | Runner _ _ => True
                | Recovered => False
                end) (threads w) ∧
  (length (List.filter rholding (threads w)) ≤ readers (shared w))%nat.

End SafetyVocabulary.

Module MoreScenario.
Import Scenario.

#[local] Existing Instance RefLib.lib.
#[local] Existing Instance RefUnicode.unicode.

(** The registry with the record of a.mp4, while a job holds the write
    lock. *)
Definition write_locked : Shared :=
  mkShared (Some {[ "a.mp4" := Ref 0 ]}) [a_with "processing"] true 0 NoFile [] [] [].

(** A registry after two submissions of a.mp4 that both stored a record:
    two records with the same fields, the name bound to the second. *)
Definition recorded_twice : Shared :=
  mkShared (Some {[ "a.mp4" := Ref 1 ]})
           [a_with "processing"; a_with "processing"] false 0 NoFile [] [] [].

(** What [load] makes of the file {"a.mp4":null}. *)
Definition nil_entry : Shared :=
  mkShared (Some {[ "a.mp4" := Nil ]}) [] false 0 NoFile [] [] [].

Definition get_a : Request := mkRequest "GET" "/api/transcode" "a.mp4".
Definition submit_nothing : Request := mkRequest "POST" "/api/transcode" "".
Definition query_nothing : Request := mkRequest "GET" "/api/status/" "".
Definition preflight : Request := mkRequest "OPTIONS" "/hls/a/master.m3u8" "".
Definition get_playlist : Request := mkRequest "GET" "/hls/a/master.m3u8" "".
Definition get_segment : Request :=
  mkRequest "GET" "/hls/a/stream_0/chunk00000.ts" "".
Definition get_videos : Request := mkRequest "GET" "/api/videos" "".
Definition post_videos : Request := mkRequest "POST" "/api/videos" "".

(** A handler that answers nothing, and a writer nobody has written to. *)
Definition silent (w : ResponseWriter) (r : Request) : ResponseWriter := w.
Definition blank : ResponseWriter := mkWriter ∅ None.

(** The videos directory: a video, a text file, a directory, and a video
    with its extension in capitals. *)
Definition folder : list DirEntry :=
  [mkDirEntry "a.mp4" false; mkDirEntry "notes.txt" false;
   mkDirEntry "raw.mp4" true; mkDirEntry "B.MKV" false].

(** A videos directory without a video. *)
Definition no_videos : list DirEntry :=
  [mkDirEntry "notes.txt" false; mkDirEntry "raw.mp4" true].

Definition reading (entries : list DirEntry) : ListingEnv :=
  mkListingEnv fine (entries, None).

Definition unreadable : ListingEnv :=
  mkListingEnv fine ([], Some (ErrOS "permission denied")).

Definition quiet (s : Shared) : ListingState := mkListingState s [].

(** A submission of a.mp4 that finds the record failed runs to its end
    (13 actions), then its job does (8 actions); the encoder fails
    again. *)
Definition submit_and_fail : list Event :=
  ([Submit submit_a] ++ steps 0 13 fine ++ steps 1 8 exit1)%list.

(** A submission of a.mp4 that finds the record in processing and is
    turned away (6 actions), twice. *)
Definition resubmit_twice : list Event :=
  ([Submit submit_a] ++ steps 0 6 fine ++ [Submit submit_a] ++ steps 1 6 fine)%list.

End MoreScenario.

(** * Part III: lemmas and theorems *)

(** Opens a state into its fields and evaluates the program on it as far
    as the known facts allow. *)
Ltac open_state s :=
  destruct s as [?m ?h ?w ?rd ?d ?lg ?dr ?gs]; simpl in *; subst.

Section Proofs.
Context `{GoLib}.

(** ** Running a program alone *)

Lemma run_bind {A B : Type} (e : Env) (p : Prog A) (f : A → Prog B) (s : Shared) :
  run e (p ≫= f) s =
  match run e p s with
  | Returned x s' => run e (f x) s'
  | Deadlock => Deadlock
  | Panicked why s' => Panicked why s'
  end.
Proof.
  change (p ≫= f) with (bind p f).
  revert s. induction p as [a | X a k IH]; intros s; simpl; [done |].
  destruct (exec e a s); auto.
Qed.

Lemma run_call {X : Type} (e : Env) (a : action X) (s : Shared) :
  run e (call a) s =
  match exec e a s with
  | Stepped x s' => Returned x s'
  | Blocked => Deadlock
  | Panics why s' => Panicked why s'
  end.
Proof. simpl. by destruct (exec e a s). Qed.

Lemma run_env_agree {R : Type} (e e' : Env) (p : Prog R) (s : Shared) :
  all_actions (λ X a, ∀ s, exec e a s = exec e' a s) p →
  run e p s = run e' p s.
Proof.
  revert s. induction p as [a | X a k IH]; intros s; simpl; [done |].
  intros [Ha Hk]. rewrite Ha. destruct (exec e' a s); auto.
Qed.

Lemma record_at_index (s : Shared) (key : string) (rec : VideoMapping) :
  record_at s key = Some rec →
  ∃ l, map_index (mappings s) key = (Ref l, true) ∧ heap s !! l = Some rec.
Proof.
  unfold record_at, map_index. destruct (mappings s) as [m |]; simpl; [| done].
  destruct (m !! key) as [[| l] |]; simpl; try done. eauto.
Qed.

Lemma map_index_absent (m : gmap string ptr) (key : string) :
  m !! key = None → map_index (Some m) key = (Nil, false).
Proof. unfold map_index. by intros ->. Qed.

Lemma derived_record (s : Shared) (key : string) (rec : VideoMapping) :
  derived s → record_at s key = Some rec →
  OriginalName rec = key ∧ TranscodeDir rec = stem key.
Proof.
  unfold record_at. intros Hd.
  destruct (mappings s) as [m |] eqn:Hm; simpl; [| done].
  destruct (m !! key) as [[| l] |] eqn:Hk; simpl; try done.
  destruct (Hd m key l Hm Hk) as (rec' & Hl & ?). intros ?. by simplify_eq.
Qed.

(** ** The submission handler run alone *)

(** The creating branch, from what the map lookup returned. *)
Lemma handleTranscode_accepts (e : Env) (s : Shared) (r : Request)
    (m : gmap string ptr) :
  Method r = "POST" → QueryVideo r ≠ "" → os_IsNotExist (stat_err e) = false →
  unlocked s → mappings s = Some m →
  (m !! QueryVideo r = None ∨
   ∃ rec, record_at s (QueryVideo r) = Some rec ∧
          Status rec ≠ "completed" ∧ Status rec ≠ "processing") →
  run e (handleTranscode r) s =
  Returned (JsonBody (started_body (QueryVideo r))) (accepted e (QueryVideo r) m s).
Proof.
  intros Hm Hq Hst [Hw Hr] Hmap Hcase.
  apply String.eqb_neq in Hq.
  unfold handleTranscode, accepted, started_body, stem.
  rewrite Hm, Hq. simpl negb. cbv iota.
  destruct Hcase as [Hnone | (rec & Hrec & Hc & Hp)].
  - apply map_index_absent in Hnone.
    open_state s. rewrite Hst. simpl. rewrite Hnone. simpl.
    by destruct (write_err e) as [[err remains] |].
  - apply record_at_index in Hrec as (l & Hidx & Hl).
    apply String.eqb_neq in Hc, Hp.
    open_state s. rewrite Hst. simpl. rewrite Hidx. simpl.
    repeat (first [rewrite Hl | rewrite Hc | rewrite Hp]; simpl).
    by destruct (write_err e) as [[err remains] |].
Qed.

(** The policy of the submission handler, for a submission of a video that
    is on disk run alone from a state with the lock free: a completed
    record is answered with its directory and stream locator, and a
    processing record with "currently being transcoded", both leaving the
    whole state as it was (no record made, no goroutine started); with no
    record, or a record in any other status, a fresh processing record is
    bound to the name, the registry is written to the file, exactly one
    [transcode] goroutine is started and the answer is "started". *)
Theorem handleTranscode_policy (e : Env) (s : Shared) (r : Request) :
  Method r = "POST" → QueryVideo r ≠ "" → stat_err e = None → unlocked s →
  let v := QueryVideo r in
  (∀ rec, record_at s v = Some rec → Status rec = "completed" →
     run e (handleTranscode r) s = Returned (JsonBody (already_body rec)) s) ∧
  (∀ rec, record_at s v = Some rec → Status rec = "processing" →
     run e (handleTranscode r) s = Returned (JsonBody running_body) s) ∧
  (∀ m, mappings s = Some m →
     (m !! v = None ∨ ∃ rec, record_at s v = Some rec ∧ Status rec = "failed") →
     ∃ s', run e (handleTranscode r) s = Returned (JsonBody (started_body v)) s' ∧
       mappings s' = Some (<[v := Ref (length (heap s))]> m) ∧
       heap s' = (heap s ++ [mkVideoMapping v (stem v) "processing"])%list ∧
       record_at s' v = Some (mkVideoMapping v (stem v) "processing") ∧
       (write_err e = None →
          disk s' = File (json_print (marshal_mappings (heap s') (mappings s')))) ∧
       goroutines s' =
         (goroutines s ++
            [(filepath_Join "videos" v, filepath_Join "transcoded" (stem v), v)])%list ∧
       unlocked s' ∧ logs s' = logs s).
Proof.
  intros Hm Hq Hst [Hw Hr] v. subst v.
  assert (Hq' := Hq). apply String.eqb_neq in Hq'.
  split; [| split].
  - intros rec Hrec Hc.
    apply record_at_index in Hrec as (l & Hidx & Hl).
    unfold handleTranscode, already_body. rewrite Hm, Hq'. simpl negb. cbv iota.
    open_state s. rewrite Hst. simpl. rewrite Hidx. simpl.
    repeat (first [rewrite Hl | rewrite Hc]; simpl). done.
  - intros rec Hrec Hp.
    apply record_at_index in Hrec as (l & Hidx & Hl).
    unfold handleTranscode, running_body. rewrite Hm, Hq'. simpl negb. cbv iota.
    open_state s. rewrite Hst. simpl. rewrite Hidx. simpl.
    repeat (first [rewrite Hl | rewrite Hp]; simpl). done.
  - intros m Hmap Hcase. eexists. split.
    + apply handleTranscode_accepts; try done.
      * by rewrite Hst.
      * destruct Hcase as [? | (rec & ? & Hf)]; [by left | right].
        exists rec. rewrite Hf. by repeat split.
    + unfold accepted, record_at, unlocked. simpl.
      rewrite lookup_insert_eq. simpl.
      rewrite lookup_app_r by done. rewrite Nat.sub_diag. simpl.
      repeat split; try done. by intros ->.
Qed.

(** ** The source check of the submission handler *)

(** C10. The submission handler answers 404 exactly when [os.Stat] fails
    with a does-not-exist error: it does so then, leaving the state alone;
    it never answers 404 otherwise; under any other [os.Stat] error it
    runs exactly as it does when [os.Stat] succeeds; and so it accepts the
    submission then: with the lock free and the name not in the registry,
    or there with a record that is neither completed nor processing, the
    answer is "started", the fresh processing record is bound to the
    name, and one [transcode] goroutine is started for it. *)
Theorem handleTranscode_stat (e : Env) (s : Shared) (r : Request) :
  (Method r = "POST" → QueryVideo r ≠ "" → os_IsNotExist (stat_err e) = true →
     run e (handleTranscode r) s = Returned (HttpError 404 "Video not found") s) ∧
  (∀ msg s', run e (handleTranscode r) s = Returned (HttpError 404 msg) s' →
     os_IsNotExist (stat_err e) = true) ∧
  (os_IsNotExist (stat_err e) = false →
     run e (handleTranscode r) s = run (with_stat_ok e) (handleTranscode r) s) ∧
  (∀ m, Method r = "POST" → QueryVideo r ≠ "" →
     os_IsNotExist (stat_err e) = false → unlocked s → mappings s = Some m →
     (m !! QueryVideo r = None ∨
      ∃ rec, record_at s (QueryVideo r) = Some rec ∧
             Status rec ≠ "completed" ∧ Status rec ≠ "processing") →
     let v := QueryVideo r in
     ∃ s', run e (handleTranscode r) s = Returned (JsonBody (started_body v)) s' ∧
       started_body v !! "message" = Some "Transcoding started" ∧
       mappings s' = Some (<[v := Ref (length (heap s))]> m) ∧
       heap s' = (heap s ++ [mkVideoMapping v (stem v) "processing"])%list ∧
       record_at s' v = Some (mkVideoMapping v (stem v) "processing") ∧
       goroutines s' =
         (goroutines s ++
            [(filepath_Join "videos" v, filepath_Join "transcoded" (stem v), v)])%list).
Proof.
  split; [| split; [| split]]; cycle 3.
  { intros m Hm Hq Hst Hu Hmap Hcase v. exists (accepted e v m s).
    split; [by apply handleTranscode_accepts |].
    split; [unfold started_body; by simplify_map_eq |].
    split; [done |]. split; [done |]. split; [| done].
    unfold record_at, accepted. simpl. rewrite lookup_insert_eq. simpl.
    rewrite lookup_app_r by done. by rewrite Nat.sub_diag. }
  - intros Hm Hq Hst. apply String.eqb_neq in Hq.
    unfold handleTranscode. rewrite Hm, Hq. simpl. by rewrite Hst.
  - intros msg s'. unfold handleTranscode.
    destruct (Method r =? "POST"); simpl; [| done].
    destruct (QueryVideo r =? ""); simpl; [done |].
    destruct (os_IsNotExist (stat_err e)); [done |]. simpl.
    destruct (writer s); [done |]. simpl.
    destruct (map_index _ _) as [p ex]. simpl.
    intros Hrun. exfalso. revert Hrun.
    repeat (first [ done | case_match; simplify_eq/= ]).
  - intros Hst. unfold handleTranscode.
    destruct (Method r =? "POST"); simpl negb; cbv iota; [| done].
    destruct (QueryVideo r =? ""); [done |].
    rewrite !(run_bind _ (call (AStat _))), !run_call. simpl exec. cbv iota beta.
    rewrite Hst. simpl os_IsNotExist. cbv iota.
    apply run_env_agree.
    repeat (first [ done | split | intros [] | intros ? | progress simpl
                  | match goal with
                    | |- context [if ?b then _ else _] => destruct b
                    | |- context [match ?x with _ => _ end] => destruct x
                    end ]).
Qed.

(** ** The status handler run alone *)

Lemma status_body_fields (rec : VideoMapping) :
  status_body rec !! "video" = Some (OriginalName rec) ∧
  status_body rec !! "transcode_dir" = Some (TranscodeDir rec) ∧
  status_body rec !! "status" = Some (Status rec) ∧
  status_body rec !! "stream_url" =
    (if decide (Status rec = "completed")
     then Some (stream_url (TranscodeDir rec)) else None).
Proof.
  unfold status_body.
  destruct (decide (Status rec = "completed")) as [Hc | Hc].
  - rewrite Hc. simpl. by simplify_map_eq.
  - apply String.eqb_neq in Hc. rewrite Hc. by simplify_map_eq.
Qed.

(** The status handler, for a query that names a video run alone from a
    state that is not write-locked: without a record
    under the name the answer is 404 and the state is as before; with a
    record the answer carries the record's name, directory and status, the
    state is as before, and the stream locator is there exactly when the
    status is completed, being "/hls/<dir>/master.m3u8" for the record's
    directory, which in a registry that fits the data model is the stem
    of the name ("/hls/a/master.m3u8" for a.mp4). *)
Theorem handleStatus_lookup (e : Env) (s : Shared) (r : Request) :
  let name := strings_TrimPrefix (Path r) "/api/status/" in
  name ≠ "" → writer s = false →
  (¬ has_key s name →
     run e (handleStatus r) s = Returned (HttpError 404 "Video not found") s) ∧
  (∀ rec, record_at s name = Some rec →
     run e (handleStatus r) s = Returned (JsonBody (status_body rec)) s ∧
     status_body rec !! "video" = Some (OriginalName rec) ∧
     status_body rec !! "transcode_dir" = Some (TranscodeDir rec) ∧
     status_body rec !! "status" = Some (Status rec) ∧
     (Status rec = "completed" →
        status_body rec !! "stream_url" =
          Some ("/hls/" ++ TranscodeDir rec ++ "/master.m3u8")) ∧
     (Status rec ≠ "completed" → status_body rec !! "stream_url" = None) ∧
     (derived s → Status rec = "completed" →
        status_body rec !! "stream_url" =
          Some ("/hls/" ++ stem name ++ "/master.m3u8"))) ∧
  stream_url (stem "a.mp4") = "/hls/a/master.m3u8".
Proof.
  intros name Hname Hw. apply String.eqb_neq in Hname.
  split; [| split; [| done]].
  - intros Hno. unfold handleStatus. cbv zeta. fold name.
    clearbody name. rewrite Hname.
    assert (map_index (mappings s) name = (Nil, false)) as Hidx.
    { unfold map_index. destruct (mappings s) as [m |] eqn:Hm; [| done].
      destruct (m !! name) as [p |] eqn:Hp; [| done].
      destruct Hno. by exists m, p. }
    open_state s. simpl. rewrite Hidx. simpl. done.
  - intros rec Hrec.
    destruct (status_body_fields rec) as (Hv & Hd & Hs & Hu).
    repeat split; try done.
    + apply record_at_index in Hrec as (l & Hidx & Hl).
      unfold handleStatus, status_body. cbv zeta. fold name.
      clearbody name. rewrite Hname.
      open_state s. simpl. rewrite Hidx. simpl. repeat (rewrite Hl; simpl).
      destruct (Status rec =? "completed"); simpl; by rewrite ?Hl.
    + intros Hc. rewrite Hu. by rewrite decide_True.
    + intros Hc. rewrite Hu. by rewrite decide_False.
    + intros Hfit Hc. rewrite Hu, decide_True by done.
      by destruct (derived_record s name rec Hfit Hrec) as [_ ->].
Qed.

(** ** The job run alone *)

Lemma transcode_alone (e : Env) (s : Shared) (vp od v : string) (l : nat)
    (rec : VideoMapping) :
  unlocked s → map_index (mappings s) v = (Ref l, true) → heap s !! l = Some rec →
  run e (transcode vp od v) s = Returned () (finished e v l rec s).
Proof.
  intros [Hw Hr] Hidx Hl. unfold transcode, finished, terminal_status, terminal_log.
  open_state s. destruct (encoder e) as [output [err |]]; simpl.
  - rewrite Hidx. simpl. rewrite Hl. simpl.
    destruct (write_err e) as [[err' remains] |];
      unfold set_lock, set_disk, set_store, add_log; simpl;
      by rewrite <- app_assoc.
  - rewrite Hidx. simpl. rewrite Hl. simpl.
    destruct (write_err e) as [[err' remains] |];
      unfold set_lock, set_disk, set_store, add_log; simpl;
      by rewrite <- app_assoc.
Qed.

(** ** A failed save *)

(** C7, as the code has it. When [os.WriteFile] fails, [save] returns the
    error of [os.WriteFile] to its caller, in whatever state it is called,
    having changed nothing but the file.  The caller drops it: the
    accepting submission still answers "started" and the job still ends,
    each with the answer, the registry, the heap, the log and the
    goroutines of the run whose write succeeds; the new record, or the
    terminal status, stays in memory; only the file differs.  Nothing is
    logged about the write. *)
Theorem failed_save_is_dropped (e : Env) (err : error) (remains : DiskFile)
    (s : Shared) :
  write_err e = Some (err, remains) → unlocked s →
  (∀ s0, run e save s0 = Returned (Some err) (set_disk remains s0)) ∧
  (∀ r m, Method r = "POST" → QueryVideo r ≠ "" →
     os_IsNotExist (stat_err e) = false → mappings s = Some m →
     (m !! QueryVideo r = None ∨
      ∃ rec, record_at s (QueryVideo r) = Some rec ∧
             Status rec ≠ "completed" ∧ Status rec ≠ "processing") →
     ∃ s1 s2,
       run e (handleTranscode r) s =
         Returned (JsonBody (started_body (QueryVideo r))) s1 ∧
       run (with_write_ok e) (handleTranscode r) s =
         Returned (JsonBody (started_body (QueryVideo r))) s2 ∧
       same_memory s1 s2 ∧ disk s1 = remains ∧ logs s1 = logs s ∧
       record_at s1 (QueryVideo r) =
         Some (mkVideoMapping (QueryVideo r) (stem (QueryVideo r)) "processing")) ∧
  (∀ vp od v l rec,
     map_index (mappings s) v = (Ref l, true) → heap s !! l = Some rec →
     ∃ s1 s2,
       run e (transcode vp od v) s = Returned () s1 ∧
       run (with_write_ok e) (transcode vp od v) s = Returned () s2 ∧
       same_memory s1 s2 ∧ disk s1 = remains ∧
       logs s1 = (logs s ++ [LogStart v; terminal_log e v])%list ∧
       record_at s1 v = Some (set_field FStatus (terminal_status e) rec)).
Proof.
  intros Hwr Hun. split; [| split].
  - intros s0. unfold save. simpl. by rewrite Hwr.
  - intros r m Hm Hq Hst Hmap Hcase.
    exists (accepted e (QueryVideo r) m s),
           (accepted (with_write_ok e) (QueryVideo r) m s).
    split; [by apply handleTranscode_accepts |].
    split; [by apply handleTranscode_accepts |].
    unfold same_memory, accepted, record_at. simpl. rewrite Hwr.
    repeat split; try done.
    rewrite lookup_insert_eq. simpl.
    rewrite lookup_app_r by done. by rewrite Nat.sub_diag.
  - intros vp od v l rec Hidx Hl.
    exists (finished e v l rec s), (finished (with_write_ok e) v l rec s).
    split; [by apply transcode_alone |].
    split; [by apply transcode_alone |].
    unfold same_memory, finished, record_at. simpl. rewrite Hwr.
    repeat split; try done.
    unfold map_index in Hidx. destruct (mappings s) as [m |]; [| done]. simpl.
    destruct (m !! v) as [p |]; [| done]. simplify_eq/=.
    apply list_lookup_insert_eq. by eapply lookup_lt_Some.
Qed.

(** ** Startup *)

(** C6, as the code has it. [main] always gets past [load], with the lock
    free and the file untouched.  A missing file gives the empty registry
    and no warning.  A file that cannot be read, or whose text the JSON
    scanner rejects, gives the empty registry and one warning.  A text
    that is JSON but does not fit the registry type gives one warning too,
    and the registry is whatever decoding stored on the way. *)
Theorem main_startup_load (e : Env) (d : DiskFile) :
  match d with
  | NoFile =>
      run e main_startup (initial_state d) = Returned () (listening (Some ∅) [] d [])
  | Unreadable err =>
      run e main_startup (initial_state d) =
      Returned () (listening (Some ∅) [] d
                     (if os_IsNotExist (Some err) then [] else [LogWarnLoad err]))
  | File data =>
      match json_parse data with
      | None =>
          run e main_startup (initial_state d) =
          Returned () (listening (Some ∅) [] d [LogWarnLoad SyntaxError])
      | Some j =>
          let '(m, h, mismatch) := unmarshal_value j (Some ∅) [] in
          run e main_startup (initial_state d) =
          Returned () (listening m h d
                         (if mismatch then [LogWarnLoad UnmarshalTypeError] else []))
      end
  end.
Proof.
  unfold main_startup, load, initial_state, listening.
  destruct d as [| err | data]; simpl.
  - done.
  - by destruct err.
  - destruct (json_parse data) as [j |]; simpl; [| done].
    destruct (unmarshal_value j (Some ∅) []) as [[m h] mismatch]. simpl.
    by destruct mismatch.
Qed.

(** ** Save, then load *)

Lemma decode_elem_marshal (h : list VideoMapping) (p : ptr) :
  decode_elem (marshal_ptr h p) = (deref h p, false).
Proof.
  destruct p as [| l]; simpl; [done |].
  destruct (h !! l) as [[o d st] |]; by simpl.
Qed.

Lemma decode_members_marshal (hs : list VideoMapping) (L : list (string * ptr)) :
  NoDup L.*1 →
  ∀ (m0 : gmap string ptr) (h0 : list VideoMapping),
  ∃ m' ext,
    fold_left decode_member
      (map (λ kp : string * ptr, (kp.1, marshal_ptr hs kp.2)) L) (m0, h0, false)
    = (m', (h0 ++ ext)%list, false) ∧
    (∀ k, k ∉ L.*1 → m' !! k = m0 !! k) ∧
    (∀ k p, (k, p) ∈ L →
       ∃ p', m' !! k = Some p' ∧ deref (h0 ++ ext)%list p' = deref hs p).
Proof.
  induction L as [| [k p] L IH]; intros Hnd m0 h0.
  - exists m0, []. rewrite app_nil_r. split; [done |]. split; [done |].
    intros k p Hin. by apply elem_of_nil in Hin.
  - apply NoDup_cons in Hnd as [Hk Hnd]. simpl in Hk.
    simpl. rewrite decode_elem_marshal.
    destruct (deref hs p) as [v |] eqn:Hp; simpl.
    + destruct (IH Hnd (<[k := Ref (length h0)]> m0) (h0 ++ [v])%list)
        as (m' & ext & Hfold & Hout & Hin).
      exists m', (v :: ext). rewrite Hfold.
      replace (h0 ++ v :: ext)%list with ((h0 ++ [v]) ++ ext)%list
        by (by rewrite <- app_assoc).
      split; [done |]. split.
      * intros k' Hk'. apply not_elem_of_cons in Hk' as [Hne Hk'].
        rewrite Hout by done. by rewrite lookup_insert_ne.
      * intros k' p' Hel. apply elem_of_cons in Hel as [Heq | Hel].
        -- simplify_eq. exists (Ref (length h0)). split.
           ++ rewrite Hout by done. apply lookup_insert_eq.
           ++ simpl. rewrite Hp, <- app_assoc. simpl.
              by rewrite list_lookup_middle.
        -- by apply Hin.
    + destruct (IH Hnd (<[k := Nil]> m0) h0) as (m' & ext & Hfold & Hout & Hin).
      exists m', ext. rewrite Hfold. split; [done |]. split.
      * intros k' Hk'. apply not_elem_of_cons in Hk' as [Hne Hk'].
        rewrite Hout by done. by rewrite lookup_insert_ne.
      * intros k' p' Hel. apply elem_of_cons in Hel as [Heq | Hel].
        -- simplify_eq. exists Nil. split; [| by rewrite Hp].
           rewrite Hout by done. apply lookup_insert_eq.
        -- by apply Hin.
Qed.

(** Decoding the value [json.Marshal] builds for a registry, into a map
    that has no key of its own, gives that registry back. *)
Lemma unmarshal_marshal (s t : Shared) :
  (∀ key, has_key t key → has_key s key) →
  ∃ m' h',
    unmarshal_value (marshal_mappings (heap s) (mappings s)) (mappings t) (heap t)
    = (m', h', false) ∧
    ∀ key, entry_at s key = entry_at (set_store m' h' t) key.
Proof.
  intros Hsub. unfold marshal_mappings, entry_at.
  destruct (mappings s) as [m |] eqn:Hm; simpl.
  - set (L := merge_sort key_le (map_to_list m)).
    assert (L ≡ₚ map_to_list m) as Hperm by apply merge_sort_Permutation.
    assert (NoDup L.*1) as Hnd.
    { rewrite Hperm. apply NoDup_fst_map_to_list. }
    destruct (decode_members_marshal (heap s) L Hnd (default ∅ (mappings t)) (heap t))
      as (m' & ext & Hfold & Hout & Hin).
    exists (Some m'), (heap t ++ ext)%list. rewrite Hfold. split; [done |].
    intros key. simpl. destruct (m !! key) as [p |] eqn:Hp; simpl.
    + assert ((key, p) ∈ L) as Hel.
      { rewrite Hperm. by apply elem_of_map_to_list. }
      destruct (Hin key p Hel) as (p' & -> & Hd). simpl. by rewrite Hd.
    + rewrite Hout.
      * destruct (mappings t) as [mt |] eqn:Hmt; simpl; [| by rewrite lookup_empty].
        destruct (mt !! key) as [q |] eqn:Hq; [| done].
        destruct (Hsub key) as (m2 & p2 & Hm2 & Hp2); [by exists mt, q |].
        congruence.
      * intros Hel. apply list_elem_of_fmap in Hel as ([k p] & -> & Hel).
        rewrite Hperm in Hel. apply elem_of_map_to_list in Hel. simpl in *.
        congruence.
  - by exists None, (heap t).
Qed.

(** C5. A registry whose JSON document reads back as written survives
    [save] followed by [load]: [save] returns no error and puts the
    document in the file, and [load], in the same process or in a fresh
    one, returns no error and leaves a registry with the same keys and,
    under each key, the same original_name, transcode_dir and status. *)
Theorem save_load_roundtrip (e : Env) (s t : Shared) :
  let doc := marshal_mappings (heap s) (mappings s) in
  json_parse (json_print doc) = Some doc →
  write_err e = None →
  unlocked t → (∀ key, has_key t key → has_key s key) →
  ∃ s' t',
    run e save s = Returned None s' ∧ same_memory s' s ∧
    disk s' = File (json_print doc) ∧
    run e load (set_disk (disk s') t) = Returned None t' ∧
    registry_equiv s t' ∧ unlocked t'.
Proof.
  intros doc Hrep Hwr [Hw Hr] Hsub.
  destruct (unmarshal_marshal s t Hsub) as (m' & h' & Hun & Heq).
  exists (set_disk (File (json_print doc)) s),
         (set_lock false 0 (set_store m' h' (set_disk (File (json_print doc)) t))).
  unfold save, load, same_memory. subst doc.
  repeat split.
  - simpl. by rewrite Hwr.
  - simpl. rewrite Hw, Hr. simpl. rewrite Hrep. simpl. rewrite Hun. done.
  - intros key. by rewrite Heq.
Qed.

(** ** Goroutines: what every interleaving preserves *)

Lemma handleTranscode_shape (r : Request) : go_after_store [] (handleTranscode r).
Proof.
  unfold handleTranscode.
  repeat (first [ done | split | intros [] | intros ? | progress simpl
                | set_solver
                | match goal with
                  | |- context [if ?b then _ else _] => destruct b
                  | |- context [match ?x with _ => _ end] => destruct x
                  end ]).
Qed.

Lemma handleStatus_shape (r : Request) : go_after_store [] (handleStatus r).
Proof.
  unfold handleStatus.
  repeat (first [ done | split | intros [] | intros ? | progress simpl
                | match goal with
                  | |- context [if ?b then _ else _] => destruct b
                  | |- context [match ?x with _ => _ end] => destruct x
                  end ]).
Qed.

Lemma transcode_shape (vp od v : string) :
  all_actions (job_action v) (transcode vp od v).
Proof.
  unfold transcode.
  repeat (first [ done | split | intros [] | intros ? | progress simpl
                | by left | by right
                | match goal with
                  | |- context [match ?x with _ => _ end] => destruct x
                  end ]).
Qed.

Lemma decode_members_heap (ms : list (string * json)) (m0 m' : gmap string ptr)
    (h0 h' : list VideoMapping) (b b' : bool) :
  fold_left decode_member ms (m0, h0, b) = (m', h', b') →
  ∃ ext, h' = (h0 ++ ext)%list.
Proof.
  revert m0 h0 b. induction ms as [| km ms IH]; intros m0 h0 b Hf; simpl in Hf.
  - simplify_eq. exists []. by rewrite app_nil_r.
  - destruct (decode_elem km.2) as [[v |] e'].
    + apply IH in Hf as [ext ->]. exists (v :: ext). by rewrite <- app_assoc.
    + by apply IH in Hf.
Qed.

(** Decoding only ever allocates. *)
Lemma unmarshal_value_heap (j : json) (m m' : option (gmap string ptr))
    (h h' : list VideoMapping) (b : bool) :
  unmarshal_value j m h = (m', h', b) → ∃ ext, h' = (h ++ ext)%list.
Proof.
  destruct j; simpl; intros Hu; simplify_eq;
    try (by exists []; rewrite app_nil_r).
  destruct (fold_left decode_member members _) as [[m2 h2] e2] eqn:Hf.
  simplify_eq. by eapply decode_members_heap.
Qed.

(** Whatever an action does, it keeps every record where it is and leaves
    its name and directory alone; the status changes only if the action is
    a status write, to the status written. *)
Lemma exec_frame {X : Type} (e : Env) (a : action X) (s s' : Shared) (x : X)
    (l : nat) (rec : VideoMapping) :
  exec e a s = Stepped x s' → heap s !! l = Some rec →
  ∃ rec', heap s' !! l = Some rec' ∧
          OriginalName rec' = OriginalName rec ∧
          TranscodeDir rec' = TranscodeDir rec ∧
          (Status rec' = Status rec ∨ status_written a = Some (Status rec')).
Proof.
  intros Hex Hl.
  destruct a; simpl in Hex;
    repeat case_match; simplify_eq/=; try (by exists rec; eauto).
  - (* AMapStore *)
    exists rec. rewrite lookup_app_l by (by eapply lookup_lt_Some). eauto.
  - (* ASetStatusAt *)
    destruct (decide (l = l0)) as [-> | Hne].
    + eexists. rewrite list_lookup_insert_eq by (by eapply lookup_lt_Some).
      split; [done |]. simplify_eq/=. eauto.
    + exists rec. rewrite list_lookup_insert_ne by done. eauto.
  - (* AUnmarshal, with a type error *)
    match goal with
    | Hu : unmarshal_value _ _ _ = _ |- _ =>
        apply unmarshal_value_heap in Hu as [ext ->]
    end.
    exists rec. rewrite lookup_app_l by (by eapply lookup_lt_Some). eauto.
  - (* AUnmarshal, without *)
    match goal with
    | Hu : unmarshal_value _ _ _ = _ |- _ =>
        apply unmarshal_value_heap in Hu as [ext ->]
    end.
    exists rec. rewrite lookup_app_l by (by eapply lookup_lt_Some). eauto.
Qed.

Lemma exec_panics_same {X : Type} (e : Env) (a : action X) (s s' : Shared)
    (why : Panic) :
  exec e a s = Panics why s' → s' = s.
Proof.
  intros Hex. destruct a; simpl in Hex; by repeat case_match; simplify_eq/=.
Qed.

Lemma record_at_frame (s s' : Shared) (key : string) :
  mappings s' = mappings s →
  (∀ l, is_Some (heap s !! l) → is_Some (heap s' !! l)) →
  live_key s key → live_key s' key.
Proof.
  unfold live_key, record_at. intros -> Hh.
  destruct (mappings s) as [m |]; simpl; [| done].
  destruct (m !! key) as [[| l] |]; simpl; auto.
Qed.

(** No action but the decoding of a file unbinds a key or loses its
    record. *)
Lemma exec_keeps_live {X : Type} (e : Env) (a : action X) (s s' : Shared) (x : X)
    (key : string) :
  exec e a s = Stepped x s' →
  match a with AUnmarshal _ => False | _ => True end →
  live_key s key → live_key s' key.
Proof.
  intros Hex Hno Hlive.
  destruct a; simpl in Hex; try done;
    repeat case_match; simplify_eq/=;
    try (by match type of Hlive with
            | live_key ?s0 _ => eapply (record_at_frame s0); [.. | exact Hlive]
            end).
  - (* AMapStore *)
    unfold live_key, record_at in *. simpl.
    match goal with Hm : mappings s = Some _ |- _ => rewrite Hm in Hlive end.
    simpl in Hlive. destruct (decide (key0 = key)) as [-> | Hne].
    + rewrite lookup_insert_eq. simpl.
      rewrite lookup_app_r by done. by rewrite Nat.sub_diag.
    + rewrite lookup_insert_ne by done.
      destruct (g !! key) as [[| l] |]; simpl in *; try done.
      destruct Hlive as [rec Hl]. exists rec.
      rewrite lookup_app_l; [done | by eapply lookup_lt_Some].
  - (* ASetStatusAt *)
    eapply (record_at_frame s); [done | | exact Hlive]. simpl.
    intros l' [rec Hl]. rewrite list_lookup_insert. case_decide; eauto.
Qed.

Lemma exec_store_live (e : Env) (key : string) (v : VideoMapping) (s s' : Shared)
    (x : unit) :
  exec e (AMapStore key v) s = Stepped x s' → live_key s' key.
Proof.
  simpl. destruct (mappings s) as [m |]; intros Hex; simplify_eq.
  unfold live_key, record_at. simpl. rewrite lookup_insert_eq. simpl.
  rewrite lookup_app_r by done. by rewrite Nat.sub_diag.
Qed.

Lemma thread_ok_mono (s s' : Shared) (th : Thread) :
  (∀ key, live_key s key → live_key s' key) → thread_ok s th → thread_ok s' th.
Proof.
  intros Hmono. destruct th as [p | v p |]; simpl; [| | done].
  - intros (stored & Hp & Hlive). exists stored. split; [done |].
    eapply Forall_impl; eauto.
  - intros [Hp Hlive]. auto.
Qed.

Lemma handler_step_ok {X : Type} (e : Env) (a : action X) (k : X → Prog Response)
    (s s' : Shared) (x : X) :
  thread_ok s (Handler (Act a k)) → exec e a s = Stepped x s' →
  (∀ key, live_key s key → live_key s' key) ∧
  thread_ok s' (Handler (k x)) ∧ Forall (thread_ok s') (spawned a).
Proof.
  intros (stored & [Ha Hk] & Hlive) Hex.
  assert (∀ key, live_key s key → live_key s' key) as Hmono.
  { intros key. eapply exec_keeps_live; [done |]. by destruct a. }
  split; [done |]. split.
  - eexists. split; [apply Hk |].
    destruct a; try (by eapply Forall_impl; eauto).
    apply Forall_cons. split; [by eapply exec_store_live |].
    eapply Forall_impl; eauto.
  - destruct a; simpl; try done.
    apply Forall_singleton. split; [apply transcode_shape |].
    apply Hmono. rewrite Forall_forall in Hlive. by apply Hlive.
Qed.

Lemma job_step_ok {X : Type} (e : Env) (a : action X) (k : X → Prog unit)
    (v : string) (s s' : Shared) (x : X) :
  thread_ok s (Runner v (Act a k)) → exec e a s = Stepped x s' →
  (∀ key, live_key s key → live_key s' key) ∧
  thread_ok s' (Runner v (k x)) ∧ spawned a = [].
Proof.
  intros [[Ha Hk] Hlive] Hex.
  assert (∀ key, live_key s key → live_key s' key) as Hmono.
  { intros key. eapply exec_keeps_live; [done |]. by destruct a. }
  split; [done |]. split; [split; auto |]. by destruct a.
Qed.

(** Soundness is kept by every event. *)
Lemma pool_step_sound (ev : Event) (w w' : World) :
  sound w → pool_step ev w = Some w' → sound w'.
Proof.
  unfold sound, pool_step. intros Hs Hstep.
  destruct (crashed w); [done |].
  destruct ev as [r | r | tid e].
  - simplify_eq/=. apply Forall_app. split; [done |].
    apply Forall_singleton. exists []. split; [apply handleTranscode_shape | done].
  - simplify_eq/=. apply Forall_app. split; [done |].
    apply Forall_singleton. exists []. split; [apply handleStatus_shape | done].
  - destruct (threads w !! tid) as [[[r | X a k] | v [r | X a k] |] |] eqn:Hth;
      try done.
    + assert (thread_ok (shared w) (Handler (Act a k))) as Hok.
      { rewrite Forall_lookup in Hs. by eapply Hs. }
      destruct (exec e a (shared w)) as [x s' | | why s'] eqn:Hex; [| done |].
      * destruct (handler_step_ok e a k _ _ x Hok Hex) as (Hmono & Hk & Hsp).
        simplify_eq/=. apply Forall_app. split; [| done].
        apply Forall_insert; [| done].
        eapply Forall_impl; [exact Hs |]. intros th. by apply thread_ok_mono.
      * apply exec_panics_same in Hex as ->. simplify_eq/=.
        by apply Forall_insert.
    + assert (thread_ok (shared w) (Runner v (Act a k))) as Hok.
      { rewrite Forall_lookup in Hs. by eapply Hs. }
      destruct (exec e a (shared w)) as [x s' | | why s'] eqn:Hex; [| done |].
      * destruct (job_step_ok e a k v _ _ x Hok Hex) as (Hmono & Hk & Hsp).
        simplify_eq/=. rewrite Hsp, app_nil_r.
        apply Forall_insert; [| done].
        eapply Forall_impl; [exact Hs |]. intros th. by apply thread_ok_mono.
      * apply exec_panics_same in Hex as ->. by simplify_eq/=.
Qed.

Lemma schedule_sound (evs : list Event) (w w' : World) :
  sound w → schedule evs w = Some w' → sound w'.
Proof.
  revert w. induction evs as [| ev evs IH]; intros w Hs Hrun; simpl in Hrun.
  - by simplify_eq.
  - destruct (pool_step ev w) as [w1 |] eqn:Hstep; [| done].
    eapply IH; [| done]. by eapply pool_step_sound.
Qed.

Lemma record_kept_refl (s : Shared) : record_kept s s.
Proof. intros l rec Hl. exists rec. eauto. Qed.

Lemma record_kept_trans (s1 s2 s3 : Shared) :
  record_kept s1 s2 → record_kept s2 s3 → record_kept s1 s3.
Proof.
  intros H12 H23 l rec Hl.
  destruct (H12 l rec Hl) as (rec2 & Hl2 & Ho2 & Hd2 & Hs2).
  destruct (H23 l rec2 Hl2) as (rec3 & Hl3 & Ho3 & Hd3 & Hs3).
  exists rec3. rewrite Ho3, Hd3. repeat split; try done.
  destruct Hs3 as [-> | Hs3]; [done | by right].
Qed.

Lemma pool_step_frame (ev : Event) (w w' : World) :
  sound w → pool_step ev w = Some w' →
  record_kept (shared w) (shared w') ∧
  ∀ key, live_key (shared w) key → live_key (shared w') key.
Proof.
  unfold sound, pool_step. intros Hs Hstep.
  destruct (crashed w); [done |].
  destruct ev as [r | r | tid e];
    try (simplify_eq/=; split; [apply record_kept_refl | done]).
  destruct (threads w !! tid) as [[[r | X a k] | v [r | X a k] |] |] eqn:Hth;
    try done.
  - assert (thread_ok (shared w) (Handler (Act a k))) as Hok.
    { rewrite Forall_lookup in Hs. by eapply Hs. }
    destruct (exec e a (shared w)) as [x s' | | why s'] eqn:Hex; [| done |].
    + destruct (handler_step_ok e a k _ _ x Hok Hex) as (Hmono & _ & _).
      simplify_eq/=. split; [| done]. intros l rec Hl.
      destruct (exec_frame e a _ _ x l rec Hex Hl) as (rec' & ? & ? & ? & Hst).
      exists rec'. repeat split; try done. left.
      destruct Hst as [? | Hst]; [done |].
      destruct Hok as (stored & [Ha _] & _). by destruct a.
    + apply exec_panics_same in Hex as ->. simplify_eq/=.
      split; [apply record_kept_refl | done].
  - assert (thread_ok (shared w) (Runner v (Act a k))) as Hok.
    { rewrite Forall_lookup in Hs. by eapply Hs. }
    destruct (exec e a (shared w)) as [x s' | | why s'] eqn:Hex; [| done |].
    + destruct (job_step_ok e a k v _ _ x Hok Hex) as (Hmono & _ & _).
      simplify_eq/=. split; [| done]. intros l rec Hl.
      destruct (exec_frame e a _ _ x l rec Hex Hl) as (rec' & ? & ? & ? & Hst).
      exists rec'. repeat split; try done.
      destruct Hst as [? | Hst]; [by left | right].
      destruct Hok as [[Ha _] _]. destruct a; simplify_eq/=.
      by destruct Ha as [_ [-> | ->]]; [left | right].
    + apply exec_panics_same in Hex as ->. simplify_eq/=.
      split; [apply record_kept_refl | done].
Qed.

(** Across any interleaving of a sound pool: every record stays in the
    heap with its name and directory, its status is the old one or a
    terminal one, and every key that has a record keeps one. *)
Lemma lifecycle_frame (evs : list Event) (w w' : World) :
  sound w → schedule evs w = Some w' →
  record_kept (shared w) (shared w') ∧
  ∀ key, live_key (shared w) key → live_key (shared w') key.
Proof.
  revert w. induction evs as [| ev evs IH]; intros w Hs Hrun; simpl in Hrun.
  - simplify_eq. split; [apply record_kept_refl | done].
  - destruct (pool_step ev w) as [w1 |] eqn:Hstep; [| done].
    destruct (pool_step_frame ev w w1 Hs Hstep) as [Hk1 Hl1].
    destruct (IH w1 (pool_step_sound ev w w1 Hs Hstep) Hrun) as [Hk2 Hl2].
    split; [by eapply record_kept_trans | auto].
Qed.

(** The data model is kept: no action of a handler or of a job breaks it. *)
Lemma exec_keeps_derived {X : Type} (e : Env) (a : action X) (s s' : Shared) (x : X) :
  exec e a s = Stepped x s' →
  match a with
  | AUnmarshal _ => False
  | AMapStore key v => OriginalName v = key ∧ TranscodeDir v = stem key
  | _ => True
  end →
  derived s → derived s'.
Proof.
  intros Hex Ha Hd.
  destruct a; simpl in Hex; try done;
    repeat case_match; simplify_eq/=; try done.
  - (* AMapStore *)
    intros m key' l Hm Hk. simpl in *. simplify_eq.
    destruct (decide (key = key')) as [-> | Hne].
    + rewrite lookup_insert_eq in Hk. simplify_eq.
      exists v. rewrite lookup_app_r by done. by rewrite Nat.sub_diag.
    + rewrite lookup_insert_ne in Hk by done.
      destruct (Hd _ key' l ltac:(eassumption) Hk) as (rec & Hl & ?).
      exists rec. rewrite lookup_app_l; [done | by eapply lookup_lt_Some].
  - (* ASetStatusAt *)
    intros m key' l' Hm Hk. simpl in *.
    destruct (Hd m key' l' Hm Hk) as (rec & Hl & Ho & Hdir).
    rewrite list_lookup_insert. case_decide as Hc.
    + destruct Hc as [-> _]. simplify_eq. eexists. split; [done |]. done.
    + by exists rec.
Qed.

Lemma pool_step_derived (ev : Event) (w w' : World) :
  sound w → pool_step ev w = Some w' → derived (shared w) → derived (shared w').
Proof.
  unfold sound, pool_step. intros Hs Hstep Hd.
  destruct (crashed w); [done |].
  destruct ev as [r | r | tid e]; try (by simplify_eq/=).
  destruct (threads w !! tid) as [[[r | X a k] | v [r | X a k] |] |] eqn:Hth;
    try done.
  - assert (thread_ok (shared w) (Handler (Act a k))) as (stored & [Ha _] & _).
    { rewrite Forall_lookup in Hs. by eapply Hs. }
    destruct (exec e a (shared w)) as [x s' | | why s'] eqn:Hex; [| done |].
    + simplify_eq/=. eapply exec_keeps_derived; [done | | done]. by destruct a.
    + apply exec_panics_same in Hex as ->. by simplify_eq/=.
  - assert (thread_ok (shared w) (Runner v (Act a k))) as [[Ha _] _].
    { rewrite Forall_lookup in Hs. by eapply Hs. }
    destruct (exec e a (shared w)) as [x s' | | why s'] eqn:Hex; [| done |].
    + simplify_eq/=. eapply exec_keeps_derived; [done | | done]. by destruct a.
    + apply exec_panics_same in Hex as ->. by simplify_eq/=.
Qed.

(** From a registry that fits the data model, every interleaving leads to
    one that does: the stored directory of a record is the stem of the
    name it is found under. *)
Lemma schedule_derived (evs : list Event) (w w' : World) :
  sound w → schedule evs w = Some w' → derived (shared w) → derived (shared w').
Proof.
  revert w. induction evs as [| ev evs IH]; intros w Hs Hrun Hd; simpl in Hrun.
  - by simplify_eq.
  - destruct (pool_step ev w) as [w1 |] eqn:Hstep; [| done].
    eapply (IH w1); [by eapply pool_step_sound | done | by eapply pool_step_derived].
Qed.

(** C9. [state.mappings[videoName].Status = ...] checks nothing: in a
    state where the name has no record it panics on the nil pointer.  In
    any state a pool reaches from one in which every job has its record
    (jobs are only started by the submission handler, after it has stored
    the record), a job that is about to write a status writes it under its
    own name, the record is there, and the write goes through. *)
Theorem job_status_write_finds_record (evs : list Event) (w0 w : World)
    (tid : nat) (v key x : string) (k : unit → Prog unit) (e : Env) :
  sound w0 → schedule evs w0 = Some w →
  threads w !! tid = Some (Runner v (Act (ASetStatusAt key x) k)) →
  (∀ s, ¬ live_key s key →
     exec e (ASetStatusAt key x) s = Panics NilDereference s) ∧
  key = v ∧ live_key (shared w) v ∧
  ∃ s', exec e (ASetStatusAt key x) (shared w) = Stepped () s'.
Proof.
  intros Hs0 Hrun Hth. split.
  - intros s Hno. simpl. unfold live_key, record_at, map_index in *.
    destruct (mappings s) as [m |]; simpl in *; [| done].
    destruct (m !! key) as [[| l] |]; simpl in *; try done.
    destruct (heap s !! l); [| done]. by destruct Hno.
  - assert (thread_ok (shared w) (Runner v (Act (ASetStatusAt key x) k)))
      as [[[-> _] _] Hlive].
    { pose proof (schedule_sound evs w0 w Hs0 Hrun) as Hs.
      unfold sound in Hs. rewrite Forall_lookup in Hs. by eapply Hs. }
    split; [done |]. split; [done |].
    destruct Hlive as [rec Hrec].
    apply record_at_index in Hrec as (l & Hidx & Hl).
    simpl. rewrite Hidx. simpl. rewrite Hl. eauto.
Qed.

(** ** The write lock *)

Lemma section_ok_holds {R : Type} (b : bool) (p : Prog R) :
  section_ok b p → holds p = b.
Proof.
  revert b. induction p as [r | X a k IH]; intros b; simpl; [done |].
  destruct a; simpl; try (by intros [-> _]); try (by intros Hk; apply IH); 
  try (by intros [_ Hk]; apply IH).
Qed.

Lemma handleTranscode_section (r : Request) : section_ok false (handleTranscode r).
Proof.
  unfold handleTranscode.
  repeat (first [ done | split | intros [] | intros ? | progress simpl
                | match goal with
                  | |- context [if ?b then _ else _] => destruct b
                  | |- context [match ?x with _ => _ end] => destruct x
                  end ]).
Qed.

Lemma handleStatus_section (r : Request) : section_ok false (handleStatus r).
Proof.
  unfold handleStatus.
  repeat (first [ done | split | intros [] | intros ? | progress simpl
                | match goal with
                  | |- context [if ?b then _ else _] => destruct b
                  | |- context [match ?x with _ => _ end] => destruct x
                  end ]).
Qed.

Lemma transcode_section (vp od v : string) : section_ok false (transcode vp od v).
Proof.
  unfold transcode.
  repeat (first [ done | split | intros [] | intros ? | progress simpl
                | match goal with
                  | |- context [match ?x with _ => _ end] => destruct x
                  end ]).
Qed.

Lemma section_step {X R : Type} (a : action X) (k : X → Prog R) (b : bool) (x : X) :
  section_ok b (Act a k) →
  holds (Act a k) = b ∧ section_ok (after a b) (k x) ∧ holds (k x) = after a b.
Proof.
  intros Hsec. pose proof (section_ok_holds _ _ Hsec) as Hb.
  split; [done |].
  assert (section_ok (after a b) (k x)) as Hk.
  { destruct a; simpl in Hsec |- *; try apply Hsec. }
  split; [done |]. by apply section_ok_holds.
Qed.

Lemma exec_lock {X : Type} (e : Env) (a : action X) (s s' : Shared) (x : X) :
  exec e a s = Stepped x s' → lock_ok s →
  lock_ok s' ∧ writer s' = after a (writer s) ∧
  match a with
  | ALock => writer s = false
  | AUnlock => writer s = true
  | _ => True
  end.
Proof.
  unfold lock_ok. intros Hex Hlock.
  destruct a; simpl in Hex |- *; repeat case_match; simplify_eq/=;
    repeat split; try done; try (intros; congruence); auto.
  intros Hw. specialize (Hlock Hw). lia.
Qed.

Lemma lookup_pool (l sp : list Thread) (tid i : nat) (th th' : Thread) :
  (<[tid := th']> l ++ sp)%list !! i = Some th →
  (i = tid ∧ th = th' ∧ tid < length l) ∨ (i ≠ tid ∧ l !! i = Some th) ∨ th ∈ sp.
Proof.
  intros Hl. apply lookup_app_Some in Hl as [Hl | [_ Hl]].
  - apply list_lookup_insert_Some in Hl as [(-> & -> & ?) | [? ?]]; auto.
  - right. right. by eapply list_elem_of_lookup_2.
Qed.

Lemma step_exclusive {R X : Type} (mk : Prog R → Thread) (w : World) (tid : nat)
    (a : action X) (k : X → Prog R) (e : Env) (x : X) (s' : Shared)
    (sp : list Thread) :
  (∀ p, holding (mk p) ↔ holds p = true) →
  (∀ p, disciplined (mk p) ↔ section_ok (holds p) p) →
  exclusive w → threads w !! tid = Some (mk (Act a k)) →
  exec e a (shared w) = Stepped x s' →
  Forall (λ th, disciplined th ∧ ¬ holding th) sp →
  exclusive (mkWorld s' (<[tid := mk (k x)]> (threads w) ++ sp)%list false).
Proof.
  intros Hmh Hmd (Hdis & Hlock & Hex) Hth Hstep Hsp.
  assert (section_ok (holds (Act a k)) (Act a k)) as Hsec.
  { apply Hmd. rewrite Forall_lookup in Hdis. by eapply Hdis. }
  destruct (section_step a k _ x Hsec) as (_ & Hk & Hhk).
  destruct (exec_lock e a _ _ x Hstep Hlock) as (Hlock' & Hw' & Ha).
  assert (∀ i th, i ≠ tid → threads w !! i = Some th → holding th →
          holds (Act a k) = false ∧ writer s' = true) as Hother.
  { intros i th Hne Hi Hh. destruct (Hex i th Hi Hh) as [Hw Huniq].
    assert (holds (Act a k) = false) as Hb.
    { destruct (holds (Act a k)) eqn:Hb; [| done].
      destruct Hne. symmetry. eapply Huniq; [exact Hth |]. by apply Hmh. }
    split; [done |]. rewrite Hw', Hw. rewrite Hb in Hsec.
    destruct a; simpl in *; done. }
  split; [| split; [done |]]; simpl.
  - apply Forall_app. split.
    + apply Forall_insert; [done |]. apply Hmd. by rewrite Hhk.
    + eapply Forall_impl; [exact Hsp |]. by intros th [? _].
  - intros i th Hi Hh.
    apply lookup_pool in Hi as [(-> & -> & Hlt) | [[Hne Hi] | Hi]].
    + apply Hmh in Hh. rewrite Hhk in Hh.
      assert (writer s' = true ∧
              (holds (Act a k) = false → writer (shared w) = false)) as [Hws Hfree].
      { rewrite Hw'. destruct (holds (Act a k)) eqn:Hb.
        - destruct (Hex tid _ Hth) as [Hw _]; [by apply Hmh |].
          split; [| done]. destruct a; simpl in *; rewrite ?Hw; done.
        - destruct a; simpl in *; done. }
      split; [done |]. intros j th' Hj Hh'.
      apply lookup_pool in Hj as [(-> & _) | [[Hne Hj] | Hj]]; [done | |].
      * destruct (Hex j th' Hj Hh') as [Hw Huniq].
        destruct (holds (Act a k)) eqn:Hb.
        -- symmetry. eapply Huniq; [exact Hth |]. by apply Hmh.
        -- rewrite Hfree in Hw; done.
      * rewrite Forall_forall in Hsp. by destruct (Hsp th' Hj).
    + destruct (Hother i th Hne Hi Hh) as [Hb Hws]. split; [done |].
      intros j th' Hj Hh'.
      apply lookup_pool in Hj as [(-> & -> & _) | [[Hne' Hj] | Hj]].
      * apply Hmh in Hh'. rewrite Hhk, Hb in Hh'.
        destruct (Hex i th Hi Hh) as [Hw _].
        destruct a; simpl in *; congruence.
      * destruct (Hex i th Hi Hh) as [_ Huniq]. by eapply Huniq.
      * rewrite Forall_forall in Hsp. by destruct (Hsp th' Hj).
    + rewrite Forall_forall in Hsp. by destruct (Hsp th Hi).
Qed.

Lemma spawned_outside {X : Type} (a : action X) :
  Forall (λ th, disciplined th ∧ ¬ holding th) (spawned a).
Proof.
  destruct a; simpl; try done. apply Forall_singleton.
  pose proof (transcode_section videoPath outputDir videoName) as Hsec.
  pose proof (section_ok_holds _ _ Hsec) as Hh.
  unfold disciplined, holding. rewrite Hh. split; [done | congruence].
Qed.

Lemma arrival_exclusive (w : World) (p : Prog Response) :
  exclusive w → section_ok false p →
  exclusive (mkWorld (shared w) (threads w ++ [Handler p])%list false).
Proof.
  intros (Hdis & Hlock & Hex) Hsec.
  pose proof (section_ok_holds _ _ Hsec) as Hh.
  split; [| split; [done |]]; simpl.
  - apply Forall_app. split; [done |]. apply Forall_singleton. simpl. by rewrite Hh.
  - intros i th Hi Hhold.
    apply lookup_app_Some in Hi as [Hi | [_ Hi]].
    + destruct (Hex i th Hi Hhold) as [Hw Huniq]. split; [done |].
      intros j th' Hj Hhold'.
      apply lookup_app_Some in Hj as [Hj | [_ Hj]]; [by eapply Huniq |].
      apply list_lookup_singleton_Some in Hj as [_ <-]. simpl in Hhold'. congruence.
    + apply list_lookup_singleton_Some in Hi as [_ <-]. simpl in Hhold. congruence.
Qed.

Lemma pool_step_exclusive (ev : Event) (w w' : World) :
  exclusive w → pool_step ev w = Some w' → exclusive w'.
Proof.
  unfold pool_step. intros Hx Hstep.
  destruct (crashed w); [done |].
  destruct ev as [r | r | tid e].
  - simplify_eq. apply arrival_exclusive; [done | apply handleTranscode_section].
  - simplify_eq. apply arrival_exclusive; [done | apply handleStatus_section].
  - destruct (threads w !! tid) as [[[r | X a k] | v [r | X a k] |] |] eqn:Hth;
      try done.
    + destruct (exec e a (shared w)) as [x s' | | why s'] eqn:Hex; [| done |].
      * simplify_eq. eapply (step_exclusive Handler); eauto using spawned_outside.
      * apply exec_panics_same in Hex as ->. simplify_eq.
        destruct Hx as (Hdis & Hlock & Hex). split; [| split; [done |]]; simpl.
        -- by apply Forall_insert.
        -- intros i th Hi Hh.
           apply list_lookup_insert_Some in Hi as [(-> & <- & ?) | [? Hi]]; [done |].
           destruct (Hex i th Hi Hh) as [Hw Huniq]. split; [done |].
           intros j th' Hj Hh'.
           apply list_lookup_insert_Some in Hj as [(-> & <- & ?) | [? Hj]]; [done |].
           by eapply Huniq.
    + destruct (exec e a (shared w)) as [x s' | | why s'] eqn:Hex; [| done |].
      * simplify_eq. eapply (step_exclusive (Runner v)); eauto using spawned_outside.
      * apply exec_panics_same in Hex as ->. by simplify_eq.
Qed.

(** Every interleaving keeps mutual exclusion. *)
Lemma schedule_exclusive (evs : list Event) (w w' : World) :
  exclusive w → schedule evs w = Some w' → exclusive w'.
Proof.
  revert w. induction evs as [| ev evs IH]; intros w Hx Hrun; simpl in Hrun.
  - by simplify_eq.
  - destruct (pool_step ev w) as [w1 |] eqn:Hstep; [| done].
    eapply IH; [| done]. by eapply pool_step_exclusive.
Qed.

(** [handleStatus] reads the fields of the record after it has released
    the read lock. *)
Lemma handleStatus_reads_unlocked (r : Request) :
  strings_TrimPrefix (Path r) "/api/status/" ≠ "" →
  ¬ reads_locked false (handleStatus r).
Proof.
  intros Hname Hr. apply String.eqb_neq in Hname.
  unfold handleStatus in Hr. cbv zeta in Hr. rewrite Hname in Hr.
  simpl in Hr. specialize (Hr () (Nil, true) ()). simpl in Hr.
  by destruct Hr as [? _].
Qed.

(** What the lock does give.  In every state a pool reaches, a job that
    is about to set the status, to serialise the registry, to write the
    file or to unlock finds the lock write-held, no read lock is held, and
    no other goroutine is between a [Lock] and its [Unlock]. *)
Lemma job_update_and_save_locked (evs : list Event) (w0 w : World) (tid : nat)
    (v : string) (X : Type) (a : action X) (k : X → Prog unit) :
  exclusive w0 → schedule evs w0 = Some w →
  threads w !! tid = Some (Runner v (Act a k)) →
  match a with
  | ASetStatusAt _ _ | AMarshal | AWriteFile _ | AUnlock => True
  | _ => False
  end →
  writer (shared w) = true ∧ readers (shared w) = 0 ∧
  ∀ j th, threads w !! j = Some th → holding th → j = tid.
Proof.
  intros Hx0 Hrun Hth Ha.
  destruct (schedule_exclusive evs w0 w Hx0 Hrun) as (Hdis & Hlock & Hex).
  assert (holding (Runner v (Act a k))) as Hh.
  { rewrite Forall_lookup in Hdis. specialize (Hdis tid _ Hth). simpl in Hdis |- *.
    destruct a; try done; simpl in *; by destruct Hdis as [-> _]. }
  destruct (Hex tid _ Hth Hh) as [Hw Huniq]. auto.
Qed.

End Proofs.

(** ** Concrete runs *)

Module Runs.
Import Scenario.

#[local] Existing Instance RefLib.lib.

Lemma handleTranscode_policy_witness :
  run fine (handleTranscode submit_a) (registry_with "completed") =
    Returned (JsonBody (already_body (a_with "completed"))) (registry_with "completed") ∧
  run fine (handleTranscode submit_a) (registry_with "processing") =
    Returned (JsonBody running_body) (registry_with "processing") ∧
  ∃ s', run fine (handleTranscode submit_a) (registry_with "failed") =
          Returned (JsonBody (started_body "a.mp4")) s' ∧
        record_at s' "a.mp4" = Some (a_with "processing") ∧
        goroutines s' = [("videos/a.mp4", "transcoded/a", "a.mp4")].
Proof.
  assert (unlocked (registry_with "completed")) as Hu by (by split).
  split; [| split].
  - apply (proj1 (handleTranscode_policy fine (registry_with "completed") submit_a
                    eq_refl ltac:(discriminate) eq_refl Hu)
                 (a_with "completed")); reflexivity.
  - apply (proj1 (proj2 (handleTranscode_policy fine (registry_with "processing") submit_a
                           eq_refl ltac:(discriminate) eq_refl Hu))
                 (a_with "processing")); reflexivity.
  - destruct (proj2 (proj2 (handleTranscode_policy fine (registry_with "failed") submit_a
                              eq_refl ltac:(discriminate) eq_refl Hu))
                    {[ "a.mp4" := Ref 0 ]} eq_refl)
      as (s' & Hrun & _ & _ & Hrec & _ & Hgo & _).
    { right. exists (a_with "failed"). split; reflexivity. }
    exists s'. split; [exact Hrun |]. split; [exact Hrec | exact Hgo].
Defined.

(** C2, at the failing schedule. The job has set the status of a.mp4 in
    memory and still holds the write lock, the file still says
    "processing", and the status query that looked the record up before
    has already answered "completed" with a stream locator. *)
Theorem status_read_between_update_and_save :
  seen_by_query <$> schedule stale_read idle =
  Some (Some (Some (JsonBody (status_body (a_with "completed")))),
        true, [a_with "completed"],
        File (json_print (document "processing"))) ∧
  status_body (a_with "completed") !! "status" = Some "completed" ∧
  status_body (a_with "completed") !! "stream_url" = Some "/hls/a/master.m3u8".
Proof. repeat split; vm_compute; reflexivity. Qed.

(** C3, at the failing schedule. Two submissions of a.mp4 that both look
    the name up before either stores its record are both answered
    "started", and two jobs for a.mp4 are running. *)
Theorem two_jobs_for_one_video :
  jobs_started <$> schedule race idle =
  Some (2,
        [("videos/a.mp4", "transcoded/a", "a.mp4");
         ("videos/a.mp4", "transcoded/a", "a.mp4")],
        [Some (JsonBody (started_body "a.mp4"));
         Some (JsonBody (started_body "a.mp4")); None; None]).
Proof. vm_compute. reflexivity. Qed.

(** C1, at the failing schedule. A second submission of a.mp4 finds the
    record in processing when it compares the status with "completed";
    the job of the first submission then ends and the record is
    completed when the handler compares the status with "processing".
    The record was in one of the two at every moment, and the handler
    stores a second record over it, starts a second job for a.mp4 and
    answers "started". *)
Theorem resubmission_across_job_end :
  memory <$> schedule resubmit_first_check idle =
    Some ([a_with "processing"], Some {[ "a.mp4" := Ref 0 ]}) ∧
  memory <$> schedule resubmit_job_ends idle =
    Some ([a_with "completed"], Some {[ "a.mp4" := Ref 0 ]}) ∧
  memory <$> schedule resubmit_second_check idle =
    Some ([a_with "completed"; a_with "processing"], Some {[ "a.mp4" := Ref 1 ]}) ∧
  jobs_started <$> schedule resubmit_second_check idle =
    Some (1,
          [("videos/a.mp4", "transcoded/a", "a.mp4");
           ("videos/a.mp4", "transcoded/a", "a.mp4")],
          [Some (JsonBody (started_body "a.mp4")); None;
           Some (JsonBody (started_body "a.mp4")); None]).
Proof. repeat split; vm_compute; reflexivity. Qed.

(** C4, at the failing schedule. A status query for a.mp4 reads the
    status of the record, processing, into its answer; the job ends and
    the record is completed; the query reads the status again to decide
    on the stream locator.  The answer says processing and gives the
    locator: it carries the locator although the status it returns is not
    completed, and it is the answer for the record at no moment. *)
Theorem status_answer_from_two_states :
  answered 2 <$> schedule query_first_reads idle =
    Some (None, [a_with "processing"]) ∧
  answered 2 <$> schedule torn_status idle =
    Some (Some (JsonBody torn_body), [a_with "completed"]) ∧
  torn_body !! "status" = Some "processing" ∧
  torn_body !! "stream_url" = Some "/hls/a/master.m3u8" ∧
  status_body (a_with "processing") !! "stream_url" = None ∧
  status_body (a_with "completed") !! "status" = Some "completed".
Proof. repeat split; vm_compute; reflexivity. Qed.

Lemma handleStatus_lookup_witness :
  run fine (handleStatus query_a) (registry_with "completed") =
    Returned (JsonBody (status_body (a_with "completed"))) (registry_with "completed") ∧
  status_body (a_with "completed") !! "stream_url" =
    Some ("/hls/" ++ stem "a.mp4" ++ "/master.m3u8") ∧
  run fine (handleStatus (mkRequest "GET" "/api/status/b.mp4" ""))
      (registry_with "completed") =
    Returned (HttpError 404 "Video not found") (registry_with "completed").
Proof.
  pose proof (handleStatus_lookup fine (registry_with "completed") query_a
                ltac:(discriminate) eq_refl) as (_ & Hrec & _).
  destruct (Hrec (a_with "completed") eq_refl) as (Hrun & _ & _ & _ & _ & _ & Hurl).
  split; [exact Hrun |]. split.
  - apply Hurl; [| reflexivity].
    intros m key l Hm Hk. injection Hm as <-.
    apply lookup_singleton_Some in Hk as [<- Hl]. injection Hl as <-.
    exists (a_with "completed"). repeat split.
  - apply (handleStatus_lookup fine (registry_with "completed")
             (mkRequest "GET" "/api/status/b.mp4" "") ltac:(discriminate) eq_refl).
    intros (m & p & Hm & Hp). injection Hm as <-. vm_compute in Hp. discriminate.
Defined.

Lemma save_load_roundtrip_witness :
  ∃ s' t',
    run fine save (registry_with "completed") = Returned None s' ∧
    disk s' = File (json_print (document "completed")) ∧
    run fine load (initial_state (disk s')) = Returned None t' ∧
    registry_equiv (registry_with "completed") t'.
Proof.
  destruct (save_load_roundtrip fine (registry_with "completed") (initial_state NoFile))
    as (s' & t' & Hs & _ & Hd & Hl & Heq & _).
  - vm_compute. reflexivity.
  - reflexivity.
  - by split.
  - intros key (m & p & Hm & Hp). injection Hm as <-. by rewrite lookup_empty in Hp.
  - exists s', t'. split; [exact Hs |]. split; [exact Hd |].
    split; [exact Hl | exact Heq].
Defined.

(** C6 as stated fails: this file makes [load] return an error, [main]
    logs the warning and goes on, and the registry is not empty: it holds
    the entry of a.mp4, completed. *)
Lemma load_mismatch_keeps_entries :
  ¬ empty_after_load_error fine (File (json_print mismatched)) ∧
  ∃ s', run fine main_startup (initial_state (File (json_print mismatched))) =
          Returned () s' ∧
        logs s' = [LogWarnLoad UnmarshalTypeError] ∧
        record_at s' "a.mp4" = Some (a_with "completed").
Proof.
  split.
  - intros Hempty. eassert (_ = Some ∅) as Hm.
    { eapply Hempty; [vm_compute; reflexivity | done]. }
    apply (f_equal (λ m, m ≫= (λ m : gmap string ptr, m !! "a.mp4"))) in Hm.
    vm_compute in Hm. discriminate.
  - eexists. split; [vm_compute; reflexivity |].
    split; [reflexivity | vm_compute; reflexivity].
Qed.

Lemma failed_save_is_dropped_witness :
  run disk_full save (registry_with "completed") =
    Returned (Some (ErrOS "no space left on device")) (registry_with "completed") ∧
  ∃ s1,
    run disk_full (handleTranscode submit_a) (initial_state NoFile) =
      Returned (JsonBody (started_body "a.mp4")) s1 ∧
    disk s1 = NoFile ∧ logs s1 = [] ∧
    record_at s1 "a.mp4" = Some (a_with "processing").
Proof.
  split.
  - apply (proj1 (failed_save_is_dropped disk_full _ _ (initial_state NoFile)
                    eq_refl ltac:(by split))
                 (registry_with "completed")).
  - destruct (proj1 (proj2 (failed_save_is_dropped disk_full _ _
                              (initial_state NoFile) eq_refl ltac:(by split)))
                    submit_a ∅ eq_refl ltac:(discriminate) eq_refl eq_refl)
      as (s1 & s2 & H1 & _ & _ & Hd & Hl & Hr).
    { left. apply lookup_empty. }
    exists s1. split; [exact H1 |]. split; [exact Hd |].
    split; [exact Hl | exact Hr].
Defined.

(** C7 as stated fails: with a failing [os.WriteFile] the accepting
    submission logs nothing at all, and the job logs the two lines it logs
    when the write succeeds. *)
Lemma failed_save_not_logged :
  write_err disk_full ≠ None ∧
  ¬ failed_save_logged disk_full (handleTranscode submit_a) (initial_state NoFile) ∧
  ¬ failed_save_logged disk_full
      (transcode "videos/a.mp4" "transcoded/a" "a.mp4") (registry_with "processing") ∧
  logged_by disk_full (handleTranscode submit_a) (initial_state NoFile) = [] ∧
  logged_by disk_full (transcode "videos/a.mp4" "transcoded/a" "a.mp4")
            (registry_with "processing") =
    [LogStart "a.mp4"; LogCompleted "a.mp4"].
Proof.
  split; [done |].
  split; [intros Hne; apply Hne; vm_compute; reflexivity |].
  split; [intros Hne; apply Hne; vm_compute; reflexivity |].
  split; vm_compute; reflexivity.
Qed.

(** C8, at the failing schedule. After the race of C3 the registry points
    to the second record while the first, still "processing", is out of
    the map; the first job then sets the second record to "failed" and
    the second job sets the same record to "completed". *)
Theorem record_status_written_twice :
  memory <$> schedule race idle =
    Some ([a_with "processing"; a_with "processing"], Some {[ "a.mp4" := Ref 1 ]}) ∧
  memory <$> schedule race_then_first_job idle =
    Some ([a_with "processing"; a_with "failed"], Some {[ "a.mp4" := Ref 1 ]}) ∧
  memory <$> schedule race_then_both_jobs idle =
    Some ([a_with "processing"; a_with "completed"], Some {[ "a.mp4" := Ref 1 ]}).
Proof. repeat split; vm_compute; reflexivity. Qed.

Lemma job_status_write_finds_record_witness :
  ∃ w, schedule until_write idle = Some w ∧ live_key (shared w) "a.mp4" ∧
       ∃ s', exec fine (ASetStatusAt "a.mp4" "completed") (shared w) = Stepped () s'.
Proof.
  eexists. split; [vm_compute; reflexivity |].
  assert (sound idle) as Hs by (apply Forall_nil; exact I).
  refine (proj2 (proj2 (job_status_write_finds_record until_write idle _ 1
            "a.mp4" "a.mp4" "completed" _ fine Hs _ _))).
  - vm_compute. reflexivity.
  - reflexivity.
Defined.

Lemma handleTranscode_stat_witness :
  run absent (handleTranscode submit_a) (initial_state NoFile) =
    Returned (HttpError 404 "Video not found") (initial_state NoFile) ∧
  os_IsNotExist (stat_err absent) = true ∧
  run denied (handleTranscode submit_a) (initial_state NoFile) =
    run fine (handleTranscode submit_a) (initial_state NoFile) ∧
  ∃ s', run denied (handleTranscode submit_a) (initial_state NoFile) =
          Returned (JsonBody (started_body "a.mp4")) s' ∧
        record_at s' "a.mp4" = Some (a_with "processing") ∧
        goroutines s' = [("videos/a.mp4", "transcoded/a", "a.mp4")].
Proof.
  assert (run absent (handleTranscode submit_a) (initial_state NoFile) =
          Returned (HttpError 404 "Video not found") (initial_state NoFile)) as Hrun.
  { apply (handleTranscode_stat absent (initial_state NoFile) submit_a);
      [reflexivity | discriminate | reflexivity]. }
  split; [exact Hrun |]. split; [| split].
  - exact (proj1 (proj2 (handleTranscode_stat absent (initial_state NoFile) submit_a))
             _ _ Hrun).
  - apply (handleTranscode_stat denied (initial_state NoFile) submit_a). reflexivity.
  - destruct (proj2 (proj2 (proj2 (handleTranscode_stat denied (initial_state NoFile)
                                     submit_a)))
                ∅ eq_refl ltac:(discriminate) eq_refl ltac:(by split) eq_refl)
      as (s' & Hacc & _ & _ & _ & Hrec & Hgo).
    { left. apply lookup_empty. }
    exists s'. split; [exact Hacc |]. split; [exact Hrec | exact Hgo].
Defined.

(** The scenario of the specification: a.mp4 is submitted and accepted;
    submitted again at once it is answered "currently being transcoded"
    and no second job starts; the encoder exits 0 and the job ends; the
    status query then answers completed with "/hls/a/master.m3u8". *)
Example submit_resubmit_complete_query :
  (λ w, (answers w, active_jobs "a.mp4" w, goroutines (shared w)))
    <$> schedule ([Submit submit_a] ++ steps 0 11 fine ++
                  [Submit submit_a] ++ steps 2 6 fine ++
                  steps 1 8 fine ++
                  [Query query_a] ++ steps 3 8 fine)%list idle =
  Some ([Some (JsonBody (started_body "a.mp4")); None;
         Some (JsonBody running_body);
         Some (JsonBody (status_body (a_with "completed")))],
        0, [("videos/a.mp4", "transcoded/a", "a.mp4")]).
Proof. vm_compute. reflexivity. Qed.

End Runs.

(** * Part IV: further properties *)

(** ** Go strings *)

Section GoStringFacts.

Lemma app_String (c : ascii) (a b : string) : String c a ++ b = String c (a ++ b).
Proof. reflexivity. Qed.

Lemma string_length_app (a b : string) :
  String.length (a ++ b) = String.length a + String.length b.
Proof. induction a as [| c a IH]; [done | rewrite app_String; simpl; by rewrite IH]. Qed.

Lemma string_app_nil_r (a : string) : a ++ "" = a.
Proof. induction a as [| c a IH]; [done | by rewrite app_String, IH]. Qed.

Lemma substring_app_l (a b : string) :
  substring 0 (String.length a) (a ++ b) = a.
Proof.
  induction a as [| c a IH].
  - by destruct b.
  - rewrite app_String. simpl. by rewrite IH.
Qed.

Lemma substring_all (b : string) : substring 0 (String.length b) b = b.
Proof. induction b as [| c b IH]; simpl; [done | by rewrite IH]. Qed.

Lemma substring_app_r (a b : string) :
  substring (String.length a) (String.length b) (a ++ b) = b.
Proof.
  induction a as [| c a IH]; [apply substring_all | by rewrite app_String].
Qed.

Lemma list_of_string_app (a b : string) :
  list_ascii_of_string (a ++ b) =
  (list_ascii_of_string a ++ list_ascii_of_string b)%list.
Proof. induction a as [| c a IH]; [done | rewrite app_String; simpl; by rewrite IH]. Qed.

Lemma string_of_list_app (a b : list ascii) :
  string_of_list_ascii (a ++ b)%list =
  string_of_list_ascii a ++ string_of_list_ascii b.
Proof. induction a as [| c a IH]; simpl; [done | by rewrite app_String, IH]. Qed.

Lemma HasSuffix_app (a b : string) : strings_HasSuffix (a ++ b) b = true.
Proof.
  unfold strings_HasSuffix. rewrite string_length_app.
  apply andb_true_intro. split.
  - apply Nat.leb_le. lia.
  - replace (String.length a + String.length b - String.length b)
      with (String.length a) by lia.
    rewrite substring_app_r. apply String.eqb_refl.
Qed.

Lemma TrimSuffix_app (a b : string) : strings_TrimSuffix (a ++ b) b = a.
Proof.
  unfold strings_TrimSuffix. rewrite HasSuffix_app, string_length_app.
  replace (String.length a + String.length b - String.length b)
    with (String.length a) by lia.
  apply substring_app_l.
Qed.

Lemma TrimPrefix_app (a b : string) : strings_TrimPrefix (a ++ b) a = b.
Proof.
  unfold strings_TrimPrefix, strings_HasPrefix.
  assert (String.prefix a (a ++ b) = true) as ->.
  { apply prefix_correct, substring_app_l. }
  rewrite string_length_app.
  replace (String.length a + String.length b - String.length a)
    with (String.length b) by lia.
  apply substring_app_r.
Qed.

(** The scan returns nothing, or a suffix of the path that starts at a dot
    and has neither dot nor separator after it. *)
Lemma ext_scan_spec (before suffix : list ascii) :
  Forall plain suffix →
  ext_scan before suffix = [] ∨
  ∃ pre t, (rev before ++ suffix)%list = (pre ++ "."%char :: t)%list ∧
           ext_scan before suffix = ("."%char :: t) ∧ Forall plain t.
Proof.
  revert suffix. induction before as [| c more IH]; intros suffix Hs; simpl.
  - by left.
  - destruct (Ascii.eqb c "/") eqn:Hsl; [by left |].
    destruct (Ascii.eqb c ".") eqn:Hdot.
    + apply Ascii.eqb_eq in Hdot as ->. right.
      exists (rev more), suffix. by rewrite <- app_assoc.
    + apply Ascii.eqb_neq in Hsl, Hdot.
      destruct (IH (c :: suffix)) as [-> | (pre & t & Heq & -> & Ht)].
      * by apply Forall_cons.
      * by left.
      * right. exists pre, t. by rewrite <- app_assoc.
Qed.

Lemma ext_scan_skip (t before acc : list ascii) :
  Forall plain t →
  ext_scan (rev t ++ before) acc = ext_scan before (t ++ acc).
Proof.
  revert before acc. induction t as [| c t IH]; intros before acc Ht; [done |].
  apply Forall_cons in Ht as [[Hdot Hsl] Ht]. simpl.
  rewrite <- app_assoc, IH by done. simpl.
  apply Ascii.eqb_neq in Hdot, Hsl. by rewrite Hsl, Hdot.
Qed.


(** The extension is a suffix of the name. *)
Lemma Ext_suffix (path : string) :
  ∃ pre, path = pre ++ filepath_Ext path.
Proof.
  unfold filepath_Ext.
  destruct (ext_scan_spec (rev (list_ascii_of_string path)) [])
    as [-> | (pre & t & Heq & -> & _)]; [done | |].
  - exists path. simpl. by rewrite string_app_nil_r.
  - exists (string_of_list_ascii pre).
    rewrite rev_involutive, app_nil_r in Heq.
    rewrite <- string_of_list_app, <- Heq.
    by rewrite string_of_list_ascii_of_string.
Qed.

Lemma Ext_of_dotted (base ext : string) :
  plain_string ext → filepath_Ext (base ++ "." ++ ext) = "." ++ ext.
Proof.
  intros Hext. unfold filepath_Ext.
  rewrite list_of_string_app. simpl.
  rewrite rev_app_distr. simpl. rewrite <- app_assoc. simpl.
  rewrite ext_scan_skip by done. simpl. rewrite app_nil_r.
  by rewrite string_of_list_ascii_of_string.
Qed.

Lemma Ext_of_plain (name : string) : plain_string name → filepath_Ext name = "".
Proof.
  intros Hn. unfold filepath_Ext.
  replace (rev (list_ascii_of_string name))
    with (rev (list_ascii_of_string name) ++ [])%list by apply app_nil_r.
  by rewrite ext_scan_skip.
Qed.

End GoStringFacts.

Lemma stem_ext (v : string) : stem v ++ filepath_Ext v = v.
Proof.
  unfold stem. destruct (Ext_suffix v) as [pre Hv].
  rewrite Hv at 1 3. rewrite TrimSuffix_app. by rewrite <- Hv.
Qed.

Section MoreProofs.
Context `{GoLib}.

(** ** Names, directories and locators *)

Lemma string_app_inv_head (a b c : string) : a ++ b = a ++ c → b = c.
Proof.
  induction a as [| x a IH]; [done |].
  rewrite !app_String. intros Heq. injection Heq as Heq. auto.
Qed.

Lemma string_app_dot_nonempty (a b : string) : a ++ "." ++ b ≠ "".
Proof. by destruct a. Qed.

Lemma stem_of_dotted (base ext : string) :
  plain_string ext → stem (base ++ "." ++ ext) = base.
Proof.
  intros Hext. unfold stem. rewrite Ext_of_dotted by done. apply TrimSuffix_app.
Qed.

(** X6. The directory of a video is its name without the extension: putting
    the extension [filepath.Ext] finds back onto the directory name
    [handleTranscode] computes gives the name again, so a name without an
    extension is its own directory, and a name that ends in a dot followed
    by bytes that are neither dot nor separator loses exactly that. *)
Theorem stem_with_extension (v base ext : string) :
  stem v ++ filepath_Ext v = v ∧
  (plain_string v → stem v = v) ∧
  (plain_string ext → stem (base ++ "." ++ ext) = base).
Proof.
  split; [apply stem_ext |]. split.
  - intros Hv. unfold stem. rewrite (Ext_of_plain v Hv).
    rewrite <- (string_app_nil_r v) at 1. apply TrimSuffix_app.
  - apply stem_of_dotted.
Qed.

(** ** Handlers run alone: the early returns *)

(** X1. A submission with another method than POST, a POST without a video
    name, and a status query without a name are answered 405, 400 and 400
    before the handler comes to the lock: the answer is given, and the
    state is left as it is, whatever the state is, also while another
    goroutine holds the write lock. *)
Theorem handlers_reject_before_locking (e : Env) (s : Shared) (r : Request) :
  (Method r ≠ "POST" →
     run e (handleTranscode r) s = Returned (HttpError 405 "Method not allowed") s) ∧
  (Method r = "POST" → QueryVideo r = "" →
     run e (handleTranscode r) s =
     Returned (HttpError 400 "Missing 'video' parameter") s) ∧
  (Path r = "/api/status/" →
     run e (handleStatus r) s = Returned (HttpError 400 "Missing video name") s).
Proof.
  repeat split.
  - intros Hm. apply String.eqb_neq in Hm. unfold handleTranscode. by rewrite Hm.
  - intros Hm Hq. unfold handleTranscode. by rewrite Hm, Hq.
  - intros Hp. unfold handleStatus. by rewrite Hp.
Qed.

(** The status handler on a name that has a record. *)
Lemma handleStatus_found (e : Env) (s : Shared) (r : Request) (name : string)
    (rec : VideoMapping) :
  Path r = "/api/status/" ++ name → name ≠ "" → writer s = false →
  record_at s name = Some rec →
  run e (handleStatus r) s = Returned (JsonBody (status_body rec)) s.
Proof.
  intros Hp Hname Hw Hrec. apply String.eqb_neq in Hname.
  apply record_at_index in Hrec as (l & Hidx & Hl).
  unfold handleStatus, status_body. cbv zeta.
  rewrite Hp, TrimPrefix_app, Hname.
  open_state s. simpl. rewrite Hidx. simpl. repeat (rewrite Hl; simpl).
  destruct (Status rec =? "completed"); simpl; by rewrite ?Hl.
Qed.

(** ** A nil entry *)

(** X2. A key bound to the nil pointer, which is what [load] makes of a member
    whose value is [null].  The handlers test that the key exists and then
    read through the pointer: a status query for the name and a submission
    of the name both panic on the nil pointer, with the state as it was and
    the read lock released; the submission never comes to store a record,
    so the entry stays. *)
Theorem nil_entry_panics (e : Env) (s : Shared) (m : gmap string ptr)
    (r : Request) (name : string) :
  mappings s = Some m → m !! name = Some Nil → writer s = false → name ≠ "" →
  (Path r = "/api/status/" ++ name →
     run e (handleStatus r) s = Panicked NilDereference s) ∧
  (Method r = "POST" → QueryVideo r = name → os_IsNotExist (stat_err e) = false →
     run e (handleTranscode r) s = Panicked NilDereference s) ∧
  (∀ data, json_parse data = Some (JObject [(name, JNull)]) →
     ∃ s', run e load (initial_state (File data)) = Returned None s' ∧
           mappings s' = Some {[name := Nil]} ∧ heap s' = []).
Proof.
  intros Hmap Hkey Hw Hname. apply String.eqb_neq in Hname.
  assert (map_index (mappings s) name = (Nil, true)) as Hidx.
  { unfold map_index. by rewrite Hmap, Hkey. }
  repeat split.
  - intros Hp. unfold handleStatus. cbv zeta.
    rewrite Hp, TrimPrefix_app, Hname.
    open_state s. simpl. rewrite Hidx. by simpl.
  - intros Hm Hq Hst. unfold handleTranscode. rewrite Hm, Hq, Hname. simpl negb.
    cbv iota. open_state s. rewrite Hst. simpl. rewrite Hidx. by simpl.
  - intros data Hdata. eexists. split.
    + unfold load, initial_state. simpl. rewrite Hdata. simpl. reflexivity.
    + simpl. split; [| done]. by rewrite insert_empty.
Qed.

(** ** A nil map *)

(** X3. A file that holds [null] is loaded without an error and without a
    warning, and sets the map to nil.  The first submission that gets as
    far as storing its record then panics on the assignment, after [Lock]
    and with no deferred [Unlock]: the write lock stays held, and every
    later status query that names a video, and every later submission of
    a video that is on disk, blocks on the lock. *)
Theorem null_file_wedges_server (e e1 e2 : Env) (data : string) (r r' : Request) :
  json_parse data = Some JNull →
  Method r = "POST" → QueryVideo r ≠ "" → os_IsNotExist (stat_err e1) = false →
  ∃ s s',
    run e main_startup (initial_state (File data)) = Returned () s ∧
    mappings s = None ∧ logs s = [] ∧ unlocked s ∧
    run e1 (handleTranscode r) s = Panicked NilMapAssignment s' ∧
    writer s' = true ∧
    (strings_TrimPrefix (Path r') "/api/status/" ≠ "" →
       run e2 (handleStatus r') s' = Deadlock) ∧
    (Method r' = "POST" → QueryVideo r' ≠ "" →
     os_IsNotExist (stat_err e2) = false →
       run e2 (handleTranscode r') s' = Deadlock).
Proof.
  intros Hdata Hm Hq Hst. apply String.eqb_neq in Hq.
  eexists _, _. split; [| split; [| split; [| split; [| split]]]].
  - unfold main_startup, load, initial_state. simpl. rewrite Hdata. simpl.
    reflexivity.
  - done.
  - done.
  - done.
  - unfold handleTranscode. rewrite Hm, Hq. simpl negb. cbv iota. simpl.
    rewrite Hst. simpl. reflexivity.
  - simpl. split; [done |]. split.
    + intros Hname. apply String.eqb_neq in Hname.
      unfold handleStatus. cbv zeta. rewrite Hname. done.
    + intros Hm' Hq' Hst'. apply String.eqb_neq in Hq'.
      unfold handleTranscode. rewrite Hm', Hq'. simpl negb. cbv iota. simpl.
      rewrite Hst'. done.
Qed.

(** ** The job run alone *)

(** X4. A job for a name that has a record, run alone from a state in which
    the lock is free: it returns; the status of the record the name is
    bound to is completed when [CombinedOutput] returned no error and
    failed when it returned one, whatever the output was; nothing else of
    that record, no other record (not one with the same fields either)
    and no key changes; the start and the outcome are logged; no job is
    started; the lock is free again. *)
Theorem transcode_outcome (e : Env) (s : Shared) (vp od v : string)
    (rec : VideoMapping) :
  unlocked s → record_at s v = Some rec →
  ∃ s' l,
    run e (transcode vp od v) s = Returned () s' ∧
    (mappings s ≫= (λ m, m !! v)) = Some (Ref l) ∧
    heap s !! l = Some rec ∧
    heap s' = <[l := mkVideoMapping (OriginalName rec) (TranscodeDir rec)
                       (terminal_status e)]> (heap s) ∧
    record_at s' v = Some (mkVideoMapping (OriginalName rec) (TranscodeDir rec)
                             (terminal_status e)) ∧
    mappings s' = mappings s ∧ unlocked s' ∧
    logs s' = (logs s ++ [LogStart v; terminal_log e v])%list ∧
    goroutines s' = goroutines s ∧ dirs s' = dirs s ∧
    (terminal_status e = "completed" ↔ (encoder e).2 = None).
Proof.
  intros Hu Hrec. apply record_at_index in Hrec as (l & Hidx & Hl).
  assert ((mappings s ≫= (λ m, m !! v)) = Some (Ref l)) as Hbound.
  { unfold map_index in Hidx. destruct (mappings s) as [m |]; [| done]. simpl.
    destruct (m !! v) as [p |]; by simplify_eq/=. }
  exists (finished e v l rec s), l.
  split; [by apply transcode_alone |].
  split; [done |]. split; [done |]. split; [by destruct rec |].
  split.
  { unfold record_at, finished. simpl.
    destruct (mappings s) as [m |]; [| done]. simpl in *.
    rewrite Hbound. simpl. destruct rec.
    apply list_lookup_insert_eq. by eapply lookup_lt_Some. }
  repeat split; try done.
  - unfold terminal_status. by destruct (encoder e).2.
  - unfold terminal_status. by intros ->.
Qed.

(** ** Submission, job and status query, one after the other *)

(** X5. From a state with the lock free and a registry whose map is not
    nil and does not have the name as a key, a video that is on disk is
    submitted; the status is queried; the job the submission started
    runs; the status is queried again.  The first query answers processing without a stream locator;
    the second answers completed with the locator
    "/hls/<name without extension>/master.m3u8" when the encoder
    returned no error, and failed without a locator when it returned one.
    Each query leaves the state as it found it. *)
Theorem submit_job_query (e ej eq : Env) (s : Shared) (m : gmap string ptr)
    (v meth : string) :
  v ≠ "" → os_IsNotExist (stat_err e) = false → unlocked s →
  mappings s = Some m → m !! v = None →
  let submit := mkRequest "POST" "/api/transcode" v in
  let query := mkRequest meth ("/api/status/" ++ v) "" in
  let vp := filepath_Join "videos" v in
  let od := filepath_Join "transcoded" (stem v) in
  ∃ s1 s2,
    run e (handleTranscode submit) s = Returned (JsonBody (started_body v)) s1 ∧
    goroutines s1 = (goroutines s ++ [(vp, od, v)])%list ∧
    run eq (handleStatus query) s1 =
      Returned (JsonBody (answer_for v "processing")) s1 ∧
    answer_for v "processing" !! "stream_url" = None ∧
    run ej (transcode vp od v) s1 = Returned () s2 ∧
    run eq (handleStatus query) s2 =
      Returned (JsonBody (answer_for v (terminal_status ej))) s2 ∧
    answer_for v (terminal_status ej) !! "stream_url" =
      match (encoder ej).2 with
      | None => Some ("/hls/" ++ stem v ++ "/master.m3u8")
      | Some _ => None
      end.
Proof.
  intros Hv Hst Hu Hmap Hnone submit query vp od.
  pose (rec := mkVideoMapping v (stem v) "processing").
  assert (record_at (accepted e v m s) v = Some rec) as Hrec.
  { unfold record_at, accepted. simpl. rewrite lookup_insert_eq. simpl.
    rewrite lookup_app_r by done. by rewrite Nat.sub_diag. }
  assert (unlocked (accepted e v m s)) as Hu1 by done.
  exists (accepted e v m s),
    (finished ej v (length (heap s)) rec (accepted e v m s)).
  split; [by apply (handleTranscode_accepts e s submit m); auto |].
  split; [done |].
  split; [by apply (handleStatus_found eq _ query v rec) |].
  split; [done |].
  split.
  { apply transcode_alone; [done | |].
    - unfold map_index, accepted. simpl. by rewrite lookup_insert_eq.
    - simpl. rewrite lookup_app_r by done. by rewrite Nat.sub_diag. }
  split.
  - apply (handleStatus_found eq _ query v); try done.
    unfold record_at, finished, accepted. simpl. rewrite lookup_insert_eq. simpl.
    rewrite list_lookup_insert_eq; [done |].
    rewrite length_app. simpl. lia.
  - unfold answer_for, terminal_status.
    destruct (encoder ej).2; simpl; by simplify_map_eq.
Qed.

(** ** Two names with one directory *)

(** X7. Two videos whose names differ only in the extension are given the
    same directory.  Submitted one after the other, from a state with the
    lock free and a registry whose map is not nil and has neither name as
    a key, both are accepted, both answers name that directory, the two
    jobs are started with the same output directory, and both records
    carry it, so that both status answers will point to the same
    playlist. *)
Theorem extension_collision (e1 e2 : Env) (s : Shared) (m : gmap string ptr)
    (base x1 x2 : string) :
  plain_string x1 → plain_string x2 → x1 ≠ x2 →
  os_IsNotExist (stat_err e1) = false → os_IsNotExist (stat_err e2) = false →
  unlocked s → mappings s = Some m →
  m !! (base ++ "." ++ x1) = None → m !! (base ++ "." ++ x2) = None →
  let v1 := base ++ "." ++ x1 in
  let v2 := base ++ "." ++ x2 in
  let dir := filepath_Join "transcoded" base in
  ∃ s1 s2 rec1 rec2,
    run e1 (handleTranscode (mkRequest "POST" "/api/transcode" v1)) s =
      Returned (JsonBody (started_body v1)) s1 ∧
    run e2 (handleTranscode (mkRequest "POST" "/api/transcode" v2)) s1 =
      Returned (JsonBody (started_body v2)) s2 ∧
    started_body v1 !! "transcode_dir" = Some base ∧
    started_body v2 !! "transcode_dir" = Some base ∧
    goroutines s2 =
      (goroutines s ++ [(filepath_Join "videos" v1, dir, v1);
                        (filepath_Join "videos" v2, dir, v2)])%list ∧
    record_at s2 v1 = Some rec1 ∧ record_at s2 v2 = Some rec2 ∧
    TranscodeDir rec1 = base ∧ TranscodeDir rec2 = base.
Proof.
  intros Hx1 Hx2 Hne Hst1 Hst2 Hu Hmap Hn1 Hn2 v1 v2 dir.
  assert (stem v1 = base) as Hs1 by by apply stem_of_dotted.
  assert (stem v2 = base) as Hs2 by by apply stem_of_dotted.
  assert (v1 ≠ v2) as Hv.
  { intros Heq. apply string_app_inv_head, string_app_inv_head in Heq. done. }
  pose (s1 := accepted e1 v1 m s).
  pose (m1 := <[v1 := Ref (length (heap s))]> m).
  exists s1, (accepted e2 v2 m1 s1),
    (mkVideoMapping v1 base "processing"), (mkVideoMapping v2 base "processing").
  split.
  { apply (handleTranscode_accepts e1 s (mkRequest "POST" "/api/transcode" v1) m);
      [done | apply string_app_dot_nonempty | done | done | done | by left]. }
  split.
  { apply (handleTranscode_accepts e2 s1 (mkRequest "POST" "/api/transcode" v2) m1);
      [done | apply string_app_dot_nonempty | done | done | done |].
    left. simpl. unfold m1. by rewrite lookup_insert_ne. }
  split; [unfold started_body; rewrite Hs1; by simplify_map_eq |].
  split; [unfold started_body; rewrite Hs2; by simplify_map_eq |].
  split.
  { simpl. rewrite Hs1, Hs2. by rewrite <- app_assoc. }
  unfold record_at, accepted. simpl. unfold m1.
  rewrite lookup_insert_ne by done. rewrite !lookup_insert_eq. simpl.
  rewrite Hs1, Hs2, !length_app. simpl.
  split.
  - rewrite lookup_app_l by (rewrite length_app; simpl; lia).
    rewrite lookup_app_r by done. by rewrite Nat.sub_diag.
  - split; [| done].
    rewrite lookup_app_r by (rewrite length_app; simpl; lia).
    rewrite length_app. simpl.
    by replace (length (heap s) + 1 - (length (heap s) + 1)) with 0 by lia.
Qed.

(** ** The pool from startup *)

Lemma started_sound (s : Shared) : sound (started s).
Proof. apply Forall_nil. exact I. Qed.

Lemma started_exclusive (s : Shared) : lock_ok s → exclusive (started s).
Proof.
  intros Hl. split; [apply Forall_nil; exact I |]. split; [done |].
  intros i th Hi. by destruct i.
Qed.

(** X8. In every state a server reaches from its start, under any
    interleaving of submissions, status queries and steps of handlers and
    jobs: a record that was in the registry is still at its place with
    its name and its directory, its status is what it was or completed
    or failed, and a name that had a record has one. *)
Theorem records_keep_identity (evs : list Event) (s : Shared) (w : World) :
  schedule evs (started s) = Some w →
  record_kept s (shared w) ∧
  ∀ key, live_key s key → live_key (shared w) key.
Proof. intros Hrun. by apply (lifecycle_frame evs (started s) w (started_sound s)). Qed.

(** X9. In every state a server reaches from a registry in which each record
    carries the name it is stored under and the name without extension as
    its directory (the empty registry is one), each record does: the
    handlers store only such records and nobody writes these two fields. *)
Theorem data_model_kept (evs : list Event) (s : Shared) (w : World)
    (d : DiskFile) :
  derived (initial_state d) ∧
  (derived s → schedule evs (started s) = Some w →
   ∀ key rec, record_at (shared w) key = Some rec →
     OriginalName rec = key ∧ TranscodeDir rec = stem key).
Proof.
  split.
  - intros m key l Hm Hk. simpl in Hm. injection Hm as <-.
    by rewrite lookup_empty in Hk.
  - intros Hd Hrun key rec Hrec.
    eapply derived_record; [| done].
    by apply (schedule_derived evs (started s) w (started_sound s)).
Qed.

(** X10. In every state a server reaches from its start, a goroutine, handler
    or job, whose next action stores a record, sets a status, serialises
    the registry, writes the file or unlocks finds the write lock held
    and no read lock held, and no other goroutine is between its [Lock]
    and its [Unlock]. *)
Theorem registry_writes_hold_the_lock (evs : list Event) (s : Shared) (w : World)
    (tid : nat) (th : Thread) (X : Type) (a : action X) :
  lock_ok s → schedule evs (started s) = Some w →
  threads w !! tid = Some th → next_action th a → writes_registry a →
  writer (shared w) = true ∧ readers (shared w) = 0 ∧
  ∀ j th', threads w !! j = Some th' → holding th' → j = tid.
Proof.
  intros Hl Hrun Hth Hnext Ha.
  destruct (schedule_exclusive evs (started s) w (started_exclusive s Hl) Hrun)
    as (Hdis & Hlock & Hex).
  assert (holding th) as Hh.
  { rewrite Forall_lookup in Hdis. specialize (Hdis tid _ Hth).
    destruct Hnext as [[k ->] | (v & k & ->)]; simpl in Hdis |- *;
      destruct a; try done; simpl in *; by destruct Hdis as [-> _]. }
  destruct (Hex tid _ Hth Hh) as [Hw Huniq]. auto.
Qed.

Lemma transcode_no_runlock (vp od v : string) :
  all_actions no_runlock (transcode vp od v).
Proof.
  unfold transcode.
  repeat (first [ done | split | intros [] | intros ? | progress simpl
                | match goal with
                  | |- context [match ?x with _ => _ end] => destruct x
                  end ]).
Qed.

Lemma pool_step_calm (ev : Event) (w w' : World) :
  calm w → pool_step ev w = Some w' → calm w'.
Proof.
  unfold calm, pool_step. intros Hc Hstep.
  destruct (crashed w); [done |].
  destruct ev as [r | r | tid e].
  - simplify_eq/=. apply Forall_app. split; [done |]. by apply Forall_singleton.
  - simplify_eq/=. apply Forall_app. split; [done |]. by apply Forall_singleton.
  - assert (∀ X (a : action X),
      Forall (λ th, match th with
                    | Runner _ p => all_actions no_runlock p
                    | _ => True
                    end) (spawned a)) as Hsp.
    { intros X a. destruct a; try apply Forall_nil; try exact I.
      apply Forall_singleton. apply transcode_no_runlock. }
    destruct (threads w !! tid) as [[[r | X a k] | v [r | X a k] |] |] eqn:Hth;
      try done.
    + destruct (exec e a (shared w)) as [x s' | | why s']; [| done |];
        simplify_eq/=.
      * apply Forall_app. split; [| done]. by apply Forall_insert.
      * by apply Forall_insert.
    + assert (all_actions no_runlock (Act a k)) as [_ Hk].
      { rewrite Forall_lookup in Hc. by apply (Hc tid _ Hth). }
      destruct (exec e a (shared w)) as [x s' | | why s']; [| done |];
        simplify_eq/=; [| done].
      apply Forall_app. split; [| done]. apply Forall_insert; [done |]. apply Hk.
Qed.

(** A job that steps does not panic. *)
Lemma job_step_no_panic (w : World) (tid : nat) (v : string) (X : Type)
    (a : action X) (k : X → Prog unit) (e : Env) (why : Panic) (s' : Shared) :
  sound w → exclusive w → calm w →
  threads w !! tid = Some (Runner v (Act a k)) →
  exec e a (shared w) ≠ Panics why s'.
Proof.
  intros Hs (Hdis & _ & Hex) Hc Hth Hpanic.
  unfold sound, calm in *. rewrite Forall_lookup in Hs, Hdis, Hc.
  specialize (Hs tid _ Hth). specialize (Hdis tid _ Hth). specialize (Hc tid _ Hth).
  destruct Hs as [[Hja _] Hlive]. destruct Hc as [Hnr _]. simpl in Hdis.
  destruct a; simpl in Hpanic, Hja, Hnr; try done.
  - by destruct (writer (shared w)).
  - destruct (writer (shared w)); [done |]. by destruct (readers (shared w)).
  - destruct Hdis as [Hh _].
    destruct (Hex tid _ Hth Hh) as [Hw _]. by rewrite Hw in Hpanic.
  - destruct Hja as [-> _]. destruct Hlive as [rec Hrec].
    apply record_at_index in Hrec as (l & Hidx & Hl).
    rewrite Hidx in Hpanic. simpl in Hpanic. by rewrite Hl in Hpanic.
  - by destruct (write_err e) as [[? ?] |].
  - by destruct (disk (shared w)).
Qed.

Lemma schedule_never_crashes (evs : list Event) (w w' : World) :
  sound w → exclusive w → calm w → crashed w = false →
  schedule evs w = Some w' → crashed w' = false.
Proof.
  revert w. induction evs as [| ev evs IH]; intros w Hs Hx Hc Hcr Hrun;
    simpl in Hrun.
  - by simplify_eq.
  - destruct (pool_step ev w) as [w1 |] eqn:Hstep; [| done].
    apply (IH w1); try done.
    + by eapply pool_step_sound.
    + by eapply pool_step_exclusive.
    + by eapply pool_step_calm.
    + unfold pool_step in Hstep. rewrite Hcr in Hstep.
      destruct ev as [r | r | tid e]; [by simplify_eq | by simplify_eq |].
      destruct (threads w !! tid) as [[[r | X a k] | v [r | X a k] |] |] eqn:Hth;
        try done.
      * destruct (exec e a (shared w)); by simplify_eq.
      * destruct (exec e a (shared w)) as [x s' | | why s'] eqn:Hex;
          [by simplify_eq | done |].
        by destruct (job_step_no_panic w tid v X a k e why s').
Qed.

(** X11. No interleaving takes the process down.  A panic in a handler is
    recovered by the server; a panic in a job would end the process, and
    no job panics: from the start of a server, under any interleaving, a
    job's status write finds its record, its [Unlock] finds the lock held
    by the job itself, and a job does nothing else that can panic. *)
Theorem jobs_never_crash_the_server (evs : list Event) (s : Shared) (w : World) :
  lock_ok s → schedule evs (started s) = Some w → crashed w = false.
Proof.
  intros Hl Hrun.
  apply (schedule_never_crashes evs (started s) w (started_sound s)
           (started_exclusive s Hl)); [by apply Forall_nil | done | done].
Qed.

(** ** A record left in processing *)

Lemma handleStatus_leaves_alone (v : string) (l : nat) (r : Request) :
  leaves_alone v l (handleStatus r).
Proof.
  unfold handleStatus.
  repeat (first [ done | split | intros ? | progress simpl
                | match goal with
                  | |- context [if ?b then _ else _] => destruct b
                  | |- context [match ?x with _ => _ end] => destruct x
                  end ]).
Qed.

Lemma handleTranscode_leaves_alone (v : string) (l : nat) (r : Request) :
  leaves_alone v l (handleTranscode r).
Proof.
  unfold handleTranscode.
  destruct (negb (Method r =? "POST")); [done |].
  destruct (QueryVideo r =? ""); [done |].
  destruct (decide (QueryVideo r = v)) as [Hv | Hv].
  - simpl. split; [done |]. intros err _.
    destruct (os_IsNotExist err); [done |]. simpl.
    split; [done |]. intros [] _. split; [done |].
    intros [mapping ex] Hc. simpl in Hc. specialize (Hc Hv).
    injection Hc as -> ->. simpl.
    split; [done |]. intros [] _. simpl.
    split; [done |]. intros st Hst. rewrite (Hst eq_refl eq_refl). simpl.
    split; [done |]. intros st' Hst'. by rewrite (Hst' eq_refl eq_refl).
  - repeat (first [ done | split | intros ? | progress simpl
                  | match goal with
                    | |- context [if ?b then _ else _] => destruct b
                    | |- context [match ?x with _ => _ end] => destruct x
                    end ]).
Qed.

Lemma exec_keeps_stuck {X : Type} (e : Env) (a : action X) (s s' : Shared) (x : X)
    (v : string) (l : nat) :
  stuck v l s → spares v a → exec e a s = Stepped x s' →
  stuck v l s' ∧ consistent v l a x.
Proof.
  intros (m & rec & Hm & Hv & Hl & Hst & Honly) Ha Hex.
  assert (stuck v l s) as Hs by (by exists m, rec).
  destruct a; simpl in Hex, Ha;
    repeat case_match; simplify_eq/=; try done.
  - (* AMapIndex *)
    split; [done |]. intros ->. unfold map_index. by rewrite Hm, Hv.
  - (* ARead *)
    split; [done |]. intros -> ?. by simplify_eq/=.
  - (* AMapStore *)
    split; [| done]. eexists _, rec. split; [done |].
    pose proof (lookup_lt_Some _ _ _ Hl) as Hlt.
    rewrite lookup_insert_ne by done. split; [done |]. simpl.
    rewrite lookup_app_l by done. split; [done |]. split; [done |].
    intros key0 Hk. destruct (decide (key = key0)) as [<- | Hne].
    + rewrite lookup_insert_eq in Hk. simplify_eq. lia.
    + rewrite lookup_insert_ne in Hk by done. auto.
  - (* ASetStatusAt *)
    split; [| done]. exists m, rec. split; [done |]. split; [done |].
    split; [| done]. simpl.
    rewrite list_lookup_insert_ne; [done |]. intros ->. apply Ha, Honly.
    match goal with
    | Hi : (map_index _ _).1 = _ |- _ => unfold map_index in Hi; rewrite Hm in Hi
    end.
    by destruct (m !! key) as [p |]; simplify_eq/=.
Qed.

Lemma pool_step_stuck (ev : Event) (w w' : World) (v : string) (l : nat) :
  stuck v l (shared w) → Forall (aside v l) (threads w) →
  pool_step ev w = Some w' →
  stuck v l (shared w') ∧ Forall (aside v l) (threads w').
Proof.
  unfold pool_step. intros Hs Hth Hstep.
  destruct (crashed w); [done |].
  destruct ev as [r | r | tid e].
  - simplify_eq/=. split; [done |]. apply Forall_app. split; [done |].
    apply Forall_singleton. apply handleTranscode_leaves_alone.
  - simplify_eq/=. split; [done |]. apply Forall_app. split; [done |].
    apply Forall_singleton. apply handleStatus_leaves_alone.
  - destruct (threads w !! tid) as [[[r | X a k] | v' [r | X a k] |] |] eqn:Hi;
      try done.
    + assert (aside v l (Handler (Act a k))) as [Ha Hk].
      { rewrite Forall_lookup in Hth. by eapply Hth. }
      destruct (exec e a (shared w)) as [x s' | | why s'] eqn:Hex; [| done |].
      * destruct (exec_keeps_stuck e a (shared w) s' x v l Hs) as [Hs' Hc];
          [by destruct a | done |].
        simplify_eq/=. split; [done |]. apply Forall_app. split.
        -- apply Forall_insert; [done |]. by apply Hk.
        -- destruct a; simpl; try done.
           apply Forall_singleton. split; [done | apply transcode_shape].
      * apply exec_panics_same in Hex as ->. simplify_eq/=.
        split; [done |]. by apply Forall_insert.
    + assert (aside v l (Runner v' (Act a k))) as [Hne [Ha Hk]].
      { rewrite Forall_lookup in Hth. by eapply Hth. }
      destruct (exec e a (shared w)) as [x s' | | why s'] eqn:Hex; [| done |].
      * destruct (exec_keeps_stuck e a (shared w) s' x v l Hs) as [Hs' Hc];
          [| done |].
        { destruct a; try done. by destruct Ha as [-> _]. }
        simplify_eq/=. split; [done |]. apply Forall_app. split.
        -- apply Forall_insert; [done |]. split; [done | apply Hk].
        -- by destruct a.
      * apply exec_panics_same in Hex as ->. by simplify_eq/=.
Qed.

(** X12. A record that a server finds in processing when it starts (the job
    that was to end it went down with the previous process) stays in
    processing: under any interleaving of submissions, status queries and
    steps, the name keeps this record, its status is never written, and no
    job for the name is ever started, however often the name is
    submitted. *)
Theorem stuck_processing_is_never_retried (evs : list Event) (s : Shared)
    (w : World) (v : string) (l : nat) :
  stuck v l s → schedule evs (started s) = Some w →
  stuck v l (shared w) ∧
  (∀ tid p, threads w !! tid ≠ Some (Runner v p)) ∧
  active_jobs v w = 0.
Proof.
  intros Hs Hrun.
  assert (stuck v l (shared w) ∧ Forall (aside v l) (threads w)) as [Hs' Hth].
  { assert (Forall (aside v l) (threads (started s))) as Hth0
      by (by apply Forall_nil).
    change s with (shared (started s)) in Hs.
    revert Hs Hth0 Hrun. generalize (started s). clear s.
    induction evs as [| ev evs IH]; intros w0 Hs Hth Hrun; simpl in Hrun.
    - by simplify_eq.
    - destruct (pool_step ev w0) as [w1 |] eqn:Hstep; [| done].
      destruct (pool_step_stuck ev w0 w1 v l Hs Hth Hstep) as [Hs1 Hth1].
      by apply (IH w1). }
  split; [done |].
  assert (∀ tid p, threads w !! tid ≠ Some (Runner v p)) as Hno.
  { intros tid p Hi. rewrite Forall_lookup in Hth.
    by destruct (Hth tid _ Hi) as [Hne _]. }
  split; [done |].
  unfold active_jobs. clear Hno Hs' Hrun.
  induction Hth as [| th ths Hth _ IH]; [done |].
  simpl. destruct th as [p | v' [r | X a k] |]; simpl; try done.
  destruct Hth as [Hne _]. apply String.eqb_neq in Hne. by rewrite Hne.
Qed.

End MoreProofs.

Section SafetyProofs.
Context `{GoLib}.

Lemma careful_mono {R : Type} (rl : bool) (p : Prog R) (n n' : nat) :
  careful rl p n → (n ≤ n')%nat → careful rl p n'.
Proof.
  destruct p as [r | X a k]; simpl; [done |].
  intros [Ha Hk] Hle. split.
  - destruct a; try done. destruct Ha as (l & -> & Hl). exists l. split; [done | lia].
  - intros n'' x Hle'. apply Hk. lia.
Qed.

Lemma careful_rholds {R : Type} (rl : bool) (p : Prog R) (n : nat) :
  careful rl p n → rholds p = rl.
Proof.
  revert rl n. induction p as [r | X a k IH]; intros rl n; simpl; [done |].
  intros [Ha Hk].
  destruct a; try done; try (by apply (IH _ _ n), (Hk n _ (le_n n))).
Qed.

Ltac walk :=
  repeat first
    [ done
    | match goal with
      | Hf : _ → in_heap _ _ |- in_heap _ _ =>
          destruct (Hf eq_refl) as (? & -> & ?); eexists; split; [done | lia]
      end
    | split | intros ? | progress simpl in *
    | match goal with
      | |- context [if negb ?b then _ else _] => is_var b; destruct b
      | |- context [if ?b then _ else _] => destruct b
      | |- context [match ?x with _ => _ end] => destruct x
      end ].

Lemma handleStatus_careful (r : Request) (n : nat) :
  careful false (handleStatus r) n.
Proof. unfold handleStatus. walk. Qed.

Lemma handleTranscode_careful (r : Request) (n : nat) :
  careful false (handleTranscode r) n.
Proof. unfold handleTranscode. walk. Qed.

Lemma exec_found {X : Type} (e : Env) (a : action X) (s s' : Shared) (x : X) :
  wellformed s → exec e a s = Stepped x s' → found (length (heap s')) a x.
Proof.
  intros [_ Hwf] Hex. destruct a; try exact I.
  simpl in Hex. simplify_eq. simpl. intros Hex.
  unfold map_index in *.
  destruct (mappings s') as [m |] eqn:Hm; [| done].
  destruct (m !! key) as [p |] eqn:Hp; [| done]. simpl.
  destruct (Hwf key) as [rec Hrec]; [by exists m, p |].
  unfold record_at in Hrec. rewrite Hm in Hrec. simpl in Hrec.
  rewrite Hp in Hrec. simpl in Hrec.
  destruct p as [| l]; [done |]. exists l. split; [done |].
  by eapply lookup_lt_Some.
Qed.

Lemma exec_heap_grows {X : Type} (e : Env) (a : action X) (s s' : Shared) (x : X) :
  exec e a s = Stepped x s' →
  match a with AUnmarshal _ => False | _ => True end →
  (length (heap s) ≤ length (heap s'))%nat.
Proof.
  intros Hex Hno.
  destruct a; simpl in Hex; try done; repeat case_match; simplify_eq/=; try done.
  - rewrite length_app. lia.
  - by rewrite length_insert.
Qed.

Lemma exec_wellformed {X : Type} (e : Env) (a : action X) (s s' : Shared) (x : X) :
  wellformed s → exec e a s = Stepped x s' →
  match a with AUnmarshal _ => False | _ => True end →
  wellformed s'.
Proof.
  intros [Hm Hwf] Hex Hno.
  assert (∀ key, live_key s key → live_key s' key) as Hlive.
  { intros key. by eapply exec_keeps_live. }
  destruct a; simpl in Hex; try done; repeat case_match; simplify_eq/=;
    try (split; [exact Hm | intros key0 Hk; apply Hlive, Hwf; exact Hk]).
  - (* AMapStore *)
    split; [done |]. intros key0 (m & p & Hm' & Hp). simpl in Hm'. simplify_eq.
    destruct (decide (key = key0)) as [-> | Hne].
    + unfold live_key, record_at. simpl. rewrite lookup_insert_eq. simpl.
      rewrite lookup_app_r by done. by rewrite Nat.sub_diag.
    + rewrite lookup_insert_ne in Hp by done.
      apply Hlive, Hwf. by eexists _, _.
Qed.

Lemma exec_readers {X : Type} (e : Env) (a : action X) (s s' : Shared) (x : X) :
  exec e a s = Stepped x s' →
  match a with
  | ARLock => readers s' = S (readers s)
  | ARUnlock => readers s = S (readers s')
  | ALock => readers s' = readers s
  | _ => readers s' = readers s
  end.
Proof.
  intros Hex.
  destruct a; simpl in Hex; repeat case_match; by simplify_eq/=.
Qed.

Lemma count_insert (f : Thread → bool) (l : list Thread) (tid : nat)
    (th th' : Thread) :
  l !! tid = Some th →
  length (List.filter f (<[tid := th']> l)) + (if f th then 1 else 0) =
  length (List.filter f l) + (if f th' then 1 else 0).
Proof.
  revert tid. induction l as [| y l IH]; intros tid Hl; [done |].
  destruct tid as [| tid]; simpl in *.
  - simplify_eq. destruct (f th), (f th'); simpl; lia.
  - specialize (IH tid Hl). destruct (f y); simpl; lia.
Qed.

Lemma count_spawned {X : Type} (a : action X) :
  List.filter rholding (spawned a) = [].
Proof. by destruct a. Qed.

(** A careful handler that steps does not panic. *)
Lemma handler_step_no_panic (w : World) (tid : nat) (X : Type) (a : action X)
    (k : X → Prog Response) (e : Env) (why : Panic) (s' : Shared) :
  exclusive w → guarded w →
  threads w !! tid = Some (Handler (Act a k)) →
  exec e a (shared w) ≠ Panics why s'.
Proof.
  intros (Hdis & _ & Hex) ([Hm Hwf] & Hth & Hcount) Hi Hpanic.
  rewrite Forall_lookup in Hth, Hdis.
  specialize (Hth tid _ Hi). specialize (Hdis tid _ Hi). simpl in Hth, Hdis.
  destruct Hth as [Ha _].
  destruct a; simpl in Hpanic, Ha; try done.
  - by destruct (writer (shared w)).
  - (* ARUnlock *)
    destruct (readers (shared w)) eqn:Hr; [| done].
    apply take_drop_middle in Hi. rewrite <- Hi, List.filter_app in Hcount.
    simpl in Hcount. rewrite length_app in Hcount. simpl in Hcount. lia.
  - destruct (writer (shared w)); [done |]. by destruct (readers (shared w)).
  - (* AUnlock *)
    destruct Hdis as [Hh _].
    destruct (Hex tid _ Hi Hh) as [Hw _]. by rewrite Hw in Hpanic.
  - (* ARead *)
    destruct Ha as (l & -> & Hl).
    apply lookup_lt_is_Some_2 in Hl as [rec Hrec]. by rewrite Hrec in Hpanic.
  - (* AMapStore *)
    destruct Hm as [m Hm]. by rewrite Hm in Hpanic.
  - by destruct (write_err e) as [[? ?] |].
  - by destruct (disk (shared w)).
Qed.

Lemma pool_step_guarded (ev : Event) (w w' : World) :
  sound w → exclusive w → calm w → guarded w →
  pool_step ev w = Some w' → guarded w'.
Proof.
  unfold pool_step. intros Hs Hx Hcalm Hg Hstep.
  pose proof Hg as (Hwf & Hth & Hcount).
  destruct (crashed w); [done |].
  destruct ev as [r | r | tid e].
  - simplify_eq/=. split; [done |]. split.
    + apply Forall_app. split; [done |]. apply Forall_singleton.
      rewrite (careful_rholds false _ 0 (handleTranscode_careful r 0)).
      apply handleTranscode_careful.
    + simpl. rewrite List.filter_app, length_app. simpl.
      by rewrite (careful_rholds false _ 0 (handleTranscode_careful r 0)), Nat.add_0_r.
  - simplify_eq/=. split; [done |]. split.
    + apply Forall_app. split; [done |]. apply Forall_singleton.
      rewrite (careful_rholds false _ 0 (handleStatus_careful r 0)).
      apply handleStatus_careful.
    + simpl. rewrite List.filter_app, length_app. simpl.
      by rewrite (careful_rholds false _ 0 (handleStatus_careful r 0)), Nat.add_0_r.
  - destruct (threads w !! tid) as [[[r | X a k] | v [r | X a k] |] |] eqn:Hi;
      try done.
    + (* a handler *)
      destruct (exec e a (shared w)) as [x s' | | why s'] eqn:Hex; [| done |];
        [| by destruct (handler_step_no_panic w tid X a k e why s')].
      assert (careful (rholds (Act a k)) (Act a k) (length (heap (shared w))))
        as Hc.
      { rewrite Forall_lookup in Hth. by apply (Hth tid _ Hi). }
      pose proof Hc as [Ha Hk].
      assert (match a with AUnmarshal _ => False | _ => True end) as Hno
        by (by destruct a).
      pose proof (exec_heap_grows e a _ _ x Hex Hno) as Hgrow.
      pose proof (exec_wellformed e a _ _ x Hwf Hex Hno) as Hwf'.
      specialize (Hk _ x Hgrow (exec_found e a _ _ x Hwf Hex)).
      pose proof (careful_rholds _ _ _ Hk) as Hrk.
      pose proof (exec_readers e a _ _ x Hex) as Hrd.
      pose proof (count_insert rholding (threads w) tid _ (Handler (k x)) Hi)
        as Hins.
      simplify_eq/=. split; [done |]. split.
      * apply Forall_app. split.
        -- apply Forall_insert; [| by rewrite Hrk].
           eapply Forall_impl; [exact Hth |]. intros [p | v p |]; try done.
           intros Hp. by eapply careful_mono.
        -- by destruct a; simpl; try apply Forall_nil; try apply Forall_singleton.
      * simpl. rewrite List.filter_app, length_app, count_spawned. simpl.
        rewrite Hrk in Hins.
        destruct a; simpl in *; try lia.
    + (* a job *)
      assert (all_actions (job_action v) (Act a k)) as [Ha _].
      { unfold sound in Hs. rewrite Forall_lookup in Hs.
        by destruct (Hs tid _ Hi) as [? _]. }
      assert (all_actions no_runlock (Act a k)) as [Hnr _].
      { unfold calm in Hcalm. rewrite Forall_lookup in Hcalm.
        by apply (Hcalm tid _ Hi). }
      destruct (exec e a (shared w)) as [x s' | | why s'] eqn:Hex; [| done |].
      * assert (match a with AUnmarshal _ => False | _ => True end) as Hno
          by (by destruct a).
        pose proof (exec_heap_grows e a _ _ x Hex Hno) as Hgrow.
        pose proof (exec_wellformed e a _ _ x Hwf Hex Hno) as Hwf'.
        pose proof (exec_readers e a _ _ x Hex) as Hrd.
        pose proof (count_insert rholding (threads w) tid _ (Runner v (k x)) Hi)
          as Hins.
        simplify_eq/=. split; [done |]. split.
        -- apply Forall_app. split.
           ++ apply Forall_insert; [| done].
              eapply Forall_impl; [exact Hth |]. intros [p | v' p |]; try done.
              intros Hp. by eapply careful_mono.
           ++ by destruct a; simpl; try apply Forall_nil; try apply Forall_singleton.
        -- simpl. rewrite List.filter_app, length_app, count_spawned. simpl.
           destruct a; simpl in *; try lia; try done.
      * apply exec_panics_same in Hex as ->. by simplify_eq/=.
Qed.

Lemma schedule_guarded (evs : list Event) (w w' : World) :
  sound w → exclusive w → calm w → guarded w →
  schedule evs w = Some w' → guarded w'.
Proof.
  revert w. induction evs as [| ev evs IH]; intros w Hs Hx Hc Hg Hrun;
    simpl in Hrun.
  - by simplify_eq.
  - destruct (pool_step ev w) as [w1 |] eqn:Hstep; [| done].
    apply (IH w1); try done.
    + by eapply pool_step_sound.
    + by eapply pool_step_exclusive.
    + by eapply pool_step_calm.
    + by eapply pool_step_guarded.
Qed.

(** X19. A server that starts with a registry in which the map is not nil
    and every key is bound to a record, and with the lock free, never
    panics: under any interleaving of submissions, status queries and
    steps, no handler panics (every read goes through a pointer the
    lookup has found, every [RUnlock] and [Unlock] finds its lock held,
    every map assignment finds a map) and no job does, so the process
    stays up and the registry stays without nil entries. *)
Theorem server_never_panics (evs : list Event) (s : Shared) (w : World) :
  wellformed s → unlocked s → schedule evs (started s) = Some w →
  crashed w = false ∧
  (∀ tid, threads w !! tid ≠ Some Recovered) ∧
  wellformed (shared w).
Proof.
  intros Hwf [Hw Hr] Hrun.
  assert (lock_ok s) as Hl by (by intros _).
  assert (calm (started s)) as Hc by (by apply Forall_nil).
  assert (guarded (started s)) as Hg.
  { split; [done |]. split; [by apply Forall_nil |]. simpl. lia. }
  split.
  { by apply (schedule_never_crashes evs (started s) w (started_sound s)
                (started_exclusive s Hl) Hc). }
  destruct (schedule_guarded evs (started s) w (started_sound s)
              (started_exclusive s Hl) Hc Hg Hrun) as (Hwf' & Hth & _).
  split; [| done].
  intros tid Hi. rewrite Forall_lookup in Hth. by apply (Hth tid _ Hi).
Qed.

End SafetyProofs.

Section ListingProofs.
Context `{GoLib} `{GoUnicode}.

Lemma skip_is_not_video (name : string) :
  (let ext := strings_ToLower (filepath_Ext name) in
   negb (ext =? ".mp4") && negb (ext =? ".mkv") && negb (ext =? ".avi") &&
   negb (ext =? ".mov") && negb (ext =? ".webm")) = negb (is_video name).
Proof.
  unfold is_video. simpl.
  generalize (strings_ToLower (filepath_Ext name)). intros ext.
  destruct (ext =? ".mp4"), (ext =? ".mkv"), (ext =? ".avi"),
    (ext =? ".mov"), (ext =? ".webm"); reflexivity.
Qed.

(** The loop, where every listed name that is a key has a record. *)
Lemma list_entries_run {R : Type} (e : ListingEnv) (entries : list DirEntry)
    (videos : list VideoInfo) (f : list VideoInfo → LProg R) (st : ListingState)
    (D : list (listing_action unit)) :
  (∀ entry, entry ∈ entries → listed entry = true →
     has_key (shared_of st) (entry_Name entry) → live_key (shared_of st) (entry_Name entry)) →
  lrun e (lbind (list_entries entries videos) f) st D =
  lrun e (f (videos ++ infos_of (shared_of st) entries)%list)
       (mkListingState (shared_of st)
          (printed st ++ map PrintInfo (infos_of (shared_of st) entries))%list) D.
Proof.
  revert videos st. induction entries as [| entry rest IH]; intros videos st Hlive.
  - unfold infos_of. simpl. rewrite !app_nil_r. by destruct st.
  - assert (∀ entry0, entry0 ∈ rest → listed entry0 = true →
              has_key (shared_of st) (entry_Name entry0) →
              live_key (shared_of st) (entry_Name entry0)) as Hrest.
    { intros entry0 Hin. apply Hlive. by apply elem_of_cons; right. }
    specialize (Hlive entry ltac:(by apply elem_of_cons; left)).
    unfold infos_of, listed in *. cbn [list_entries List.filter].
    destruct (entry_IsDir entry); [by apply IH |].
    cbv zeta. rewrite skip_is_not_video. simpl negb at 1. rewrite andb_true_l.
    rewrite andb_true_l in Hlive. 
    destruct (is_video (entry_Name entry)) eqn:Hvid; [| by apply IH].
    specialize (Hlive eq_refl). cbn [negb map].
    set (name := entry_Name entry) in *.
    destruct st as [s pr]. simpl in Hlive, Hrest |- *.
    unfold info_of at 1 3. unfold record_at, map_index.
    unfold live_key, record_at, has_key in Hlive.
    destruct (mappings s) as [m |] eqn:Hm; simpl.
    + destruct (m !! name) as [p |] eqn:Hp; simpl.
      * destruct Hlive as [rec Hrec]; [by eauto |].
        simpl in Hrec. rewrite Hp in Hrec. simpl in Hrec.
        destruct p as [| l]; [done |]. repeat (rewrite Hrec; simpl).
        destruct (Status rec =? "completed") eqn:Hc; simpl; rewrite ?Hrec; simpl.
        -- rewrite (IH _ (mkListingState s _)) by done. simpl.
           by rewrite <- !app_assoc.
        -- rewrite (IH _ (mkListingState s _)) by done. simpl.
           by rewrite <- !app_assoc.
      * rewrite (IH _ (mkListingState s _)) by done. simpl.
        by rewrite <- !app_assoc.
    + rewrite (IH _ (mkListingState s _)) by done. simpl.
      by rewrite <- !app_assoc.
Qed.

(** The loop, whatever the registry holds: it ends, by returning or by a
    panic on a nil pointer, and the deferred [RUnlock] has run. *)
Lemma list_entries_ends {R : Type} (e : ListingEnv) (entries : list DirEntry)
    (videos : list VideoInfo) (f : list VideoInfo → LProg R) (s : Shared)
    (pr : list ListingLine) (n : nat) :
  readers s = S n →
  (∀ videos' pr',
     ends_with (set_lock (writer s) n s)
       (lrun e (f videos') (mkListingState s pr') [LShared ARUnlock])) →
  ends_with (set_lock (writer s) n s)
    (lrun e (lbind (list_entries entries videos) f) (mkListingState s pr)
       [LShared ARUnlock]).
Proof.
  intros Hr Hf. revert videos pr.
  induction entries as [| entry rest IH]; intros videos pr; [apply Hf |].
  cbn [list_entries]. destruct (entry_IsDir entry); [apply IH |].
  cbv zeta.
  destruct (negb _ && negb _ && negb _ && negb _ && negb _); [apply IH |].
  simpl. destruct (map_index (mappings s) (entry_Name entry)) as [p ex].
  destruct ex; simpl; [| apply IH].
  destruct p as [| l]; simpl; [by rewrite Hr |].
  destruct (heap s !! l) as [rec |] eqn:Hl; simpl; [| by rewrite Hr].
  repeat (rewrite Hl; simpl).
  destruct (Status rec =? "completed"); simpl; rewrite ?Hl; simpl; apply IH.
Qed.

(** X15. A listing request with another method than GET is answered 405, and
    one whose directory cannot be read is answered 500, both before the
    handler comes to the lock: the state is left as it is, whatever it
    is. *)
Theorem handleGetVideos_early_returns (e : ListingEnv) (r : Request)
    (st : ListingState) :
  (Method r ≠ "GET" →
     lrun e (handleGetVideos r) st [] =
     LReturned (ListingError 405 "Method not allowed") st) ∧
  (Method r = "GET" → (readdir e).2 ≠ None →
     lrun e (handleGetVideos r) st [] =
     LReturned (ListingError 500 "Could not read videos directory") st).
Proof.
  split.
  - intros Hm. apply String.eqb_neq in Hm. unfold handleGetVideos. by rewrite Hm.
  - intros Hm Herr. unfold handleGetVideos. rewrite Hm. simpl.
    by destruct (readdir e) as [entries [err |]].
Qed.

(** X16. A listing that finds the write lock free ends, whatever the
    directory and the registry hold: it returns an answer, or it panics
    on a nil entry; in both cases the shared state is exactly as it was
    before the request, the read lock released by the deferred
    [RUnlock].  The listing writes nothing. *)
Theorem handleGetVideos_only_reads (e : ListingEnv) (r : Request)
    (st : ListingState) :
  writer (shared_of st) = false →
  ends_with (shared_of st) (lrun e (handleGetVideos r) st []).
Proof.
  intros Hw. unfold handleGetVideos.
  destruct (negb (Method r =? "GET")); [done |].
  destruct st as [s pr]. simpl in Hw. simpl.
  destruct (readdir e) as [entries [err |]]; [done |].
  simpl. rewrite Hw. simpl.
  assert (s = set_lock (writer (set_lock false (S (readers s)) s)) (readers s)
                (set_lock false (S (readers s)) s)) as Hs.
  { destruct s. simpl in *. by subst. }
  rewrite Hs at 1.
  apply (list_entries_ends e entries [] _ (set_lock false (S (readers s)) s));
    [done |].
  intros videos' pr'. by simpl.
Qed.

(** X17. A listing of a directory that can be read, with the write lock free
    and no listed name bound to a nil pointer: the answer is the JSON of
    one entry per directory entry that is not a directory and whose
    extension, lowered, is one of .mp4 .mkv .avi .mov .webm, in the order
    of the directory; each entry is made from the record of that name
    (status, directory, transcoded and the stream locator when
    completed) or is the bare name when there is none; each entry and
    then the whole list are logged; the shared state is as before. *)
Theorem handleGetVideos_lists (e : ListingEnv) (r : Request) (st : ListingState)
    (entries : list DirEntry) :
  Method r = "GET" → readdir e = (entries, None) → writer (shared_of st) = false →
  (∀ entry, entry ∈ entries → listed entry = true →
     has_key (shared_of st) (entry_Name entry) → live_key (shared_of st) (entry_Name entry)) →
  let infos := infos_of (shared_of st) entries in
  lrun e (handleGetVideos r) st [] =
  LReturned (ListingJson (marshal_videos infos))
    (mkListingState (shared_of st)
       (printed st ++ map PrintInfo infos ++ [PrintVideos infos])%list).
Proof.
  intros Hm Hdir Hw Hlive infos. unfold handleGetVideos. rewrite Hm. simpl.
  rewrite Hdir. simpl.
  destruct st as [s pr]. simpl in Hw, Hlive, infos |- *. rewrite Hw. simpl.
  assert (∀ key, record_at (set_lock false (S (readers s)) s) key = record_at s key)
    as Hsame by done.
  unfold mbind, LProg_bind. rewrite list_entries_run.
  - simpl. unfold infos, infos_of, info_of.
    rewrite <- app_assoc.
    destruct s. simpl in *. by subst.
  - intros entry Hin Hl Hk. by apply (Hlive entry).
Qed.

(** X18. A listing that finds nothing to list (an empty directory, or one with
    only directories and other files) answers the JSON [null], which is
    what the encoder makes of a slice that was never appended to, and not
    the empty array. *)
Theorem handleGetVideos_empty_is_null (e : ListingEnv) (r : Request)
    (st : ListingState) (entries : list DirEntry) :
  Method r = "GET" → readdir e = (entries, None) → writer (shared_of st) = false →
  (∀ entry, entry ∈ entries → listed entry = false) →
  lrun e (handleGetVideos r) st [] =
  LReturned (ListingJson JNull)
    (mkListingState (shared_of st) (printed st ++ [PrintVideos []])%list).
Proof.
  intros Hm Hdir Hw Hnone. unfold handleGetVideos. rewrite Hm. simpl.
  rewrite Hdir. simpl.
  destruct st as [s pr]. simpl in Hw |- *. rewrite Hw. simpl.
  assert (List.filter listed entries = []) as Hf.
  { clear Hdir. induction entries as [| entry rest IH]; [done |]. simpl.
    rewrite (Hnone entry) by (by apply elem_of_cons; left).
    apply IH. intros entry0 Hin. apply Hnone. by apply elem_of_cons; right. }
  unfold mbind, LProg_bind. rewrite list_entries_run.
  - unfold infos_of. rewrite Hf. simpl. rewrite app_nil_r.
    destruct s. simpl in *. by subst.
  - intros entry Hin Hl. by rewrite (Hnone entry Hin) in Hl.
Qed.

(** X20. The listing and the status endpoint agree.  For a listed file
    that has a record, the entry the listing gives for it and the answer
    of a status query for its name, both taken in the same state, carry
    the same status and the same directory, and the status answer has a
    stream locator exactly when the listing says transcoded, and then the
    same one. *)
Theorem listing_agrees_with_status (e : Env) (le : ListingEnv) (r : Request)
    (st : ListingState) (entries : list DirEntry) (entry : DirEntry)
    (rec : VideoMapping) (meth : string) :
  Method r = "GET" → readdir le = (entries, None) → writer (shared_of st) = false →
  (∀ entry, entry ∈ entries → listed entry = true →
     has_key (shared_of st) (entry_Name entry) →
     live_key (shared_of st) (entry_Name entry)) →
  entry ∈ entries → listed entry = true → entry_Name entry ≠ "" →
  record_at (shared_of st) (entry_Name entry) = Some rec →
  ∃ infos st' info body,
    lrun le (handleGetVideos r) st [] =
      LReturned (ListingJson (marshal_videos infos)) st' ∧
    info ∈ infos ∧ info_Name info = entry_Name entry ∧
    run e (handleStatus (mkRequest meth ("/api/status/" ++ entry_Name entry) ""))
        (shared_of st) = Returned (JsonBody body) (shared_of st) ∧
    body !! "status" = Some (info_Status info) ∧
    body !! "transcode_dir" = Some (info_TranscodeDir info) ∧
    body !! "stream_url" =
      (if info_Transcoded info then Some (info_StreamURL info) else None).
Proof.
  intros Hm Hdir Hw Hlive Hin Hl Hname Hrec.
  exists (infos_of (shared_of st) entries), 
    (mkListingState (shared_of st)
       (printed st ++ map PrintInfo (infos_of (shared_of st) entries) ++
        [PrintVideos (infos_of (shared_of st) entries)])%list),
    (info_of (shared_of st) (entry_Name entry)), (status_body rec).
  split.
  { unfold handleGetVideos. rewrite Hm. simpl. rewrite Hdir. simpl.
    destruct st as [s pr]. simpl in Hw, Hlive |- *. rewrite Hw. simpl.
    unfold mbind, LProg_bind. rewrite list_entries_run.
    - simpl. unfold infos_of, info_of. rewrite <- app_assoc.
      destruct s. simpl in *. by subst.
    - intros entry0 Hin0 Hl0 Hk. by apply (Hlive entry0). }
  split.
  { unfold infos_of.
    apply (list_elem_of_fmap_2 (λ entry0, info_of (shared_of st) (entry_Name entry0))).
    apply list_elem_of_In, filter_In. split; [by apply list_elem_of_In | done]. }
  unfold info_of. rewrite Hrec. simpl.
  split; [done |].
  split; [by apply (handleStatus_found e _ _ (entry_Name entry) rec) |].
  destruct (status_body_fields rec) as (_ & Hd & Hs & Hu).
  split; [done |]. split; [done |].
  rewrite Hu. destruct (decide (Status rec = "completed")) as [Hc | Hc].
  - by rewrite Hc.
  - apply String.eqb_neq in Hc. by rewrite Hc.
Qed.

End ListingProofs.

Section CorsProofs.

Lemma string_app_assoc (a b c : string) : (a ++ b) ++ c = a ++ (b ++ c).
Proof. induction a as [| x a IH]; [done | by rewrite !app_String, IH]. Qed.

Lemma plain_m3u8 : plain_string "m3u8".
Proof. repeat (apply Forall_cons; split; [by split |]). by apply Forall_nil. Qed.

Lemma plain_ts : plain_string "ts".
Proof. repeat (apply Forall_cons; split; [by split |]). by apply Forall_nil. Qed.

(** The locator of every directory is a playlist path. *)
Lemma Ext_stream_url (dir : string) : filepath_Ext (stream_url dir) = ".m3u8".
Proof.
  unfold stream_url.
  change "/master.m3u8" with ("/master" ++ "." ++ "m3u8").
  rewrite <- !string_app_assoc.
  rewrite (string_app_assoc _ "." "m3u8").
  apply Ext_of_dotted, plain_m3u8.
Qed.

(** X13. A preflight request is answered by the wrapper itself: the status is
    204, the four CORS headers are set, and the wrapped handler is not
    called, so that the answer is the same whatever handler is wrapped.
    The wrapper of [main.go] allows POST among the methods; the wrapper of
    the static file server does not. *)
Theorem cors_preflight (next next' : ResponseWriter → Request → ResponseWriter)
    (w : ResponseWriter) (r : Request) :
  Method r = "OPTIONS" → code w = None →
  let w' := corsHandler next w r in
  let w'' := corsHandler_static next w r in
  corsHandler next' w r = w' ∧ corsHandler_static next' w r = w'' ∧
  code w' = Some 204 ∧ code w'' = Some 204 ∧
  header w' !! "Access-Control-Allow-Origin" = Some ["*"] ∧
  header w' !! "Access-Control-Allow-Methods" = Some ["GET,HEAD,OPTIONS,POST"] ∧
  header w'' !! "Access-Control-Allow-Methods" = Some ["GET,HEAD,OPTIONS"] ∧
  header w' !! "Access-Control-Allow-Headers" =
    Some ["Range, Accept, Origin, X-Requested-With, Content-Type"] ∧
  header w' !! "Access-Control-Expose-Headers" =
    Some ["Content-Length, Content-Range"] ∧
  delete "Access-Control-Allow-Methods" (header w') =
  delete "Access-Control-Allow-Methods" (header w'').
Proof.
  intros Hm Hc. unfold corsHandler, corsHandler_static. cbv zeta. rewrite Hm.
  simpl (_ =? _). cbv iota.
  unfold WriteHeader.
  destruct (filepath_Ext (Path r) =? ".m3u8");
    [| destruct (filepath_Ext (Path r) =? ".ts")];
    simpl; rewrite Hc; simpl;
    repeat split; try (by simplify_map_eq);
    repeat first [ rewrite delete_insert_eq | rewrite delete_insert_ne by done ];
    reflexivity.
Qed.

(** X14. What the wrapper does to the content type of a request that is not a
    preflight.  For the locator [handleStatus] and [handleGetVideos] give
    for a directory, whatever the directory name, and for every path that
    ends in ".m3u8", the wrapped handler is called with the content type
    of an HLS playlist; for a path that ends in ".ts", with that of a
    transport stream; for a path that ends in a dot and any other
    extension, with the content type as it was. *)
Theorem cors_content_type (next : ResponseWriter → Request → ResponseWriter)
    (w : ResponseWriter) (r : Request) (dir base ext : string) :
  Method r ≠ "OPTIONS" →
  (Path r = stream_url dir ∨ Path r = base ++ ".m3u8" →
     ∃ w1, corsHandler next w r = next w1 r ∧ code w1 = code w ∧
           header w1 !! "Content-Type" = Some ["application/vnd.apple.mpegurl"]) ∧
  (Path r = base ++ ".ts" →
     ∃ w1, corsHandler next w r = next w1 r ∧ code w1 = code w ∧
           header w1 !! "Content-Type" = Some ["video/mp2t"]) ∧
  (Path r = base ++ "." ++ ext → plain_string ext → ext ≠ "m3u8" → ext ≠ "ts" →
     ∃ w1, corsHandler next w r = next w1 r ∧ code w1 = code w ∧
           header w1 !! "Content-Type" = header w !! "Content-Type").
Proof.
  intros Hm. apply String.eqb_neq in Hm.
  unfold corsHandler. cbv zeta. rewrite Hm.
  split; [| split].
  - intros Hp.
    assert (filepath_Ext (Path r) = ".m3u8") as ->.
    { destruct Hp as [-> | ->]; [apply Ext_stream_url |].
      apply (Ext_of_dotted base "m3u8"), plain_m3u8. }
    simpl. eexists. split; [done |]. split; [done |]. by simplify_map_eq.
  - intros ->.
    assert (filepath_Ext (base ++ ".ts") = ".ts") as ->
      by apply (Ext_of_dotted base "ts"), plain_ts.
    simpl. eexists. split; [done |]. split; [done |]. by simplify_map_eq.
  - intros -> Hext Hn1 Hn2. rewrite Ext_of_dotted by done.
    assert (("." ++ ext =? ".m3u8") = false) as ->.
    { apply String.eqb_neq. intros Heq. by injection Heq. }
    assert (("." ++ ext =? ".ts") = false) as ->.
    { apply String.eqb_neq. intros Heq. by injection Heq. }
    eexists. split; [done |]. split; [done |]. simpl. by simplify_map_eq.
Qed.

End CorsProofs.

Module MoreRuns.
Import Scenario MoreScenario.

#[local] Existing Instance RefLib.lib.
#[local] Existing Instance RefUnicode.unicode.

Ltac plain_letters :=
  repeat (apply Forall_cons; split; [by split |]); by apply Forall_nil.

Lemma stem_with_extension_witness :
  stem "README" = "README" ∧ stem "clip.final.mp4" = "clip.final".
Proof.
  split.
  - apply (proj1 (proj2 (stem_with_extension "README" "" ""))). plain_letters.
  - apply (proj2 (proj2 (stem_with_extension "" "clip.final" "mp4"))). plain_letters.
Defined.

Lemma extension_collision_witness :
  ∃ s2, goroutines s2 = [("videos/a.mp4", "transcoded/a", "a.mp4");
                         ("videos/a.mkv", "transcoded/a", "a.mkv")] ∧
        (TranscodeDir <$> record_at s2 "a.mp4") = Some "a" ∧
        (TranscodeDir <$> record_at s2 "a.mkv") = Some "a".
Proof.
  destruct (extension_collision fine fine (initial_state NoFile) ∅ "a" "mp4" "mkv")
    as (s1 & s2 & rec1 & rec2 & _ & _ & _ & _ & Hgo & Hr1 & Hr2 & Hd1 & Hd2).
  - plain_letters.
  - plain_letters.
  - discriminate.
  - reflexivity.
  - reflexivity.
  - split; reflexivity.
  - reflexivity.
  - reflexivity.
  - reflexivity.
  - exists s2. split; [exact Hgo |].
    split; [exact (eq_trans (f_equal (fmap TranscodeDir) Hr1) (f_equal Some Hd1))
           | exact (eq_trans (f_equal (fmap TranscodeDir) Hr2) (f_equal Some Hd2))].
Defined.

Lemma handlers_reject_before_locking_witness :
  run fine (handleTranscode get_a) write_locked =
    Returned (HttpError 405 "Method not allowed") write_locked ∧
  run fine (handleTranscode submit_nothing) write_locked =
    Returned (HttpError 400 "Missing 'video' parameter") write_locked ∧
  run fine (handleStatus query_nothing) write_locked =
    Returned (HttpError 400 "Missing video name") write_locked.
Proof.
  split; [| split].
  - apply (proj1 (handlers_reject_before_locking fine write_locked get_a)).
    discriminate.
  - apply (proj1 (proj2 (handlers_reject_before_locking fine write_locked
                           submit_nothing))); reflexivity.
  - apply (proj2 (proj2 (handlers_reject_before_locking fine write_locked
                           query_nothing))); reflexivity.
Defined.

Lemma nil_entry_panics_witness :
  run fine (handleStatus query_a) nil_entry = Panicked NilDereference nil_entry ∧
  run fine (handleTranscode submit_a) nil_entry = Panicked NilDereference nil_entry.
Proof.
  assert (mappings nil_entry = Some {[ "a.mp4" := Nil ]}) as Hm by reflexivity.
  assert (({[ "a.mp4" := Nil ]} : gmap string ptr) !! "a.mp4" = Some Nil) as Hk
    by reflexivity.
  assert ("a.mp4" ≠ "") as Hn by discriminate.
  split.
  - apply (proj1 (nil_entry_panics fine nil_entry _ query_a "a.mp4"
                    Hm Hk eq_refl Hn)); reflexivity.
  - apply (proj1 (proj2 (nil_entry_panics fine nil_entry _ submit_a "a.mp4"
                           Hm Hk eq_refl Hn))); reflexivity.
Defined.

Lemma null_file_wedges_server_witness :
  ∃ s s',
    run fine main_startup (initial_state (File "null")) = Returned () s ∧
    run fine (handleTranscode submit_a) s = Panicked NilMapAssignment s' ∧
    run fine (handleStatus query_a) s' = Deadlock.
Proof.
  destruct (null_file_wedges_server fine fine fine "null" submit_a query_a)
    as (s & s' & Hstart & _ & _ & _ & Hsub & _ & Hq & _).
  - reflexivity.
  - reflexivity.
  - discriminate.
  - reflexivity.
  - exists s, s'. split; [exact Hstart |]. split; [exact Hsub |].
    apply Hq. discriminate.
Defined.

Lemma transcode_outcome_witness :
  ∃ s', run exit1 (transcode "videos/a.mp4" "transcoded/a" "a.mp4")
          recorded_twice = Returned () s' ∧
        heap s' = [a_with "processing"; a_with "failed"] ∧
        record_at s' "a.mp4" = Some (a_with "failed") ∧ unlocked s'.
Proof.
  destruct (transcode_outcome exit1 recorded_twice
              "videos/a.mp4" "transcoded/a" "a.mp4" (a_with "processing"))
    as (s' & l & Hrun & Hb & _ & Hh & Hrec & _ & Hu & _).
  - split; reflexivity.
  - reflexivity.
  - assert (l = 1) as -> by (vm_compute in Hb; by injection Hb).
    exists s'. split; [exact Hrun |]. split; [exact Hh |].
    split; [exact Hrec | exact Hu].
Defined.

Lemma submit_job_query_witness :
  ∃ s1 s2,
    run fine (handleStatus query_a) s1 =
      Returned (JsonBody (answer_for "a.mp4" "processing")) s1 ∧
    run fine (transcode "videos/a.mp4" "transcoded/a" "a.mp4") s1 = Returned () s2 ∧
    run fine (handleStatus query_a) s2 =
      Returned (JsonBody (answer_for "a.mp4" "completed")) s2 ∧
    answer_for "a.mp4" "completed" !! "stream_url" = Some "/hls/a/master.m3u8".
Proof.
  destruct (submit_job_query fine fine fine (initial_state NoFile) ∅ "a.mp4" "GET")
    as (s1 & s2 & _ & _ & Hq1 & _ & Hjob & Hq2 & Hurl).
  - discriminate.
  - reflexivity.
  - split; reflexivity.
  - reflexivity.
  - reflexivity.
  - exists s1, s2. split; [exact Hq1 |].
    split; [exact Hjob |]. split; [exact Hq2 | exact Hurl].
Defined.

Lemma records_keep_identity_witness :
  ∃ w, schedule submit_and_fail (started (registry_with "failed")) = Some w ∧
       record_kept (registry_with "failed") (shared w) ∧
       live_key (shared w) "a.mp4".
Proof.
  eexists. split; [vm_compute; reflexivity |].
  destruct (records_keep_identity submit_and_fail (registry_with "failed") _
              ltac:(vm_compute; reflexivity)) as [Hkept Hlive].
  split; [exact Hkept |]. apply Hlive. eexists. reflexivity.
Defined.

Lemma data_model_kept_witness :
  ∃ w, schedule race_then_both_jobs (started (initial_state NoFile)) = Some w ∧
       ∀ key rec, record_at (shared w) key = Some rec →
         OriginalName rec = key ∧ TranscodeDir rec = stem key.
Proof.
  eexists. split; [vm_compute; reflexivity |].
  match goal with
  | |- ∀ key rec, record_at (shared ?w) key = Some rec → _ =>
      apply (proj2 (data_model_kept race_then_both_jobs (initial_state NoFile) w
                      NoFile))
  end.
  - apply (proj1 (data_model_kept [] (initial_state NoFile)
                    (started (initial_state NoFile)) NoFile)).
  - vm_compute. reflexivity.
Defined.

Lemma registry_writes_hold_the_lock_witness :
  ∃ w, schedule until_write (started (initial_state NoFile)) = Some w ∧
       writer (shared w) = true ∧ readers (shared w) = 0.
Proof.
  eexists. split; [vm_compute; reflexivity |].
  match goal with
  | |- writer (shared ?w) = true ∧ _ =>
      destruct (registry_writes_hold_the_lock until_write (initial_state NoFile)
                  w 1 (Runner "a.mp4"
                         (Act (ASetStatusAt "a.mp4" "completed")
                              (λ _, save;; call AUnlock)))
                  () (ASetStatusAt "a.mp4" "completed"))
        as (Hw & Hr & _)
  end.
  - intros Hw. reflexivity.
  - vm_compute. reflexivity.
  - reflexivity.
  - right. eexists _, _. reflexivity.
  - exact I.
  - split; [exact Hw | exact Hr].
Defined.

Lemma jobs_never_crash_the_server_witness :
  ∃ w, schedule race_then_both_jobs (started (initial_state NoFile)) = Some w ∧
       crashed w = false.
Proof.
  eexists. split; [vm_compute; reflexivity |].
  apply (jobs_never_crash_the_server race_then_both_jobs (initial_state NoFile)).
  - intros Hw. reflexivity.
  - vm_compute. reflexivity.
Defined.

Lemma stuck_processing_is_never_retried_witness :
  ∃ w, schedule resubmit_twice (started (registry_with "processing")) = Some w ∧
       stuck "a.mp4" 0 (shared w) ∧ active_jobs "a.mp4" w = 0.
Proof.
  eexists. split; [vm_compute; reflexivity |].
  match goal with
  | |- stuck _ _ (shared ?w) ∧ _ =>
      destruct (stuck_processing_is_never_retried resubmit_twice
                  (registry_with "processing") w "a.mp4" 0) as (Hs & _ & Hn)
  end.
  - exists {[ "a.mp4" := Ref 0 ]}, (a_with "processing").
    split; [reflexivity |]. split; [reflexivity |]. split; [reflexivity |].
    split; [reflexivity |].
    intros key Hk. apply lookup_singleton_Some in Hk as [Hk _]. by symmetry.
  - vm_compute. reflexivity.
  - split; [exact Hs | exact Hn].
Defined.

Lemma cors_preflight_witness :
  corsHandler (λ w r, WriteHeader 200 w) blank preflight =
  corsHandler silent blank preflight ∧
  code (corsHandler silent blank preflight) = Some 204.
Proof.
  destruct (cors_preflight silent (λ w r, WriteHeader 200 w) blank preflight
              eq_refl eq_refl) as (Hsame & _ & Hcode & _).
  split; [exact Hsame | exact Hcode].
Defined.

Lemma cors_content_type_witness :
  (∃ w1, corsHandler silent blank get_playlist = silent w1 get_playlist ∧
         code w1 = None ∧
         header w1 !! "Content-Type" = Some ["application/vnd.apple.mpegurl"]) ∧
  (∃ w1, corsHandler silent blank get_segment = silent w1 get_segment ∧
         code w1 = None ∧
         header w1 !! "Content-Type" = Some ["video/mp2t"]).
Proof.
  split.
  - apply (proj1 (cors_content_type silent blank get_playlist "a" "" ""
                    ltac:(discriminate))).
    left. reflexivity.
  - apply (proj1 (proj2 (cors_content_type silent blank get_segment ""
                           "/hls/a/stream_0/chunk00000" ""
                           ltac:(discriminate)))).
    reflexivity.
Defined.

Lemma handleGetVideos_early_returns_witness :
  lrun (reading folder) (handleGetVideos post_videos) (quiet write_locked) [] =
    LReturned (ListingError 405 "Method not allowed") (quiet write_locked) ∧
  lrun unreadable (handleGetVideos get_videos) (quiet write_locked) [] =
    LReturned (ListingError 500 "Could not read videos directory")
              (quiet write_locked).
Proof.
  split.
  - apply (proj1 (handleGetVideos_early_returns (reading folder) post_videos
                    (quiet write_locked))). discriminate.
  - apply (proj2 (handleGetVideos_early_returns unreadable get_videos
                    (quiet write_locked))); [reflexivity | discriminate].
Defined.

Lemma handleGetVideos_only_reads_witness :
  ends_with nil_entry
    (lrun (reading folder) (handleGetVideos get_videos) (quiet nil_entry) []) ∧
  ends_with (registry_with "completed")
    (lrun (reading folder) (handleGetVideos get_videos)
       (quiet (registry_with "completed")) []).
Proof.
  split.
  - apply (handleGetVideos_only_reads (reading folder) get_videos (quiet nil_entry)).
    reflexivity.
  - apply (handleGetVideos_only_reads (reading folder) get_videos
             (quiet (registry_with "completed"))).
    reflexivity.
Defined.

Lemma handleGetVideos_lists_witness :
  ∃ st', lrun (reading folder) (handleGetVideos get_videos)
           (quiet (registry_with "completed")) [] =
         LReturned (ListingJson (JArray
           [JObject [("name", JString "a.mp4"); ("transcoded", JBool true);
                     ("status", JString "completed");
                     ("stream_url", JString "/hls/a/master.m3u8");
                     ("transcode_dir", JString "a")];
            JObject [("name", JString "B.MKV"); ("transcoded", JBool false)]])) st' ∧
         shared_of st' = registry_with "completed".
Proof.
  eexists. split.
  - etransitivity.
    + apply (handleGetVideos_lists (reading folder) get_videos
               (quiet (registry_with "completed")) folder eq_refl eq_refl eq_refl).
      intros entry Hin Hl (m & p & Hm & Hp).
      repeat (apply elem_of_cons in Hin as [-> | Hin]); try discriminate Hl.
      * eexists. reflexivity.
      * injection Hm as <-. discriminate Hp.
      * by apply elem_of_nil in Hin.
    + vm_compute. reflexivity.
  - reflexivity.
Defined.

Lemma handleGetVideos_empty_is_null_witness :
  ∃ st', lrun (reading no_videos) (handleGetVideos get_videos)
           (quiet (registry_with "completed")) [] =
         LReturned (ListingJson JNull) st'.
Proof.
  eexists.
  apply (handleGetVideos_empty_is_null (reading no_videos) get_videos
           (quiet (registry_with "completed")) no_videos eq_refl eq_refl eq_refl).
  intros entry Hin.
  repeat (apply elem_of_cons in Hin as [-> | Hin]); try reflexivity.
  by apply elem_of_nil in Hin.
Defined.

Lemma server_never_panics_witness :
  ∃ w, schedule race_then_both_jobs (started (initial_state NoFile)) = Some w ∧
       crashed w = false ∧ ∀ tid, threads w !! tid ≠ Some Recovered.
Proof.
  eexists. split; [vm_compute; reflexivity |].
  match goal with
  | |- crashed ?w = false ∧ _ =>
      destruct (server_never_panics race_then_both_jobs (initial_state NoFile) w)
        as (Hc & Hr & _)
  end.
  - split; [by eexists |].
    intros key (m & p & Hm & Hp). injection Hm as <-. discriminate Hp.
  - split; reflexivity.
  - vm_compute. reflexivity.
  - split; [exact Hc | exact Hr].
Defined.

Lemma listing_agrees_with_status_witness :
  ∃ infos st' info body,
    lrun (reading folder) (handleGetVideos get_videos)
      (quiet (registry_with "completed")) [] =
      LReturned (ListingJson (marshal_videos infos)) st' ∧
    info ∈ infos ∧ info_Name info = "a.mp4" ∧
    run fine (handleStatus query_a) (registry_with "completed") =
      Returned (JsonBody body) (registry_with "completed") ∧
    body !! "status" = Some (info_Status info) ∧
    body !! "transcode_dir" = Some (info_TranscodeDir info) ∧
    body !! "stream_url" =
      (if info_Transcoded info then Some (info_StreamURL info) else None).
Proof.
  apply (listing_agrees_with_status fine (reading folder) get_videos
           (quiet (registry_with "completed")) folder (mkDirEntry "a.mp4" false)
           (a_with "completed") "GET").
  - reflexivity.
  - reflexivity.
  - reflexivity.
  - intros entry Hin Hl (m & p & Hm & Hp).
    repeat (apply elem_of_cons in Hin as [-> | Hin]); try discriminate Hl.
    + eexists. reflexivity.
    + injection Hm as <-. discriminate Hp.
    + by apply elem_of_nil in Hin.
  - apply elem_of_cons. left. reflexivity.
  - reflexivity.
  - discriminate.
  - reflexivity.
Defined.

End MoreRuns.
